(** * BioSED: thresholded centroid and crown (azimuthal) integration

    A shallow embedding of the two numeric kernels of
    [src/biosed/_cpp/center_of_mass.cpp] and
    [src/biosed/_cpp/crown_integration.cpp], and the properties of the
    specification proved (or refuted) on them.

    Conventions of the embedding.
    - [py::ssize_t] values are integers of [Z]; the index arithmetic of the
      sources stays far below 2^63 for any buffer that fits in memory.
    - [int] values are integers of [Z] brought back into the 32-bit range by
      [Cxx.to_int] wherever the source converts to or computes in [int].
    - [int16_t] samples are integers of [Z]; [Cxx.is_int16] says that one is
      in range.
    - [double] accumulators are kept abstract: the kernels are written over
      any type with the operations the sources use (conversion from an
      integer, [+], [/], [== 0.0]), see [Cxx.Double].  Two instances are
      given, exact rationals ([Qc]) and IEEE binary64 ([PrimFloat]).
    - The doubles of the geometry pass go through [sqrt] and [atan2]; they
      are modelled by real numbers ([CrownIntegration]), which stand for
      finite doubles and do not round.  Where rounding or a value that is
      not finite decides a property, the same lines are embedded in binary64
      ([CrownIntegration64]), with the [atan2] of the platform as a
      parameter.
    - A loop [for (k = 0; k < n; ++k) body] is [Cxx.for_loop n body]; a
      [continue] leaves the loop state as it is.
    - A freshly allocated array holds indeterminate values; [alloc]
      functions take that value as an argument and the theorems hold for
      every choice of it.
    - Where the source has undefined behaviour inside a loop the model
      makes a choice and the theorems stay away from it: an index outside a
      vector reads a default and writes nothing, [int] arithmetic wraps
      around.  The theorems about the crown integral assume a positive
      number of bins that fits an [int] and a detector small enough for the
      [int]s of the source.  A call with [nPhiBins <= 0] has no profile: it
      is [Cxx.Undefined] when a pixel is valid ([std::clamp] with
      [hi < lo]), and otherwise fails to allocate a negative number of
      columns or returns rows without columns. *)

From Stdlib Require Import ZArith List Bool Lia Finite.
From Stdlib Require Import QArith Qcanon.
From Stdlib Require Import Reals Lra.
From Stdlib Require PrimFloat Uint63 Floats.
Import ListNotations.

Local Open Scope Z_scope.

(* ================================================================== *)
(** ** The C++ layer: loops, vectors, machine integers, doubles *)
(* ================================================================== *)

Module Cxx.

(** [for (k = 0; k < n; ++k) s = body k s]. *)
Definition for_loop {St : Type} (n : Z) (body : Z -> St -> St) (s : St) : St :=
  fold_left (fun st k => body (Z.of_nat k) st) (seq 0 (Z.to_nat n)) s.

(** Two's complement 32-bit [int]. *)
Definition to_int (z : Z) : Z := (z + 2147483648) mod 4294967296 - 2147483648.

Definition is_int (z : Z) : Prop := -2147483648 <= z <= 2147483647.

Definition is_int16 (z : Z) : Prop := -32768 <= z <= 32767.

(** [std::clamp(v, lo, hi)], as the standard library writes it. *)
Definition clamp (v lo hi : Z) : Z :=
  if v <? lo then lo else if hi <? v then hi else v.

(** [std::vector] and flat buffers: read and write by index.  Out of range
    the source has undefined behaviour; the model reads the default and
    leaves the vector unchanged. *)
Fixpoint upd {A : Type} (l : list A) (k : nat) (x : A) : list A :=
  match l, k with
  | [], _ => []
  | _ :: t, O => x :: t
  | h :: t, S k' => h :: upd t k' x
  end.

Definition vget {A : Type} (v : list A) (i : Z) (d : A) : A :=
  if i <? 0 then d else nth (Z.to_nat i) v d.

Definition vset {A : Type} (v : list A) (i : Z) (x : A) : list A :=
  if i <? 0 then v else upd v (Z.to_nat i) x.

(** Two-dimensional arrays, row by row. *)
Definition array2 (A : Type) : Type := list (list A).

Definition alloc2 {A : Type} (n m : Z) (indeterminate : A) : array2 A :=
  repeat (repeat indeterminate (Z.to_nat m)) (Z.to_nat n).

Definition get2 {A : Type} (a : array2 A) (i j : Z) (d : A) : A :=
  vget (vget a i []) j d.

Definition set2 {A : Type} (a : array2 A) (i j : Z) (x : A) : array2 A :=
  vset a i (vset (vget a i []) j x).

(** An array of [n] rows of [m] cells. *)
Definition rect {A : Type} (a : array2 A) (n m : Z) : Prop :=
  length a = Z.to_nat n /\ Forall (fun row => length row = Z.to_nat m) a.

(** The indices [0, 1, ..., n-1] a loop runs through, and the pixel
    coordinates [(y, x)] of a frame in row-major order. *)
Definition range (n : Z) : list Z := map Z.of_nat (seq 0 (Z.to_nat n)).

Definition coords (nQY nQX : Z) : list (Z * Z) :=
  flat_map (fun y => map (fun x => (y, x)) (range nQX)) (range nQY).

(** The sum of a list of integers. *)
Definition Zsum (l : list Z) : Z := fold_right Z.add 0 l.

(** The operations on [double] that the kernels use. *)
Class Double (D : Type) : Type := {
  d_of_Z : Z -> D;             (* conversion of an integer value *)
  d_add : D -> D -> D;         (* a + b *)
  d_div : D -> D -> D;         (* a / b *)
  d_eqb : D -> D -> bool       (* a == b *)
}.

(** Left-to-right summation from [0.0], the order in which the loops add. *)
Definition dsum {D : Type} {dbl : Double D} (l : list D) : D :=
  fold_left d_add l (d_of_Z 0).

(** Exact rational arithmetic. *)
#[export] Instance Double_Qc : Double Qc := {|
  d_of_Z := fun z => Q2Qc (inject_Z z);
  d_add := Qcplus;
  d_div := Qcdiv;
  d_eqb := Qc_eq_bool
|}.

(** An integer as an exact double. *)
Definition ofZ (z : Z) : Qc := d_of_Z (D := Qc) z.

(** IEEE binary64.  The conversion is exact below 2^53 and rounds to nearest
    up to 2^63, as the hardware conversion does. *)
Definition float_of_Z (z : Z) : PrimFloat.float :=
  match z with
  | Z0 => PrimFloat.zero
  | Zpos _ => PrimFloat.of_uint63 (Uint63.of_Z z)
  | Zneg p => PrimFloat.opp (PrimFloat.of_uint63 (Uint63.of_Z (Zpos p)))
  end.

#[export] Instance Double_binary64 : Double PrimFloat.float := {|
  d_of_Z := float_of_Z;
  d_add := PrimFloat.add;
  d_div := PrimFloat.div;
  d_eqb := PrimFloat.eqb
|}.

(** *** Integers in a double

    A double holds every integer of magnitude below 2^53 exactly, and [+]
    and [/] of IEEE 754 return the representable value nearest to the exact
    result.  The three classes below say what the kernels use of that; the
    theorems that depend on the absence of rounding are stated for every
    arithmetic that satisfies them, under the bound that keeps the integers
    of the kernel below 2^53. *)
Definition exact_bound : Z := 9007199254740992. (* 2^53 *)

(** Sums of integers below 2^53 are exact, and [== 0.0] tests them. *)
Class ExactSums (D : Type) {dbl : Double D} : Prop := {
  exact_add : forall a b : Z,
    0 <= a -> 0 <= b -> a + b < exact_bound ->
    d_add (d_of_Z a) (d_of_Z b) = d_of_Z (a + b);
  exact_add_zero : forall t : Z,
    - exact_bound < t < exact_bound ->
    d_add (d_of_Z 0) (d_of_Z t) = d_of_Z t;
  exact_eqb_zero : forall a : Z,
    - exact_bound < a < exact_bound ->
    d_eqb (d_of_Z a) (d_of_Z 0) = (a =? 0)
}.

(** A quotient that is an integer is exact.  ([0 / p] is [-0.0] for a
    negative [p]: the quotient 0 is left out for a negative divisor.) *)
Class ExactQuotient (D : Type) {dbl : Double D} : Prop := {
  exact_div : forall p k : Z,
    - exact_bound < p < exact_bound ->
    - exact_bound < p * k < exact_bound ->
    p <> 0 -> 0 < p \/ k <> 0 ->
    d_div (d_of_Z (p * k)) (d_of_Z p) = d_of_Z k
}.

(** Rounding a quotient does not cross an integer: for the order [le] of
    the doubles, a quotient of non-negative integers that is at most the
    integer [hi] is rounded to a double between 0 and [hi]. *)
Class RoundedQuotient (D : Type) {dbl : Double D} (le : D -> D -> Prop)
  : Prop := {
  quotient_bounds : forall a b hi : Z,
    0 <= a < exact_bound -> 0 < b < exact_bound -> 0 <= hi < exact_bound ->
    a <= hi * b ->
    le (d_of_Z 0) (d_div (d_of_Z a) (d_of_Z b))
    /\ le (d_div (d_of_Z a) (d_of_Z b)) (d_of_Z hi)
}.

(** The quotient of two integers below 2^53 depends only on their ratio:
    it is the double nearest to it. *)
Class QuotientOfRatio (D : Type) {dbl : Double D} : Prop := {
  quotient_of_ratio : forall a b c d : Z,
    0 <= a < exact_bound -> 0 < b < exact_bound ->
    0 <= c < exact_bound -> 0 < d < exact_bound ->
    a * d = c * b ->
    d_div (d_of_Z a) (d_of_Z b) = d_div (d_of_Z c) (d_of_Z d)
}.

(** [a <= b] on binary64. *)
Definition float_le (a b : PrimFloat.float) : Prop := PrimFloat.leb a b = true.

(** The real number a finite double stands for (0 for the others). *)
Definition R_of_double (x : PrimFloat.float) : R :=
  match FloatOps.Prim2SF x with
  | SpecFloat.S754_finite s m e =>
      (IZR (if s then Zneg m else Zpos m) * powerRZ 2 e)%R
  | _ => 0%R
  end.

(** What a call returns: an array, or the exception it throws, or nothing
    the language defines. *)
Inductive exn : Type :=
| ShapeError          (* std::runtime_error: the input is not 3-dimensional *)
| ContiguityError     (* std::runtime_error: the input is not C-contiguous *)
| ConfigurationError  (* invalid numeric parameters; no throw of the sources *)
| AllocationError.    (* the array runtime refuses a negative dimension *)

Inductive result (A : Type) : Type :=
| Ok (a : A)
| Throw (e : exn)
| Undefined.          (* undefined behaviour of the source *)

Arguments Ok {A} a.
Arguments Throw {A} e.
Arguments Undefined {A}.

End Cxx.

(* ================================================================== *)
(** ** The array runtime: [py::array_t<int16_t>] *)
(* ================================================================== *)

Module Numpy.
Import Cxx.

(** An [int16] array as the binding receives it: its shape, its strides
    (counted in elements), the buffer its data pointer addresses and the
    [c_style] flag of the runtime. *)
Record array_int16 : Type := {
  shape : list Z;
  strides : list Z;
  ptr : list Z;
  c_style : bool
}.

Definition ndim (a : array_int16) : Z := Z.of_nat (length (shape a)).

(** [static_cast<int16_t*>(ptr)[off]]. *)
Definition load (buf : list Z) (off : Z) : Z := vget buf off 0.

(** [a.mutable_unchecked<3>()(i, y, x)]: the stride-aware accessor. *)
Definition unchecked3 (a : array_int16) (i y x : Z) : Z :=
  load (ptr a) (i * nth 0 (strides a) 0 + y * nth 1 (strides a) 0
                + x * nth 2 (strides a) 0).

(** The strides of a row-major array of the given shape. *)
Definition c_strides (nQY nQX : Z) : list Z := [nQY * nQX; nQX; 1].

(** What every array the binding receives satisfies: the samples are
    [int16_t] values, no dimension is negative, and there is one stride per
    dimension. *)
Definition well_formed (a : array_int16) : Prop :=
  Forall is_int16 (ptr a)
  /\ Forall (fun n => 0 <= n) (shape a)
  /\ length (strides a) = length (shape a).

End Numpy.

(* ================================================================== *)
(** ** center_of_mass.cpp *)
(* ================================================================== *)

Module CenterOfMass.
Import Cxx Numpy.

Section Kernel.
Context {D : Type} {dbl : Double D}.

(** The three running sums of one image. *)
Record sums : Type := { sumQY : D; sumQX : D; totalSum : D }.

(** [bufData.ptr[imageIndex * nQY * nQX + indexQY * nQX + indexQX]]. *)
Definition pixel_at (a : array_int16) (nQY nQX imageIndex indexQY indexQX : Z)
  : Z :=
  load (ptr a) (imageIndex * nQY * nQX + indexQY * nQX + indexQX).

(** The body of the two pixel loops (lines 70 to 82). *)
Definition pixel_body (threshold pixel indexQY indexQX : Z) (s : sums) : sums :=
  if pixel <? threshold then s
  else {| sumQY := d_add (sumQY s) (d_of_Z (pixel * indexQY));
          sumQX := d_add (sumQX s) (d_of_Z (pixel * indexQX));
          totalSum := d_add (totalSum s) (d_of_Z pixel) |}.

(** Lines 64 to 85: the sums of image [imageIndex]. *)
Definition image_sums (a : array_int16) (threshold nQY nQX imageIndex : Z)
  : sums :=
  for_loop nQY (fun indexQY s =>
    for_loop nQX (fun indexQX s =>
      pixel_body threshold (pixel_at a nQY nQX imageIndex indexQY indexQX)
                 indexQY indexQX s) s)
    {| sumQY := d_of_Z 0; sumQX := d_of_Z 0; totalSum := d_of_Z 0 |}.

(** Lines 56 to 97: the body of the loop over the images. *)
Definition image_body (a : array_int16) (threshold nQY nQX imageIndex : Z)
  (centersOfMass : array2 D) : array2 D :=
  let centersOfMass :=
    for_loop 2 (fun comIndex c => set2 c imageIndex comIndex (d_of_Z 0))
             centersOfMass in
  let s := image_sums a threshold nQY nQX imageIndex in
  if d_eqb (totalSum s) (d_of_Z 0) then
    set2 (set2 centersOfMass imageIndex 0 (d_of_Z (-1)))
         imageIndex 1 (d_of_Z (-1))
  else
    set2 (set2 centersOfMass imageIndex 0 (d_div (sumQY s) (totalSum s)))
         imageIndex 1 (d_div (sumQX s) (totalSum s)).

Definition compute_centers_of_mass (indeterminate : D) (image_stack : array_int16)
  (threshold : Z) : result (array2 D) :=
  if negb (ndim image_stack =? 3) then Throw ShapeError
  else if negb (c_style image_stack) then Throw ContiguityError
  else
    let nImages := nth 0 (shape image_stack) 0 in
    let nQY := nth 1 (shape image_stack) 0 in
    let nQX := nth 2 (shape image_stack) 0 in
    let centersOfMass := alloc2 nImages 2 indeterminate in
    Ok (for_loop nImages (image_body image_stack threshold nQY nQX)
                 centersOfMass).

(** *** The vocabulary of the specification *)

(** The pixels of image [i] that are at or above the threshold, in row-major
    order. *)
Definition qualifying (a : array_int16) (threshold nQY nQX i : Z)
  : list (Z * Z) :=
  filter (fun c => negb (pixel_at a nQY nQX i (fst c) (snd c) <? threshold))
         (coords nQY nQX).

(** [total = sum of p], [sumY = sum of p*y], [sumX = sum of p*x] over them. *)
Definition total_of (a : array_int16) (threshold nQY nQX i : Z) : D :=
  dsum (map (fun c => d_of_Z (pixel_at a nQY nQX i (fst c) (snd c)))
            (qualifying a threshold nQY nQX i)).

Definition sumY_of (a : array_int16) (threshold nQY nQX i : Z) : D :=
  dsum (map (fun c => d_of_Z (pixel_at a nQY nQX i (fst c) (snd c) * fst c))
            (qualifying a threshold nQY nQX i)).

Definition sumX_of (a : array_int16) (threshold nQY nQX i : Z) : D :=
  dsum (map (fun c => d_of_Z (pixel_at a nQY nQX i (fst c) (snd c) * snd c))
            (qualifying a threshold nQY nQX i)).

(** The row the specification gives for image [i]. *)
Definition centroid_of (a : array_int16) (threshold nQY nQX i : Z) : list D :=
  if d_eqb (total_of a threshold nQY nQX i) (d_of_Z 0)
  then [d_of_Z (-1); d_of_Z (-1)]
  else [d_div (sumY_of a threshold nQY nQX i) (total_of a threshold nQY nQX i);
        d_div (sumX_of a threshold nQY nQX i) (total_of a threshold nQY nQX i)].

End Kernel.

(** The integer sums behind the three accumulators of image [i]. *)
Definition totalZ (a : array_int16) (threshold nQY nQX i : Z) : Z :=
  Zsum (map (fun c => pixel_at a nQY nQX i (fst c) (snd c))
            (qualifying a threshold nQY nQX i)).

Definition sumYZ (a : array_int16) (threshold nQY nQX i : Z) : Z :=
  Zsum (map (fun c => pixel_at a nQY nQX i (fst c) (snd c) * fst c)
            (qualifying a threshold nQY nQX i)).

Definition sumXZ (a : array_int16) (threshold nQY nQX i : Z) : Z :=
  Zsum (map (fun c => pixel_at a nQY nQX i (fst c) (snd c) * snd c)
            (qualifying a threshold nQY nQX i)).

End CenterOfMass.

(* ================================================================== *)
(** ** crown_integration.cpp *)
(* ================================================================== *)

Module CrownIntegration.
Import Cxx Numpy.

(** *** The functions of <cmath> on real numbers *)

(** [std::atan2(y, x)]: the angle of the point [(x, y)], in [(-PI, PI]]. *)
Definition atan2 (y x : R) : R :=
  if Rlt_dec 0 x then atan (y / x)
  else if Rlt_dec x 0 then
    if Rle_dec 0 y then (atan (y / x) + PI)%R else (atan (y / x) - PI)%R
  else if Rlt_dec 0 y then (PI / 2)%R
  else if Rlt_dec y 0 then (- (PI / 2))%R
  else 0%R.

(** [static_cast<int>(x)] of a double: the fraction is discarded (rounding
    toward zero), and the result is an [int]. *)
Definition trunc (x : R) : Z :=
  if Rle_dec 0 x then Int_part x else - Int_part (- x).

Definition int_of_double (x : R) : Z := to_int (trunc x).

(** [a >= b] and [a <= b] on doubles. *)
Definition Rgeb (a b : R) : bool := if Rge_dec a b then true else false.
Definition Rleb (a b : R) : bool := if Rle_dec a b then true else false.
Definition Rltb (a b : R) : bool := if Rlt_dec a b then true else false.

(** *** The geometry pass (lines 54 to 91) *)

(** The four per-pixel arrays of the detector. *)
Record geometry : Type := {
  pixelsPhi : array2 R;
  pixelsQ : array2 R;
  validPixels : array2 bool;
  binIndicies : array2 Z
}.

(** The indeterminate content of the freshly allocated arrays. *)
Record fresh : Type := {
  fresh_double : R;
  fresh_bool : bool;
  fresh_int : Z
}.

Definition set_pixelsPhi (g : geometry) (i j : Z) (v : R) : geometry :=
  {| pixelsPhi := set2 (pixelsPhi g) i j v; pixelsQ := pixelsQ g;
     validPixels := validPixels g; binIndicies := binIndicies g |}.

Definition set_pixelsQ (g : geometry) (i j : Z) (v : R) : geometry :=
  {| pixelsPhi := pixelsPhi g; pixelsQ := set2 (pixelsQ g) i j v;
     validPixels := validPixels g; binIndicies := binIndicies g |}.

Definition set_validPixels (g : geometry) (i j : Z) (v : bool) : geometry :=
  {| pixelsPhi := pixelsPhi g; pixelsQ := pixelsQ g;
     validPixels := set2 (validPixels g) i j v; binIndicies := binIndicies g |}.

Definition set_binIndicies (g : geometry) (i j : Z) (v : Z) : geometry :=
  {| pixelsPhi := pixelsPhi g; pixelsQ := pixelsQ g;
     validPixels := validPixels g; binIndicies := set2 (binIndicies g) i j v |}.

(** Lines 55 and 56. *)
Definition beamCenter (n : Z) : Z := to_int (Z.quot n 2).

(** Lines 72 to 89: the body of the two loops over the detector.  [QY] is
    computed once per row in the source; it does not change within a row.
    [QY*QY + QX*QX] is an [int] expression (its overflow is undefined in the
    source and wraps here); [std::sqrt] and [std::atan2] take it and the
    offsets as doubles. *)
Definition geometry_body (nPhiBins : Z) (QRange : R * R) (qCallibration : R)
  (beamCenterQY beamCenterQX iQY iQX : Z) (g : geometry) : geometry :=
  let QY := to_int (iQY - beamCenterQY) in
  let QX := to_int (iQX - beamCenterQX) in
  let g := set_pixelsQ g iQY iQX
             (sqrt (IZR (to_int (QY * QY + QX * QX))) * qCallibration)%R in
  let g := set_pixelsPhi g iQY iQX
             (atan2 (IZR QY) (IZR QX) * 180 / PI)%R in
  let g := if Rltb (get2 (pixelsPhi g) iQY iQX 0%R) 0
           then set_pixelsPhi g iQY iQX
                  (get2 (pixelsPhi g) iQY iQX 0%R + 360)%R
           else g in
  let g := set_validPixels g iQY iQX
             (Rgeb (get2 (pixelsQ g) iQY iQX 0%R) (fst QRange)
              && Rleb (get2 (pixelsQ g) iQY iQX 0%R) (snd QRange)) in
  if get2 (validPixels g) iQY iQX false then
    let g := set_binIndicies g iQY iQX
               (int_of_double (get2 (pixelsPhi g) iQY iQX 0%R
                               / (360 / IZR nPhiBins))) in
    set_binIndicies g iQY iQX
      (clamp (get2 (binIndicies g) iQY iQX 0) 0 (to_int (nPhiBins - 1)))
  else g.

Definition geometry_pass (u : fresh) (nQY nQX nPhiBins : Z) (QRange : R * R)
  (qCallibration : R) : geometry :=
  let beamCenterQY := beamCenter nQY in
  let beamCenterQX := beamCenter nQX in
  for_loop nQY (fun iQY g =>
    for_loop nQX (fun iQX g =>
      geometry_body nPhiBins QRange qCallibration beamCenterQY beamCenterQX
                    iQY iQX g) g)
    {| pixelsPhi := alloc2 nQY nQX (fresh_double u);
       pixelsQ := alloc2 nQY nQX (fresh_double u);
       validPixels := alloc2 nQY nQX (fresh_bool u);
       binIndicies := alloc2 nQY nQX (fresh_int u) |}.

(** *** What the geometry pass stores

    The definitions below restate the loop body pixel by pixel; the facts
    about the geometry are proved through them. *)

(** The values one iteration of the geometry loops writes for the pixel
    [(iQY, iQX)], read off the body of the loops. *)
Definition cell_Q (nQY nQX : Z) (qCallibration : R) (iQY iQX : Z) : R :=
  let QY := to_int (iQY - beamCenter nQY) in
  let QX := to_int (iQX - beamCenter nQX) in
  (sqrt (IZR (to_int (QY * QY + QX * QX))) * qCallibration)%R.

Definition cell_Phi (nQY nQX : Z) (iQY iQX : Z) : R :=
  let QY := to_int (iQY - beamCenter nQY) in
  let QX := to_int (iQX - beamCenter nQX) in
  let a := (atan2 (IZR QY) (IZR QX) * 180 / PI)%R in
  if Rltb a 0 then (a + 360)%R else a.

Definition cell_valid (nQY nQX : Z) (QRange : R * R) (qCallibration : R)
  (iQY iQX : Z) : bool :=
  Rgeb (cell_Q nQY nQX qCallibration iQY iQX) (fst QRange)
  && Rleb (cell_Q nQY nQX qCallibration iQY iQX) (snd QRange).

Definition cell_bin (nQY nQX nPhiBins : Z) (iQY iQX : Z) : Z :=
  clamp (int_of_double (cell_Phi nQY nQX iQY iQX / (360 / IZR nPhiBins)))
        0 (to_int (nPhiBins - 1)).

(** The four arrays have the shape of the detector. *)
Definition geometry_rect (g : geometry) (nQY nQX : Z) : Prop :=
  rect (pixelsPhi g) nQY nQX /\ rect (pixelsQ g) nQY nQX
  /\ rect (validPixels g) nQY nQX /\ rect (binIndicies g) nQY nQX.

(** The cells of the pixels in [l] hold the values of the loop body. *)
Definition cells_written (g : geometry) (nQY nQX nPhiBins : Z)
  (QRange : R * R) (qCallibration : R) (l : list (Z * Z)) : Prop :=
  forall y x, In (y, x) l ->
    get2 (pixelsPhi g) y x 0%R = cell_Phi nQY nQX y x
    /\ get2 (pixelsQ g) y x 0%R = cell_Q nQY nQX qCallibration y x
    /\ get2 (validPixels g) y x false
       = cell_valid nQY nQX QRange qCallibration y x
    /\ (cell_valid nQY nQX QRange qCallibration y x = true ->
        get2 (binIndicies g) y x 0 = cell_bin nQY nQX nPhiBins y x).

(** Some pixel of the frame is valid. *)
Definition some_valid (g : geometry) (nQY nQX : Z) : bool :=
  existsb (fun c => get2 (validPixels g) (fst c) (snd c) false)
          (coords nQY nQX).

(** *** The image stack pass (lines 95 to 131) *)

Section Kernel.
Context {D : Type} {dbl : Double D}.

(** The two accumulator vectors of one image (lines 109 and 110). *)
Record bins : Type := { phiBinsSum : list D; pixelCount : list Z }.

(** Lines 114 to 117: the body of the two pixel loops. *)
Definition accumulate_body (g : geometry) (sedData : array_int16)
  (iImage iQY iQX : Z) (acc : bins) : bins :=
  if negb (get2 (validPixels g) iQY iQX false) then acc
  else if unchecked3 sedData iImage iQY iQX <? 0 then acc
  else
    let b := get2 (binIndicies g) iQY iQX 0 in
    {| phiBinsSum :=
         vset (phiBinsSum acc) b
              (d_add (vget (phiBinsSum acc) b (d_of_Z 0))
                     (d_of_Z (unchecked3 sedData iImage iQY iQX)));
       pixelCount :=
         vset (pixelCount acc) b (to_int (vget (pixelCount acc) b 0 + 1)) |}.

(** Lines 109 to 119: both vectors start from zero for every image. *)
Definition accumulate (g : geometry) (sedData : array_int16)
  (nQY nQX nPhiBins iImage : Z) : bins :=
  for_loop nQY (fun iQY acc =>
    for_loop nQX (fun iQX acc =>
      accumulate_body g sedData iImage iQY iQX acc) acc)
    {| phiBinsSum := repeat (d_of_Z 0) (Z.to_nat nPhiBins);
       pixelCount := repeat 0 (Z.to_nat nPhiBins) |}.

(** Lines 122 to 128: the average of every bin that received a pixel. *)
Definition average_body (acc : bins) (iImage iPhiBins : Z)
  (aziIntensityProfiles : array2 D) : array2 D :=
  if 0 <? vget (pixelCount acc) iPhiBins 0 then
    let p := set2 aziIntensityProfiles iImage iPhiBins (d_of_Z 0) in
    set2 p iImage iPhiBins
         (d_div (vget (phiBinsSum acc) iPhiBins (d_of_Z 0))
                (d_of_Z (vget (pixelCount acc) iPhiBins 0)))
  else aziIntensityProfiles.

(** Lines 108 to 129: the body of the loop over the images. *)
Definition image_body (g : geometry) (sedData : array_int16)
  (nQY nQX nPhiBins iImage : Z) (aziIntensityProfiles : array2 D) : array2 D :=
  let acc := accumulate g sedData nQY nQX nPhiBins iImage in
  for_loop nPhiBins (average_body acc iImage) aziIntensityProfiles.

(** Lines 101 to 105: the output is set to zero. *)
Definition zero_fill (nImages nPhiBins : Z) (aziIntensityProfiles : array2 D)
  : array2 D :=
  for_loop nImages (fun iImage p =>
    for_loop nPhiBins (fun iPhiBin p => set2 p iImage iPhiBin (d_of_Z 0)) p)
    aziIntensityProfiles.

(** Lines 34 to 132.  With [nPhiBins <= 0] the first valid pixel of the
    geometry pass calls [std::clamp(_, 0, nPhiBins - 1)] with [hi < lo],
    which is undefined (and for [nPhiBins = 0] the accumulation would then
    index an empty vector); without a valid pixel the allocation of line 96
    fails for a negative [nPhiBins], and for [nPhiBins = 0] the call returns
    [nImages] rows without columns. *)
Definition compute_crown_integral (u : fresh) (indeterminate : D)
  (sedDataArray : array_int16) (nPhiBins : Z) (QRange : R * R)
  (qCallibration : R) : result (array2 D) :=
  if negb (ndim sedDataArray =? 3) then Throw ShapeError
  else
    let nImages := nth 0 (shape sedDataArray) 0 in
    let nQY := nth 1 (shape sedDataArray) 0 in
    let nQX := nth 2 (shape sedDataArray) 0 in
    let g := geometry_pass u nQY nQX nPhiBins QRange qCallibration in
    if (nPhiBins <=? 0) && some_valid g nQY nQX then Undefined
    else if nPhiBins <? 0 then Throw AllocationError
    else
      let aziIntensityProfiles :=
        zero_fill nImages nPhiBins (alloc2 nImages nPhiBins indeterminate) in
      Ok (for_loop nImages (image_body g sedDataArray nQY nQX nPhiBins)
                   aziIntensityProfiles).

(** *** The vocabulary of the specification *)

(** The pixel [c] of image [i] is valid and its sample is not negative. *)
Definition contributes (g : geometry) (a : array_int16) (i : Z) (c : Z * Z)
  : bool :=
  get2 (validPixels g) (fst c) (snd c) false
  && negb (unchecked3 a i (fst c) (snd c) <? 0).

(** It contributes, and its bin index is [b]. *)
Definition goes_to (g : geometry) (a : array_int16) (i b : Z) (c : Z * Z)
  : bool :=
  contributes g a i c && (get2 (binIndicies g) (fst c) (snd c) 0 =? b).

(** The pixels of image [i] that go to bin [b], in row-major order. *)
Definition bin_pixels (g : geometry) (a : array_int16) (nQY nQX i b : Z)
  : list (Z * Z) :=
  filter (goes_to g a i b) (coords nQY nQX).

(** The pixels of image [i] that are valid and not negative. *)
Definition contributing (g : geometry) (a : array_int16) (nQY nQX i : Z)
  : list (Z * Z) :=
  filter (contributes g a i) (coords nQY nQX).

Definition bin_count (g : geometry) (a : array_int16) (nQY nQX i b : Z) : Z :=
  Z.of_nat (length (bin_pixels g a nQY nQX i b)).

Definition bin_sum (g : geometry) (a : array_int16) (nQY nQX i b : Z) : D :=
  dsum (map (fun c => d_of_Z (unchecked3 a i (fst c) (snd c)))
            (bin_pixels g a nQY nQX i b)).

(** The value the specification gives to bin [b] of image [i]. *)
Definition profile_of (g : geometry) (a : array_int16) (nQY nQX i b : Z) : D :=
  if 0 <? bin_count g a nQY nQX i b
  then d_div (bin_sum g a nQY nQX i b) (d_of_Z (bin_count g a nQY nQX i b))
  else d_of_Z 0.

End Kernel.

(** The angle and the radius the specification gives to the pixel at offset
    [(dy, dx)] from the beam center. *)
Definition angleDeg (dy dx : Z) : R :=
  let a := (atan2 (IZR dy) (IZR dx) * 180 / PI)%R in
  if Rlt_dec a 0 then (a + 360)%R else a.

Definition radius (dy dx : Z) (qCalibration : R) : R :=
  (sqrt (IZR (dy * dy + dx * dx)) * qCalibration)%R.

End CrownIntegration.

(* ================================================================== *)
(** ** crown_integration.cpp: the geometry pass in binary64 *)
(* ================================================================== *)

(** Lines 54 to 91 once more, with the doubles as IEEE binary64 values:
    every [*], [/], [+], [sqrt] and comparison rounds and compares as the
    hardware does, and a calibration factor or a range end may be infinite
    or NaN.  [std::atan2] is the one operation binary64 does not fix: on
    the axes Annex F of the C standard gives its value, elsewhere it is the
    function of the platform's library, a parameter of the model. *)
Module CrownIntegration64.
Import Cxx Numpy.

(** [M_PI] of <cmath>, the double nearest to pi: 0x1.921fb54442d18p+1. *)
Definition M_PI : PrimFloat.float :=
  Eval vm_compute in
    PrimFloat.div (float_of_Z 7074237752028440) (float_of_Z 2251799813685248).

(** The double nearest to pi/2. *)
Definition M_PI_2 : PrimFloat.float :=
  Eval vm_compute in PrimFloat.div M_PI (float_of_Z 2).

(** The integer part of a double, toward zero (0 for a double that is not
    finite). *)
Definition trunc64 (x : PrimFloat.float) : Z :=
  match FloatOps.Prim2SF x with
  | SpecFloat.S754_finite s m e =>
      let v := if 0 <=? e then Z.shiftl (Zpos m) e
               else Z.shiftr (Zpos m) (- e) in
      if s then - v else v
  | _ => 0
  end.

(** [static_cast<int>(x)] of a double.  The source is undefined when the
    integer part does not fit an [int]; the model wraps. *)
Definition int_of_double64 (x : PrimFloat.float) : Z := to_int (trunc64 x).

(** [std::atan2(QY, QX)] on two [int]s.  Annex F: 0 at the origin and on the
    positive x axis, pi on the negative x axis, pi/2 and -pi/2 on the y
    axis, each as the nearest double. *)
Definition atan2_64 (libm_atan2 : PrimFloat.float -> PrimFloat.float -> PrimFloat.float)
  (QY QX : Z) : PrimFloat.float :=
  if QX =? 0 then
    if 0 <? QY then M_PI_2
    else if QY <? 0 then PrimFloat.opp M_PI_2
    else PrimFloat.zero
  else if QY =? 0 then
    if 0 <? QX then PrimFloat.zero else M_PI
  else libm_atan2 (float_of_Z QY) (float_of_Z QX).

Record geometry64 : Type := {
  pixelsPhi64 : array2 PrimFloat.float;
  pixelsQ64 : array2 PrimFloat.float;
  validPixels64 : array2 bool;
  binIndicies64 : array2 Z
}.

(** The indeterminate content of the freshly allocated arrays. *)
Record fresh64 : Type := {
  fresh64_double : PrimFloat.float;
  fresh64_bool : bool;
  fresh64_int : Z
}.

Definition set_pixelsPhi64 (g : geometry64) (i j : Z) (v : PrimFloat.float)
  : geometry64 :=
  {| pixelsPhi64 := set2 (pixelsPhi64 g) i j v; pixelsQ64 := pixelsQ64 g;
     validPixels64 := validPixels64 g; binIndicies64 := binIndicies64 g |}.

Definition set_pixelsQ64 (g : geometry64) (i j : Z) (v : PrimFloat.float)
  : geometry64 :=
  {| pixelsPhi64 := pixelsPhi64 g; pixelsQ64 := set2 (pixelsQ64 g) i j v;
     validPixels64 := validPixels64 g; binIndicies64 := binIndicies64 g |}.

Definition set_validPixels64 (g : geometry64) (i j : Z) (v : bool)
  : geometry64 :=
  {| pixelsPhi64 := pixelsPhi64 g; pixelsQ64 := pixelsQ64 g;
     validPixels64 := set2 (validPixels64 g) i j v;
     binIndicies64 := binIndicies64 g |}.

Definition set_binIndicies64 (g : geometry64) (i j : Z) (v : Z) : geometry64 :=
  {| pixelsPhi64 := pixelsPhi64 g; pixelsQ64 := pixelsQ64 g;
     validPixels64 := validPixels64 g;
     binIndicies64 := set2 (binIndicies64 g) i j v |}.

Section Libm.
Variable libm_atan2 : PrimFloat.float -> PrimFloat.float -> PrimFloat.float.

(** Lines 72 to 89: the body of the two loops over the detector. *)
Definition geometry_body64 (nPhiBins : Z)
  (QRange : PrimFloat.float * PrimFloat.float) (qCallibration : PrimFloat.float)
  (beamCenterQY beamCenterQX iQY iQX : Z) (g : geometry64) : geometry64 :=
  let QY := to_int (iQY - beamCenterQY) in
  let QX := to_int (iQX - beamCenterQX) in
  let g := set_pixelsQ64 g iQY iQX
             (PrimFloat.mul
                (PrimFloat.sqrt (float_of_Z (to_int (QY * QY + QX * QX))))
                qCallibration) in
  let g := set_pixelsPhi64 g iQY iQX
             (PrimFloat.div
                (PrimFloat.mul (atan2_64 libm_atan2 QY QX) (float_of_Z 180))
                M_PI) in
  let g := if PrimFloat.ltb (get2 (pixelsPhi64 g) iQY iQX PrimFloat.zero)
                            PrimFloat.zero
           then set_pixelsPhi64 g iQY iQX
                  (PrimFloat.add (get2 (pixelsPhi64 g) iQY iQX PrimFloat.zero)
                                 (float_of_Z 360))
           else g in
  let g := set_validPixels64 g iQY iQX
             (PrimFloat.leb (fst QRange)
                            (get2 (pixelsQ64 g) iQY iQX PrimFloat.zero)
              && PrimFloat.leb (get2 (pixelsQ64 g) iQY iQX PrimFloat.zero)
                               (snd QRange)) in
  if get2 (validPixels64 g) iQY iQX false then
    let g := set_binIndicies64 g iQY iQX
               (int_of_double64
                  (PrimFloat.div (get2 (pixelsPhi64 g) iQY iQX PrimFloat.zero)
                     (PrimFloat.div (float_of_Z 360) (float_of_Z nPhiBins)))) in
    set_binIndicies64 g iQY iQX
      (clamp (get2 (binIndicies64 g) iQY iQX 0) 0 (to_int (nPhiBins - 1)))
  else g.

Definition geometry_pass64 (u : fresh64) (nQY nQX nPhiBins : Z)
  (QRange : PrimFloat.float * PrimFloat.float) (qCallibration : PrimFloat.float)
  : geometry64 :=
  let beamCenterQY := CrownIntegration.beamCenter nQY in
  let beamCenterQX := CrownIntegration.beamCenter nQX in
  for_loop nQY (fun iQY g =>
    for_loop nQX (fun iQX g =>
      geometry_body64 nPhiBins QRange qCallibration beamCenterQY beamCenterQX
                      iQY iQX g) g)
    {| pixelsPhi64 := alloc2 nQY nQX (fresh64_double u);
       pixelsQ64 := alloc2 nQY nQX (fresh64_double u);
       validPixels64 := alloc2 nQY nQX (fresh64_bool u);
       binIndicies64 := alloc2 nQY nQX (fresh64_int u) |}.

(** The values one iteration writes for the pixel [(iQY, iQX)]. *)
Definition cell_Q64 (nQY nQX : Z) (qCallibration : PrimFloat.float)
  (iQY iQX : Z) : PrimFloat.float :=
  let QY := to_int (iQY - CrownIntegration.beamCenter nQY) in
  let QX := to_int (iQX - CrownIntegration.beamCenter nQX) in
  PrimFloat.mul (PrimFloat.sqrt (float_of_Z (to_int (QY * QY + QX * QX))))
                qCallibration.

Definition cell_Phi64 (nQY nQX : Z) (iQY iQX : Z) : PrimFloat.float :=
  let QY := to_int (iQY - CrownIntegration.beamCenter nQY) in
  let QX := to_int (iQX - CrownIntegration.beamCenter nQX) in
  let a := PrimFloat.div
             (PrimFloat.mul (atan2_64 libm_atan2 QY QX) (float_of_Z 180))
             M_PI in
  if PrimFloat.ltb a PrimFloat.zero then PrimFloat.add a (float_of_Z 360)
  else a.

Definition cell_valid64 (nQY nQX : Z)
  (QRange : PrimFloat.float * PrimFloat.float) (qCallibration : PrimFloat.float)
  (iQY iQX : Z) : bool :=
  PrimFloat.leb (fst QRange) (cell_Q64 nQY nQX qCallibration iQY iQX)
  && PrimFloat.leb (cell_Q64 nQY nQX qCallibration iQY iQX) (snd QRange).

(** Lines 86 to 88 on the stored angle. *)
Definition bin_of_angle64 (angle : PrimFloat.float) (nPhiBins : Z) : Z :=
  clamp (int_of_double64
           (PrimFloat.div angle
              (PrimFloat.div (float_of_Z 360) (float_of_Z nPhiBins))))
        0 (to_int (nPhiBins - 1)).

End Libm.

Definition geometry_rect64 (g : geometry64) (nQY nQX : Z) : Prop :=
  rect (pixelsPhi64 g) nQY nQX /\ rect (pixelsQ64 g) nQY nQX
  /\ rect (validPixels64 g) nQY nQX /\ rect (binIndicies64 g) nQY nQX.

End CrownIntegration64.

(* ================================================================== *)
(** ** Inputs of the examples *)
(* ================================================================== *)

Module Examples.
Import Cxx Numpy CrownIntegration.

(** A C-contiguous stack of the given shape over the given samples. *)
Definition stack (nImages nQY nQX : Z) (samples : list Z) : array_int16 :=
  {| shape := [nImages; nQY; nQX]; strides := c_strides nQY nQX;
     ptr := samples; c_style := true |}.

(** Two 2x3 frames; the second has a single pixel above zero. *)
Definition two_frames : array_int16 :=
  stack 2 2 3 [1; 2; 3; 4; 5; 6;  0; 0; 0; 0; 0; 7].

(** One 1x1 frame whose pixel is 0. *)
Definition zero_frame : array_int16 := stack 1 1 1 [0].

(** One 1x2 frame: a pixel 0 at (0,0) and a pixel -1 at (0,1). *)
Definition zero_pixel : array_int16 := stack 1 1 2 [0; -1].

(** The indeterminate content of fresh arrays used in the examples. *)
Definition some_fresh : fresh :=
  {| fresh_double := 7%R; fresh_bool := true; fresh_int := 7 |}.

(** A view of every second sample of a buffer: not C-contiguous. *)
Definition strided_stack : array_int16 :=
  {| shape := [1; 1; 2]; strides := [4; 4; 2]; ptr := [5; 0; 6; 0];
     c_style := false |}.

(** The indeterminate content of fresh arrays, for the binary64 pass. *)
Definition some_fresh64 : CrownIntegration64.fresh64 :=
  {| CrownIntegration64.fresh64_double := PrimFloat.one;
     CrownIntegration64.fresh64_bool := true;
     CrownIntegration64.fresh64_int := 7 |}.

(** An [atan2] for frames whose pixels all lie on the axes through the
    beam center, where the library function is not consulted. *)
Definition axes_only (y x : PrimFloat.float) : PrimFloat.float :=
  PrimFloat.nan.

(** One frame of a single row of [n + 1] pixels: [n] zeros, then [p]. *)
Definition last_pixel_row (n p : Z) : array_int16 :=
  {| shape := [1; 1; n + 1]; strides := c_strides 1 (n + 1);
     ptr := repeat 0 (Z.to_nat n) ++ [p]; c_style := true |}.

(** One 1x1 frame whose pixel is 5. *)
Definition one_pixel : array_int16 :=
  {| shape := [1; 1; 1]; strides := c_strides 1 1; ptr := [5];
     c_style := true |}.

End Examples.

(* ================================================================== *)
(** ** Facts about loops, index ranges and vectors *)
(* ================================================================== *)

Module CxxFacts.
Import Cxx.

Lemma fold_left_map {A B St : Type} (f : St -> B -> St) (h : A -> B) (l : list A) :
  forall s, fold_left f (map h l) s = fold_left (fun st a => f st (h a)) l s.
Proof.
  induction l as [|a l IH]; intro s; simpl; [reflexivity | apply IH].
Qed.

Lemma fold_left_flat_map {A B St : Type} (f : St -> B -> St) (h : A -> list B)
  (l : list A) :
  forall s, fold_left f (flat_map h l) s
            = fold_left (fun st a => fold_left f (h a) st) l s.
Proof.
  induction l as [|a l IH]; intro s; simpl; [reflexivity|].
  rewrite fold_left_app. apply IH.
Qed.

Lemma for_loop_range {St : Type} (n : Z) (body : Z -> St -> St) (s : St) :
  for_loop n body s = fold_left (fun st k => body k st) (range n) s.
Proof.
  unfold for_loop, range. now rewrite fold_left_map.
Qed.

Lemma fold_left_ext {A St : Type} (f g : St -> A -> St) (l : list A) :
  (forall s a, In a l -> f s a = g s a) ->
  forall s, fold_left f l s = fold_left g l s.
Proof.
  induction l as [|a l IH]; intros E s; simpl; [reflexivity|].
  rewrite E by (left; reflexivity).
  apply IH. intros; apply E; right; assumption.
Qed.

(** Two nested loops over a frame visit its pixels in row-major order. *)
Lemma for_loop_coords {St : Type} (nQY nQX : Z) (body : Z -> Z -> St -> St) (s : St) :
  for_loop nQY (fun y st => for_loop nQX (fun x st' => body y x st') st) s
  = fold_left (fun st c => body (fst c) (snd c) st) (coords nQY nQX) s.
Proof.
  unfold coords. rewrite fold_left_flat_map, for_loop_range.
  apply fold_left_ext. intros st y _.
  now rewrite for_loop_range, fold_left_map.
Qed.

Lemma prod_eq_dec_Z (c c' : Z * Z) : {c = c'} + {c <> c'}.
Proof. decide equality; apply Z.eq_dec. Qed.

Lemma range_length (n : Z) : length (range n) = Z.to_nat n.
Proof. unfold range. now rewrite length_map, length_seq. Qed.

Lemma range_In (n k : Z) : In k (range n) <-> 0 <= k < n.
Proof.
  unfold range. rewrite in_map_iff. split.
  - intros (j & <- & Hj). apply in_seq in Hj. lia.
  - intros Hk. exists (Z.to_nat k). split; [lia|]. apply in_seq. lia.
Qed.

Lemma range_NoDup (n : Z) : NoDup (range n).
Proof.
  unfold range. apply Injective_map_NoDup.
  - intros i j. apply Nat2Z.inj.
  - apply seq_NoDup.
Qed.

Lemma range_succ (n : Z) : 0 <= n -> range (n + 1) = range n ++ [n].
Proof.
  intros Hn. unfold range.
  replace (Z.to_nat (n + 1)) with (Z.to_nat n + 1)%nat by lia.
  rewrite seq_app, map_app. simpl. now rewrite Z2Nat.id.
Qed.

Lemma range_nonpos (n : Z) : n <= 0 -> range n = [].
Proof.
  intros Hn. unfold range. now replace (Z.to_nat n) with 0%nat by lia.
Qed.

Lemma coords_In (nQY nQX y x : Z) :
  In (y, x) (coords nQY nQX) <-> 0 <= y < nQY /\ 0 <= x < nQX.
Proof.
  unfold coords. rewrite in_flat_map. split.
  - intros (y' & Hy & Hx). apply in_map_iff in Hx.
    destruct Hx as (x' & E & Hx). inversion E; subst.
    apply range_In in Hy, Hx. now split.
  - intros [Hy Hx]. exists y. split; [now apply range_In|].
    apply in_map_iff. exists x. split; [reflexivity | now apply range_In].
Qed.

Lemma coords_NoDup (nQY nQX : Z) : NoDup (coords nQY nQX).
Proof.
  unfold coords. generalize (range_NoDup nQY).
  induction (range nQY) as [|y l IH]; intro ND; simpl; [constructor|].
  inversion ND as [|? ? Hy ND']; subst.
  apply NoDup_app.
  - apply Injective_map_NoDup; [|apply range_NoDup].
    intros x1 x2 E. now inversion E.
  - now apply IH.
  - intros c Hc Hin. apply in_map_iff in Hc. destruct Hc as (x & <- & _).
    apply in_flat_map in Hin. destruct Hin as (y' & Hy' & Hx).
    apply in_map_iff in Hx. destruct Hx as (x' & E & _).
    inversion E; subst. contradiction.
Qed.

(** The loop rule: an invariant that holds before the loop and is kept by
    every iteration holds after it. *)
Lemma for_loop_invariant {St : Type} (P : Z -> St -> Prop) (n : Z)
  (body : Z -> St -> St) (s : St) :
  0 <= n ->
  P 0 s ->
  (forall k st, 0 <= k < n -> P k st -> P (k + 1) (body k st)) ->
  P n (for_loop n body s).
Proof.
  intros Hn H0 Hstep.
  rewrite <- (Z2Nat.id n Hn) at 1.
  assert (G : forall m, (m <= Z.to_nat n)%nat ->
            P (Z.of_nat m) (for_loop (Z.of_nat m) body s)).
  { induction m as [|m IH]; intro Hm.
    - exact H0.
    - replace (Z.of_nat (S m)) with (Z.of_nat m + 1) by lia.
      rewrite for_loop_range, range_succ, fold_left_app by lia.
      simpl. rewrite <- for_loop_range. apply Hstep; [lia|].
      apply IH. lia. }
  rewrite (Z2Nat.id n Hn). rewrite <- (Z2Nat.id n Hn) at 2.
  rewrite <- (Z2Nat.id n Hn) at 1. apply G. lia.
Qed.

Lemma for_loop_nonpos {St : Type} (n : Z) (body : Z -> St -> St) (s : St) :
  n <= 0 -> for_loop n body s = s.
Proof.
  intros Hn. now rewrite for_loop_range, range_nonpos.
Qed.

Lemma for_loop_ext {St : Type} (n : Z) (body body' : Z -> St -> St) (s : St) :
  (forall k st, 0 <= k < n -> body k st = body' k st) ->
  for_loop n body s = for_loop n body' s.
Proof.
  intros E. rewrite !for_loop_range. apply fold_left_ext.
  intros st k Hk. apply E. now apply range_In.
Qed.

(** *** Integer sums *)

Lemma Zsum_le {A : Type} (f g : A -> Z) (l : list A) :
  (forall c, In c l -> f c <= g c) -> Zsum (map f l) <= Zsum (map g l).
Proof.
  induction l as [|c l IH]; intros H; simpl; [lia|].
  assert (f c <= g c) by (apply H; now left).
  assert (Zsum (map f l) <= Zsum (map g l)) by (apply IH; intros; apply H; now right).
  lia.
Qed.

Lemma Zsum_scale {A : Type} (k : Z) (f : A -> Z) (l : list A) :
  Zsum (map (fun c => k * f c) l) = k * Zsum (map f l).
Proof.
  induction l as [|c l IH]; simpl; [lia|]. rewrite IH. lia.
Qed.

Lemma Zsum_zero {A : Type} (l : list A) : Zsum (map (fun _ => 0) l) = 0.
Proof.
  induction l as [|c l IH]; simpl; [reflexivity|]. now rewrite IH.
Qed.

Lemma Zsum_positive {A : Type} (f : A -> Z) (l : list A) :
  l <> [] -> (forall c, In c l -> 1 <= f c) -> 1 <= Zsum (map f l).
Proof.
  destruct l as [|c l]; intros Hne H; [contradiction|]. simpl.
  assert (1 <= f c) by (apply H; now left).
  assert (Zsum (map (fun _ => 0) l) <= Zsum (map f l)).
  { apply Zsum_le. intros c' Hc'.
    assert (1 <= f c') by (apply H; now right). lia. }
  rewrite Zsum_zero in *. lia.
Qed.

Lemma Zsum_add {A : Type} (f h : A -> Z) (l : list A) :
  Zsum (map (fun c => f c + h c) l) = Zsum (map f l) + Zsum (map h l).
Proof.
  induction l as [|c l IH]; simpl; [reflexivity|]. rewrite IH. lia.
Qed.

Lemma Zsum_indicator (k : Z) (l : list Z) :
  NoDup l -> In k l ->
  Zsum (map (fun b => if k =? b then 1 else 0) l) = 1.
Proof.
  induction l as [|h t IH]; intros ND Hin; [contradiction|].
  inversion ND as [|? ? Hh ND']; subst. simpl.
  destruct (Z.eqb_spec k h) as [->|Hne].
  - assert (E : Zsum (map (fun b => if h =? b then 1 else 0) t)
                = Zsum (map (fun _ => 0) t)).
    { f_equal. apply map_ext_in. intros b Hb.
      destruct (Z.eqb_spec h b) as [->|_]; [contradiction | reflexivity]. }
    rewrite E, Zsum_zero. reflexivity.
  - destruct Hin as [->|Hin]; [contradiction|]. now rewrite IH.
Qed.

(** Sorting the selected elements of a list into bins loses none. *)
Lemma binned_count {A : Type} (sel : A -> bool) (bin : A -> Z) (n : Z)
  (l : list A) :
  (forall c, In c l -> sel c = true -> 0 <= bin c < n) ->
  Zsum (map (fun b => Z.of_nat (length
                        (filter (fun c => sel c && (bin c =? b)) l)))
            (range n))
  = Z.of_nat (length (filter sel l)).
Proof.
  induction l as [|c l IH]; intros Hbin.
  - cbn [filter length Z.of_nat]. apply Zsum_zero.
  - cbn [filter].
    assert (E : forall b,
      Z.of_nat (length (if sel c && (bin c =? b)
                        then c :: filter (fun c0 => sel c0 && (bin c0 =? b)) l
                        else filter (fun c0 => sel c0 && (bin c0 =? b)) l))
      = (if sel c && (bin c =? b) then 1 else 0)
        + Z.of_nat (length (filter (fun c0 => sel c0 && (bin c0 =? b)) l))).
    { intros b. destruct (sel c && (bin c =? b)); cbn [length]; lia. }
    rewrite (map_ext _ _ E), Zsum_add, IH
      by (intros; apply Hbin; [now right | assumption]).
    destruct (sel c) eqn:Es; cbn [andb].
    + rewrite Zsum_indicator.
      * cbn [length]. lia.
      * apply range_NoDup.
      * apply range_In, Hbin; [now left | assumption].
    + rewrite Zsum_zero. lia.
Qed.

(** *** Vectors *)

Lemma upd_length {A : Type} (l : list A) (k : nat) (x : A) :
  length (upd l k x) = length l.
Proof.
  revert k. induction l as [|h t IH]; intros [|k]; simpl; auto.
Qed.

Lemma nth_upd_same {A : Type} (l : list A) (k : nat) (x d : A) :
  (k < length l)%nat -> nth k (upd l k x) d = x.
Proof.
  revert k. induction l as [|h t IH]; intros [|k] Hk; simpl in *;
    try lia; [reflexivity | apply IH; lia].
Qed.

Lemma nth_upd_other {A : Type} (l : list A) (k j : nat) (x d : A) :
  k <> j -> nth j (upd l k x) d = nth j l d.
Proof.
  revert k j. induction l as [|h t IH]; intros [|k] [|j] Hkj; simpl;
    try reflexivity; try lia. apply IH. lia.
Qed.

Lemma upd_upd {A : Type} (l : list A) (k : nat) (x y : A) :
  upd (upd l k x) k y = upd l k y.
Proof.
  revert k. induction l as [|h t IH]; intros [|k]; simpl; try reflexivity.
  now rewrite IH.
Qed.

Lemma upd_app_middle {A : Type} (l1 l2 : list A) (r x : A) :
  upd (l1 ++ r :: l2) (length l1) x = l1 ++ x :: l2.
Proof.
  induction l1 as [|h t IH]; simpl; [reflexivity | now rewrite IH].
Qed.

Lemma vset_length {A : Type} (v : list A) (i : Z) (x : A) :
  length (vset v i x) = length v.
Proof.
  unfold vset. destruct (i <? 0); [reflexivity | apply upd_length].
Qed.

Lemma vget_vset_same {A : Type} (v : list A) (i : Z) (x d : A) :
  0 <= i < Z.of_nat (length v) -> vget (vset v i x) i d = x.
Proof.
  intros Hi. unfold vget, vset.
  destruct (Z.ltb_spec i 0); [lia|]. apply nth_upd_same. lia.
Qed.

Lemma vget_vset_other {A : Type} (v : list A) (i j : Z) (x d : A) :
  i <> j -> vget (vset v i x) j d = vget v j d.
Proof.
  intros Hij. unfold vget, vset.
  destruct (Z.ltb_spec j 0); [reflexivity|].
  destruct (Z.ltb_spec i 0); [reflexivity|].
  apply nth_upd_other. lia.
Qed.

Lemma vset_vset {A : Type} (v : list A) (i : Z) (x y : A) :
  vset (vset v i x) i y = vset v i y.
Proof.
  unfold vset. destruct (i <? 0); [reflexivity | apply upd_upd].
Qed.

Lemma vget_map_range {A : Type} (f : Z -> A) (n i : Z) (d : A) :
  0 <= i < n -> vget (map f (range n)) i d = f i.
Proof.
  intros Hi. unfold vget, range. destruct (Z.ltb_spec i 0); [lia|].
  rewrite map_map.
  rewrite (nth_indep _ d (f (Z.of_nat 0)))
    by (rewrite length_map, length_seq; lia).
  rewrite (map_nth (fun k => f (Z.of_nat k))), seq_nth by lia.
  f_equal. lia.
Qed.

Lemma vget_repeat {A : Type} (x d : A) (n i : Z) :
  0 <= i < n -> vget (repeat x (Z.to_nat n)) i d = x.
Proof.
  intros Hi. unfold vget. destruct (Z.ltb_spec i 0); [lia|].
  apply nth_repeat_lt. lia.
Qed.

End CxxFacts.

(* ================================================================== *)
(** ** center_of_mass.cpp: the loops compute the sums of the specification *)
(* ================================================================== *)

Module CenterOfMassFacts.
Import Cxx Numpy CxxFacts CenterOfMass.

Section AnyDouble.
Context {D : Type} {dbl : Double D}.

(** One sweep of the pixel loops over a list of coordinates, started from
    any value of the three sums. *)
Lemma pixel_sweep (a : array_int16) (threshold nQY nQX i : Z) (l : list (Z * Z)) :
  forall s : sums (D := D),
  let q := filter (fun c => negb (pixel_at a nQY nQX i (fst c) (snd c) <? threshold)) l in
  fold_left (fun st c =>
      pixel_body threshold (pixel_at a nQY nQX i (fst c) (snd c))
                 (fst c) (snd c) st) l s
  = {| sumQY := fold_left d_add
         (map (fun c => d_of_Z (pixel_at a nQY nQX i (fst c) (snd c) * fst c)) q)
         (sumQY s);
       sumQX := fold_left d_add
         (map (fun c => d_of_Z (pixel_at a nQY nQX i (fst c) (snd c) * snd c)) q)
         (sumQX s);
       totalSum := fold_left d_add
         (map (fun c => d_of_Z (pixel_at a nQY nQX i (fst c) (snd c))) q)
         (totalSum s) |}.
Proof.
  induction l as [|c l IH]; intros s; simpl.
  - now destruct s.
  - rewrite IH. unfold pixel_body.
    destruct (pixel_at a nQY nQX i (fst c) (snd c) <? threshold); reflexivity.
Qed.

Lemma image_sums_spec (a : array_int16) (threshold nQY nQX i : Z) :
  image_sums (D := D) a threshold nQY nQX i
  = {| sumQY := sumY_of a threshold nQY nQX i;
       sumQX := sumX_of a threshold nQY nQX i;
       totalSum := total_of a threshold nQY nQX i |}.
Proof.
  unfold image_sums.
  rewrite (for_loop_coords nQY nQX
             (fun y x st => pixel_body threshold (pixel_at a nQY nQX i y x) y x st)).
  now rewrite pixel_sweep.
Qed.

(** One iteration of the loop over the images replaces row [i] of the result,
    whatever it held, by the row of the specification. *)
Lemma centroid_image_body (a : array_int16) (threshold nQY nQX i : Z)
  (c : array2 D) (u v : D) :
  0 <= i < Z.of_nat (length c) ->
  vget c i [] = [u; v] ->
  image_body a threshold nQY nQX i c = vset c i (centroid_of a threshold nQY nQX i).
Proof.
  intros Hi Hrow. unfold image_body, centroid_of.
  rewrite image_sums_spec. cbn [totalSum sumQY sumQX].
  assert (E : for_loop 2 (fun comIndex c0 => set2 c0 i comIndex (d_of_Z 0)) c
              = vset c i [d_of_Z 0; d_of_Z 0]).
  { change (for_loop 2 (fun comIndex c0 => set2 c0 i comIndex (d_of_Z 0)) c)
      with (set2 (set2 c i 0 (d_of_Z 0)) i 1 (d_of_Z 0)).
    unfold set2. rewrite Hrow, vget_vset_same, vset_vset by assumption.
    reflexivity. }
  rewrite E. unfold set2.
  destruct (d_eqb (total_of a threshold nQY nQX i) (d_of_Z 0));
    rewrite !vget_vset_same, !vset_vset by (rewrite ?vset_length; assumption);
    reflexivity.
Qed.

(** The loop over the images fills the result row by row. *)
Lemma centroid_images_loop (a : array_int16) (threshold nQY nQX nImages : Z) (u : D) :
  for_loop nImages (image_body a threshold nQY nQX) (alloc2 nImages 2 u)
  = map (centroid_of a threshold nQY nQX) (range nImages).
Proof.
  destruct (Z.le_gt_cases nImages 0) as [Hn|Hn].
  - rewrite for_loop_nonpos, range_nonpos by assumption.
    unfold alloc2. now replace (Z.to_nat nImages) with 0%nat by lia.
  - pose proof (for_loop_invariant
      (fun k st => st = map (centroid_of a threshold nQY nQX) (range k)
                        ++ repeat (repeat u 2) (Z.to_nat (nImages - k)))
      nImages (image_body a threshold nQY nQX) (alloc2 nImages 2 u)) as Inv.
    cbv beta in Inv. rewrite Z.sub_diag, app_nil_r in Inv.
    apply Inv; clear Inv.
    + lia.
    + rewrite Z.sub_0_r. reflexivity.
    + intros k st Hk ->.
      set (done := map (centroid_of a threshold nQY nQX) (range k)).
      assert (Hlen : length done = Z.to_nat k).
      { unfold done. now rewrite length_map, range_length. }
      replace (Z.to_nat (nImages - k)) with (S (Z.to_nat (nImages - (k + 1))))
        by lia.
      cbn [repeat].
      rewrite (centroid_image_body _ _ _ _ _ _ u u).
      * unfold vset. destruct (Z.ltb_spec k 0); [lia|].
        rewrite <- Hlen, upd_app_middle.
        rewrite range_succ, map_app, <- app_assoc by lia. reflexivity.
      * rewrite length_app, Hlen. cbn [length]. lia.
      * unfold vget. destruct (Z.ltb_spec k 0); [lia|].
        rewrite <- Hlen, nth_middle. reflexivity.
Qed.

(** The whole call on a 3-dimensional C-contiguous stack. *)
Lemma compute_centers_of_mass_rows (u : D) (a : array_int16) (threshold : Z) :
  ndim a = 3 -> c_style a = true ->
  compute_centers_of_mass u a threshold
  = Ok (map (centroid_of a threshold (nth 1 (shape a) 0) (nth 2 (shape a) 0))
            (range (nth 0 (shape a) 0))).
Proof.
  intros Hd Hc. unfold compute_centers_of_mass.
  rewrite Hd, Hc. cbn [Z.eqb Pos.eqb negb].
  now rewrite centroid_images_loop.
Qed.

(** An image without a pixel at or above the threshold gets the sentinel,
    in any arithmetic where [0.0 == 0.0]. *)
Lemma centroid_of_nothing (a : array_int16) (threshold nQY nQX i : Z) :
  d_eqb (d_of_Z (D := D) 0) (d_of_Z 0) = true ->
  qualifying a threshold nQY nQX i = [] ->
  centroid_of a threshold nQY nQX i = [d_of_Z (-1); d_of_Z (-1)].
Proof.
  intros Hz Hq. unfold centroid_of, total_of. rewrite Hq.
  cbn [map]. unfold dsum. cbn [fold_left]. now rewrite Hz.
Qed.

(** On row-major strides the pointer arithmetic of [center_of_mass.cpp]
    reads the element the accessor of [crown_integration.cpp] reads. *)
Lemma pixel_at_unchecked3 (a : array_int16) (nQY nQX i y x : Z) :
  strides a = c_strides nQY nQX ->
  pixel_at a nQY nQX i y x = unchecked3 a i y x.
Proof.
  intros E. unfold pixel_at, unchecked3. rewrite E. cbn [c_strides nth].
  f_equal. lia.
Qed.

Lemma qualifying_In (a : array_int16) (threshold nQY nQX i y x : Z) :
  In (y, x) (qualifying a threshold nQY nQX i)
  <-> (0 <= y < nQY /\ 0 <= x < nQX) /\ threshold <= pixel_at a nQY nQX i y x.
Proof.
  unfold qualifying. rewrite filter_In, coords_In. cbn [fst snd].
  destruct (Z.ltb_spec (pixel_at a nQY nQX i y x) threshold); cbn [negb];
    intuition (try lia; try discriminate).
Qed.

End AnyDouble.

End CenterOfMassFacts.

(* ================================================================== *)
(** ** Exact arithmetic: the instance [Double_Qc] *)
(* ================================================================== *)

Module ExactFacts.
Import Cxx.

Local Open Scope Qc_scope.

Lemma ofZ_this (a : Z) : (this (ofZ a) == inject_Z a)%Q.
Proof. exact (Qred_correct (inject_Z a)). Qed.

Lemma ofZ_zero : ofZ 0 = 0.
Proof. reflexivity. Qed.

Lemma ofZ_add (a b : Z) : ofZ a + ofZ b = ofZ (a + b)%Z.
Proof.
  apply Qc_is_canon. unfold Qcplus. cbn [this Q2Qc].
  rewrite !Qred_correct, !ofZ_this. now rewrite inject_Z_plus.
Qed.

Lemma ofZ_mul (a b : Z) : ofZ a * ofZ b = ofZ (a * b)%Z.
Proof.
  apply Qc_is_canon. unfold Qcmult. cbn [this Q2Qc].
  rewrite !Qred_correct, !ofZ_this. now rewrite inject_Z_mult.
Qed.

Lemma ofZ_inj (a b : Z) : ofZ a = ofZ b -> a = b.
Proof.
  intros E. apply (f_equal this) in E.
  assert (E' : (inject_Z a == inject_Z b)%Q).
  { rewrite <- !ofZ_this. now rewrite E. }
  now apply inject_Z_injective.
Qed.

Lemma ofZ_le (a b : Z) : ofZ a <= ofZ b <-> (a <= b)%Z.
Proof.
  unfold Qcle. rewrite !ofZ_this, <- Zle_Qle. tauto.
Qed.

Lemma ofZ_lt (a b : Z) : ofZ a < ofZ b <-> (a < b)%Z.
Proof.
  unfold Qclt. rewrite !ofZ_this, <- Zlt_Qlt. tauto.
Qed.

Lemma eqb_ofZ (a b : Z) : d_eqb (ofZ a) (ofZ b) = (a =? b)%Z.
Proof.
  cbn [d_eqb Double_Qc]. unfold Qc_eq_bool.
  destruct (Qc_eq_dec (ofZ a) (ofZ b)) as [E|E].
  - apply ofZ_inj in E. subst. now rewrite Z.eqb_refl.
  - destruct (Z.eqb_spec a b); [subst; contradiction | reflexivity].
Qed.

(** The running sum of integer samples is the integer sum. *)
Lemma dsum_ofZ {A : Type} (g : A -> Z) (l : list A) :
  dsum (map (fun c => ofZ (g c)) l) = ofZ (Zsum (map g l)).
Proof.
  unfold dsum.
  assert (G : forall acc, fold_left d_add (map (fun c => ofZ (g c)) l) (ofZ acc)
                          = ofZ (acc + Zsum (map g l))%Z).
  { induction l as [|c l IH]; intro acc; simpl.
    - now rewrite Z.add_0_r.
    - change (d_add (ofZ acc) (ofZ (g c))) with (ofZ acc + ofZ (g c)).
      rewrite ofZ_add, IH. f_equal. lia. }
  now rewrite G.
Qed.

(** Bounds of an exact quotient of integers. *)
Lemma ofZ_pos_nonzero (b : Z) : (0 < b)%Z -> 0 < ofZ b /\ ofZ b <> 0.
Proof.
  intros Hb.
  assert (Hb' : 0 < ofZ b) by (rewrite <- ofZ_zero; now apply ofZ_lt).
  split; [assumption|]. intro E. rewrite E in Hb'. now apply Qclt_not_eq in Hb'.
Qed.

Lemma div_ofZ_lower (a b lo : Z) :
  (0 < b)%Z -> (lo * b <= a)%Z -> ofZ lo <= d_div (ofZ a) (ofZ b).
Proof.
  intros Hb Hlo. destruct (ofZ_pos_nonzero b Hb) as [Hb' Hne].
  change (d_div (ofZ a) (ofZ b)) with (ofZ a / ofZ b).
  apply Qcmult_lt_0_le_reg_r with (z := ofZ b); [assumption|].
  unfold Qcdiv. rewrite <- Qcmult_assoc, Qcmult_inv_l, Qcmult_1_r by assumption.
  rewrite ofZ_mul. now apply ofZ_le.
Qed.

Lemma div_ofZ_upper (a b hi : Z) :
  (0 < b)%Z -> (a <= hi * b)%Z -> d_div (ofZ a) (ofZ b) <= ofZ hi.
Proof.
  intros Hb Hhi. destruct (ofZ_pos_nonzero b Hb) as [Hb' Hne].
  change (d_div (ofZ a) (ofZ b)) with (ofZ a / ofZ b).
  apply Qcmult_lt_0_le_reg_r with (z := ofZ b); [assumption|].
  unfold Qcdiv. rewrite <- Qcmult_assoc, Qcmult_inv_l, Qcmult_1_r by assumption.
  rewrite ofZ_mul. now apply ofZ_le.
Qed.

Lemma div_ofZ_exact (p k : Z) :
  p <> 0%Z -> d_div (ofZ (p * k)) (ofZ p) = ofZ k.
Proof.
  intros Hp. cbn [d_div Double_Qc].
  rewrite Z.mul_comm, <- ofZ_mul. apply Qcdiv_mult_l.
  rewrite <- ofZ_zero. intro E. now apply ofZ_inj in E.
Qed.

End ExactFacts.

(* ================================================================== *)
(** ** center_of_mass.cpp in exact arithmetic *)
(* ================================================================== *)

Module CenterOfMassExact.
Import Cxx Numpy CxxFacts CenterOfMass CenterOfMassFacts ExactFacts.

Lemma centroid_of_exact (a : array_int16) (threshold nQY nQX i : Z) :
  centroid_of (D := Qc) a threshold nQY nQX i
  = if totalZ a threshold nQY nQX i =? 0
    then [ofZ (-1); ofZ (-1)]
    else [d_div (ofZ (sumYZ a threshold nQY nQX i)) (ofZ (totalZ a threshold nQY nQX i));
          d_div (ofZ (sumXZ a threshold nQY nQX i)) (ofZ (totalZ a threshold nQY nQX i))].
Proof.
  unfold centroid_of, total_of, sumY_of, sumX_of.
  fold ofZ.
  rewrite (dsum_ofZ (fun c => pixel_at a nQY nQX i (fst c) (snd c))).
  rewrite (dsum_ofZ (fun c => pixel_at a nQY nQX i (fst c) (snd c) * fst c)).
  rewrite (dsum_ofZ (fun c => pixel_at a nQY nQX i (fst c) (snd c) * snd c)).
  rewrite eqb_ofZ. reflexivity.
Qed.

(** No pixel at or above the threshold: nothing is accumulated. *)
Lemma qualifying_nil (a : array_int16) (threshold nQY nQX i : Z) :
  qualifying a threshold nQY nQX i = []
  <-> (forall y x, 0 <= y < nQY -> 0 <= x < nQX ->
                   pixel_at a nQY nQX i y x < threshold).
Proof.
  split.
  - intros E y x Hy Hx.
    destruct (Z.lt_ge_cases (pixel_at a nQY nQX i y x) threshold) as [|Hge];
      [assumption|].
    assert (In (y, x) (qualifying a threshold nQY nQX i))
      by (apply qualifying_In; repeat split; lia).
    rewrite E in *. contradiction.
  - intros H. destruct (qualifying a threshold nQY nQX i) as [|[y x] l] eqn:E;
      [reflexivity|].
    assert (Hin : In (y, x) (qualifying a threshold nQY nQX i))
      by (rewrite E; now left).
    apply qualifying_In in Hin. destruct Hin as [[Hy Hx] Hp].
    specialize (H y x Hy Hx). lia.
Qed.

(** With a threshold of at least 1 every accumulated weight is positive. *)
Lemma sums_positive (a : array_int16) (threshold nQY nQX i : Z) :
  1 <= threshold ->
  qualifying a threshold nQY nQX i <> [] ->
  1 <= totalZ a threshold nQY nQX i
  /\ 0 <= sumYZ a threshold nQY nQX i
        <= (nQY - 1) * totalZ a threshold nQY nQX i
  /\ 0 <= sumXZ a threshold nQY nQX i
        <= (nQX - 1) * totalZ a threshold nQY nQX i.
Proof.
  intros Ht Hne. unfold totalZ, sumYZ, sumXZ.
  assert (Hq : forall c, In c (qualifying a threshold nQY nQX i) ->
             (0 <= fst c < nQY /\ 0 <= snd c < nQX)
             /\ 1 <= pixel_at a nQY nQX i (fst c) (snd c)).
  { intros [y x] Hc. apply qualifying_In in Hc. cbn [fst snd]. lia. }
  split; [|split].
  - apply Zsum_positive; [assumption|]. intros c Hc. now apply Hq.
  - rewrite <- Zsum_scale. split.
    + rewrite <- (Zsum_zero (qualifying a threshold nQY nQX i)).
      apply Zsum_le. intros c Hc. apply Hq in Hc. nia.
    + apply Zsum_le. intros c Hc. apply Hq in Hc. nia.
  - rewrite <- Zsum_scale. split.
    + rewrite <- (Zsum_zero (qualifying a threshold nQY nQX i)).
      apply Zsum_le. intros c Hc. apply Hq in Hc. nia.
    + apply Zsum_le. intros c Hc. apply Hq in Hc. nia.
Qed.

Lemma filter_unique {A : Type} (f : A -> bool) (l : list A) (c : A) :
  NoDup l -> In c l -> f c = true ->
  (forall c', In c' l -> c' <> c -> f c' = false) ->
  filter f l = [c].
Proof.
  induction l as [|h t IH]; intros ND Hin Hc Hother; [contradiction|].
  inversion ND as [|? ? Hh ND']; subst. simpl.
  destruct Hin as [->|Hin].
  - rewrite Hc. f_equal.
    assert (E : forall c', In c' t -> f c' = false).
    { intros c' Hc'. apply Hother; [now right|]. intros ->. contradiction. }
    clear - E. induction t as [|h t IH]; simpl; [reflexivity|].
    rewrite E by now left. apply IH. intros; apply E; now right.
  - assert (Hh' : f h = false).
    { apply Hother; [now left|]. intros E. subst h. contradiction. }
    rewrite Hh'.
    apply IH; try assumption. intros; apply Hother; [now right | assumption].
Qed.

(** Exactly one pixel at or above the threshold. *)
Lemma qualifying_single (a : array_int16) (threshold nQY nQX i y0 x0 : Z) :
  0 <= y0 < nQY -> 0 <= x0 < nQX ->
  threshold <= pixel_at a nQY nQX i y0 x0 ->
  (forall y x, 0 <= y < nQY -> 0 <= x < nQX -> (y, x) <> (y0, x0) ->
               pixel_at a nQY nQX i y x < threshold) ->
  qualifying a threshold nQY nQX i = [(y0, x0)].
Proof.
  intros Hy Hx Hp Hother. unfold qualifying. apply filter_unique.
  - apply coords_NoDup.
  - now apply coords_In.
  - cbn [fst snd]. destruct (Z.ltb_spec (pixel_at a nQY nQX i y0 x0) threshold);
      [lia | reflexivity].
  - intros [y x] Hin Hne. apply coords_In in Hin. destruct Hin as [Hy' Hx'].
    cbn [fst snd]. specialize (Hother y x Hy' Hx' Hne).
    destruct (Z.ltb_spec (pixel_at a nQY nQX i y x) threshold);
      [reflexivity | lia].
Qed.

End CenterOfMassExact.

(* ================================================================== *)
(** ** center_of_mass.cpp while the sums stay below 2^53 *)
(* ================================================================== *)

Module BoundedFacts.
Import Cxx Numpy Examples CxxFacts CenterOfMass CenterOfMassFacts ExactFacts
       CenterOfMassExact.

(** Exact rationals satisfy the three classes, without any bound. *)
#[export] Instance ExactSums_Qc : ExactSums Qc.
Proof.
  split.
  - intros a b _ _ _. apply ofZ_add.
  - intros t _. change (ofZ 0 + ofZ t = ofZ t)%Qc. rewrite ofZ_add.
    f_equal.
  - intros a _. apply eqb_ofZ.
Qed.

#[export] Instance ExactQuotient_Qc : ExactQuotient Qc.
Proof.
  split. intros p k _ _ Hp _. now apply div_ofZ_exact.
Qed.

#[export] Instance RoundedQuotient_Qc : RoundedQuotient Qc Qcle.
Proof.
  split. intros a b hi Ha Hb Hhi Hle.
  split; [apply div_ofZ_lower | apply div_ofZ_upper]; lia.
Qed.

Section Bounded.
Context {D : Type} {dbl : Double D} {ES : ExactSums D}.

(** The running sum of non-negative integers is their integer sum, as long
    as it stays below 2^53. *)
Lemma dsum_exact {A : Type} (g : A -> Z) (l : list A) :
  (forall c, In c l -> 0 <= g c) ->
  Zsum (map g l) < exact_bound ->
  dsum (map (fun c => d_of_Z (g c)) l) = d_of_Z (Zsum (map g l)).
Proof.
  intros Hpos Hb. unfold dsum.
  assert (G : forall acc, 0 <= acc -> acc + Zsum (map g l) < exact_bound ->
            fold_left d_add (map (fun c => d_of_Z (g c)) l) (d_of_Z acc)
            = d_of_Z (acc + Zsum (map g l))).
  { clear Hb. induction l as [|c l IH]; intros acc Hacc Hb.
    - cbn. now rewrite Z.add_0_r.
    - cbn [map fold_left Zsum fold_right] in *.
      fold (Zsum (map g l)) in *.
      assert (Hc : 0 <= g c) by (apply Hpos; now left).
      assert (Hl : 0 <= Zsum (map g l)).
      { rewrite <- (Zsum_zero l). apply Zsum_le.
        intros c' Hc'. apply Hpos. now right. }
      rewrite exact_add by lia.
      rewrite IH; [f_equal; lia | | lia | lia].
      intros c' Hc'. apply Hpos. now right. }
  rewrite (G 0); [reflexivity | lia | lia].
Qed.

(** When no pixel at or above the threshold is negative and the three
    integer sums of the image are below 2^53, the row of the image is
    computed without rounding up to the two divisions. *)
Lemma centroid_of_nonneg (a : array_int16) (threshold nQY nQX i : Z) :
  (forall y x, 0 <= y < nQY -> 0 <= x < nQX ->
     threshold <= pixel_at a nQY nQX i y x -> 0 <= pixel_at a nQY nQX i y x) ->
  totalZ a threshold nQY nQX i < exact_bound ->
  sumYZ a threshold nQY nQX i < exact_bound ->
  sumXZ a threshold nQY nQX i < exact_bound ->
  centroid_of (D := D) a threshold nQY nQX i
  = if totalZ a threshold nQY nQX i =? 0
    then [d_of_Z (-1); d_of_Z (-1)]
    else [d_div (d_of_Z (sumYZ a threshold nQY nQX i))
                (d_of_Z (totalZ a threshold nQY nQX i));
          d_div (d_of_Z (sumXZ a threshold nQY nQX i))
                (d_of_Z (totalZ a threshold nQY nQX i))].
Proof.
  intros Ht HT HY HX.
  assert (Hq : forall c, In c (qualifying a threshold nQY nQX i) ->
             (0 <= fst c /\ 0 <= snd c)
             /\ 0 <= pixel_at a nQY nQX i (fst c) (snd c)).
  { intros [y x] Hc. apply qualifying_In in Hc. cbn [fst snd].
    destruct Hc as [[Hy Hx] Hp]. specialize (Ht y x Hy Hx Hp). lia. }
  unfold centroid_of, total_of, sumY_of, sumX_of.
  rewrite (dsum_exact (fun c => pixel_at a nQY nQX i (fst c) (snd c)));
    [|intros c Hc; apply Hq in Hc; lia | exact HT].
  rewrite (dsum_exact (fun c => pixel_at a nQY nQX i (fst c) (snd c) * fst c));
    [|intros c Hc; apply Hq in Hc; nia | exact HY].
  rewrite (dsum_exact (fun c => pixel_at a nQY nQX i (fst c) (snd c) * snd c));
    [|intros c Hc; apply Hq in Hc; nia | exact HX].
  fold (totalZ a threshold nQY nQX i) (sumYZ a threshold nQY nQX i)
       (sumXZ a threshold nQY nQX i).
  rewrite exact_eqb_zero; [reflexivity|].
  assert (0 <= totalZ a threshold nQY nQX i); [|unfold exact_bound in *; lia].
  unfold totalZ. rewrite <- (Zsum_zero (qualifying a threshold nQY nQX i)).
  apply Zsum_le. intros c Hc. apply Hq in Hc. lia.
Qed.

Lemma centroid_of_bounded (a : array_int16) (threshold nQY nQX i : Z) :
  1 <= threshold ->
  totalZ a threshold nQY nQX i < exact_bound ->
  sumYZ a threshold nQY nQX i < exact_bound ->
  sumXZ a threshold nQY nQX i < exact_bound ->
  centroid_of (D := D) a threshold nQY nQX i
  = if totalZ a threshold nQY nQX i =? 0
    then [d_of_Z (-1); d_of_Z (-1)]
    else [d_div (d_of_Z (sumYZ a threshold nQY nQX i))
                (d_of_Z (totalZ a threshold nQY nQX i));
          d_div (d_of_Z (sumXZ a threshold nQY nQX i))
                (d_of_Z (totalZ a threshold nQY nQX i))].
Proof.
  intros Ht. apply centroid_of_nonneg. intros; lia.
Qed.

End Bounded.

(** The row of an image with a single pixel at or above the threshold, in
    any arithmetic: the three sums are [0.0 + p*y0], [0.0 + p*x0] and
    [0.0 + p]. *)
Lemma single_pixel_row {D : Type} {dbl : Double D}
  (a : array_int16) (threshold nQY nQX i y0 x0 : Z) :
  0 <= y0 < nQY -> 0 <= x0 < nQX ->
  threshold <= pixel_at a nQY nQX i y0 x0 ->
  (forall y x, 0 <= y < nQY -> 0 <= x < nQX -> (y, x) <> (y0, x0) ->
               pixel_at a nQY nQX i y x < threshold) ->
  let p := pixel_at a nQY nQX i y0 x0 in
  let total := d_add (d_of_Z 0) (d_of_Z p) in
  centroid_of (D := D) a threshold nQY nQX i
  = if d_eqb total (d_of_Z 0) then [d_of_Z (-1); d_of_Z (-1)]
    else [d_div (d_add (d_of_Z 0) (d_of_Z (p * y0))) total;
          d_div (d_add (d_of_Z 0) (d_of_Z (p * x0))) total].
Proof.
  intros Hy Hx Hp Hother p total.
  unfold centroid_of, total_of, sumY_of, sumX_of.
  rewrite (qualifying_single a threshold nQY nQX i y0 x0) by assumption.
  reflexivity.
Qed.

(** The pixels of the frame [last_pixel_row n p]. *)
Lemma last_pixel_row_at (n p x : Z) :
  0 <= x <= n ->
  pixel_at (last_pixel_row n p) 1 (n + 1) 0 0 x = if x =? n then p else 0.
Proof.
  intros Hx. unfold pixel_at, load, vget, last_pixel_row. cbn [ptr].
  replace (0 * 1 * (n + 1) + 0 * (n + 1) + x) with x by ring.
  destruct (Z.ltb_spec x 0); [lia|].
  destruct (Z.eqb_spec x n) as [->|Hne].
  - rewrite app_nth2 by (rewrite repeat_length; lia).
    rewrite repeat_length, Nat.sub_diag. reflexivity.
  - rewrite app_nth1 by (rewrite repeat_length; lia).
    apply nth_repeat.
Qed.

End BoundedFacts.

(* ================================================================== *)
(** ** center_of_mass.cpp: the properties of the specification *)
(* ================================================================== *)

Module CenterOfMassSpec.
Import Cxx Numpy Examples CxxFacts CenterOfMass CenterOfMassFacts ExactFacts
       CenterOfMassExact BoundedFacts.

(** The inputs of the examples are arrays the binding can receive. *)
Example inputs_well_formed :
  Forall well_formed
         [two_frames; zero_frame; zero_pixel; strided_stack; one_pixel;
          stack 1 4 4 (repeat 0 16); stack 1 2 2 [2; -5; -5; -1]].
Proof.
  repeat constructor; unfold is_int16; lia.
Qed.

(** Concrete scenario 1 of the specification, in binary64: a 1x4x4 stack of
    zeros with threshold 1 gives the sentinel. *)
Example all_zero_stack :
  compute_centers_of_mass (D := PrimFloat.float) PrimFloat.one
    (stack 1 4 4 (repeat 0 16)) 1
  = Ok [[d_of_Z (-1); d_of_Z (-1)]].
Proof. vm_compute. reflexivity. Qed.

(** The two frames of the examples, in binary64, with threshold 1: the first
    frame has total 21, sumY 15 and sumX 25; the second has its single pixel
    at (1, 2). *)
Example two_frames_centroids :
  compute_centers_of_mass (D := PrimFloat.float) PrimFloat.one two_frames 1
  = Ok [[d_div (d_of_Z 15) (d_of_Z 21); d_div (d_of_Z 25) (d_of_Z 21)];
        [d_of_Z 1; d_of_Z 2]].
Proof. vm_compute. reflexivity. Qed.

(** A non-sentinel row equal to (-1, -1), in binary64: with threshold -1 the
    pixels 2 at (0,0) and -1 at (1,1) qualify; total is 1 and both weighted
    sums are -1. *)
Example minus_one_without_sentinel :
  compute_centers_of_mass (D := PrimFloat.float) PrimFloat.one
    (stack 1 2 2 [2; -5; -5; -1]) (-1)
  = Ok [[d_of_Z (-1); d_of_Z (-1)]]
  /\ total_of (D := PrimFloat.float) (stack 1 2 2 [2; -5; -5; -1]) (-1) 2 2 0
     = d_of_Z 1.
Proof. split; vm_compute; reflexivity. Qed.

(** C2.  On a 3-dimensional C-contiguous stack, for any threshold and any
    double arithmetic, the call returns one row per image, in order; row [i]
    is computed from the pixels of image [i] alone: [total], [sumY] and
    [sumX] are the left-to-right sums of [p], [p*y] and [p*x] over exactly
    the pixels with [p >= threshold] (in row-major order), and the row is
    [(-1, -1)] when [total == 0] and [(sumY/total, sumX/total)] otherwise. *)
Theorem centroid_accumulates_qualifying_pixels
  {D : Type} {dbl : Double D} (u : D) (a : array_int16) (threshold : Z) :
  ndim a = 3 -> c_style a = true ->
  let nImages := nth 0 (shape a) 0 in
  let nQY := nth 1 (shape a) 0 in
  let nQX := nth 2 (shape a) 0 in
  exists out : array2 D,
    compute_centers_of_mass u a threshold = Ok out
    /\ length out = Z.to_nat nImages
    /\ forall i, 0 <= i < nImages ->
       let q := qualifying a threshold nQY nQX i in
       let p := fun c => pixel_at a nQY nQX i (fst c) (snd c) in
       let total := dsum (map (fun c => d_of_Z (p c)) q) in
       let sumY := dsum (map (fun c => d_of_Z (p c * fst c)) q) in
       let sumX := dsum (map (fun c => d_of_Z (p c * snd c)) q) in
       NoDup q
       /\ (forall y x, In (y, x) q <->
             (0 <= y < nQY /\ 0 <= x < nQX) /\ threshold <= p (y, x))
       /\ vget out i [] =
            if d_eqb total (d_of_Z 0) then [d_of_Z (-1); d_of_Z (-1)]
            else [d_div sumY total; d_div sumX total].
Proof.
  intros Hd Hc nImages nQY nQX.
  exists (map (centroid_of a threshold nQY nQX) (range nImages)).
  split; [now apply compute_centers_of_mass_rows|].
  split; [now rewrite length_map, range_length|].
  intros i Hi q p total sumY sumX. split; [|split].
  - apply NoDup_filter, coords_NoDup.
  - intros y x. apply qualifying_In.
  - now rewrite vget_map_range.
Qed.

Lemma centroid_accumulates_qualifying_pixels_witness :
  (ndim two_frames = 3 /\ c_style two_frames = true)
  /\ exists out : array2 PrimFloat.float,
       compute_centers_of_mass PrimFloat.one two_frames 1 = Ok out
       /\ length out = 2%nat.
Proof.
  split; [split; reflexivity|].
  destruct (centroid_accumulates_qualifying_pixels PrimFloat.one two_frames 1
              eq_refl eq_refl) as (out & E & L & _).
  exists out. split; [exact E | exact L].
Defined.

(** The rows of the result in exact arithmetic. *)
Lemma exact_rows (u : Qc) (a : array_int16) (threshold i : Z) :
  ndim a = 3 -> c_style a = true ->
  0 <= i < nth 0 (shape a) 0 ->
  exists out : array2 Qc,
    compute_centers_of_mass u a threshold = Ok out
    /\ vget out i [] =
       let nQY := nth 1 (shape a) 0 in
       let nQX := nth 2 (shape a) 0 in
       if totalZ a threshold nQY nQX i =? 0
       then [ofZ (-1); ofZ (-1)]
       else [d_div (ofZ (sumYZ a threshold nQY nQX i))
                   (ofZ (totalZ a threshold nQY nQX i));
             d_div (ofZ (sumXZ a threshold nQY nQX i))
                   (ofZ (totalZ a threshold nQY nQX i))].
Proof.
  intros Hd Hc Hi. eexists. split.
  - now apply compute_centers_of_mass_rows.
  - rewrite vget_map_range by assumption. apply centroid_of_exact.
Qed.

(** C3, as stated, fails: the frame whose only pixel is 0 meets the
    threshold 0, and the call returns the sentinel (the sum of the
    qualifying pixels is 0), in binary64 and in exact arithmetic. *)
Lemma sentinel_with_qualifying_pixel :
  compute_centers_of_mass (D := PrimFloat.float) PrimFloat.one zero_frame 0
  = Ok [[d_of_Z (-1); d_of_Z (-1)]]
  /\ compute_centers_of_mass (D := Qc) (ofZ 7) zero_frame 0
     = Ok [[ofZ (-1); ofZ (-1)]]
  /\ 0 <= pixel_at zero_frame 1 1 0 0 0.
Proof.
  split; [vm_compute; reflexivity|]. split; [|vm_compute; discriminate].
  rewrite compute_centers_of_mass_rows by reflexivity.
  reflexivity.
Qed.

(** C3, amended.  For every image of a 3-dimensional C-contiguous stack:
    if no pixel is at or above the threshold the row is the sentinel
    [(-1, -1)], for every threshold, in binary64 and in exact arithmetic;
    and, in exact arithmetic, for every threshold of at least 1 the row is
    the sentinel if and only if no pixel is at or above the threshold. *)
Theorem sentinel_iff_no_pixel_for_positive_threshold
  (u : Qc) (v : PrimFloat.float) (a : array_int16) (threshold i : Z) :
  ndim a = 3 -> c_style a = true ->
  0 <= i < nth 0 (shape a) 0 ->
  let nQY := nth 1 (shape a) 0 in
  let nQX := nth 2 (shape a) 0 in
  let no_pixel := forall y x, 0 <= y < nQY -> 0 <= x < nQX ->
                              pixel_at a nQY nQX i y x < threshold in
  (exists out : array2 PrimFloat.float,
     compute_centers_of_mass v a threshold = Ok out
     /\ (no_pixel -> vget out i [] = [d_of_Z (-1); d_of_Z (-1)]))
  /\ (exists out : array2 Qc,
        compute_centers_of_mass u a threshold = Ok out
        /\ (no_pixel -> vget out i [] = [ofZ (-1); ofZ (-1)])
        /\ (1 <= threshold ->
            (vget out i [] = [ofZ (-1); ofZ (-1)] <-> no_pixel))).
Proof.
  intros Hd Hc Hi nQY nQX no_pixel. subst no_pixel. split.
  { eexists. split; [now apply compute_centers_of_mass_rows|].
    intros Hno. rewrite vget_map_range by assumption.
    apply centroid_of_nothing; [reflexivity|].
    now apply (proj2 (qualifying_nil a threshold nQY nQX i)). }
  destruct (exact_rows u a threshold i Hd Hc Hi) as (out & E & R).
  cbv zeta in R. fold nQY nQX in R.
  exists out. split; [exact E|].
  assert (Hnil : (forall y x, 0 <= y < nQY -> 0 <= x < nQX ->
                               pixel_at a nQY nQX i y x < threshold) ->
                 vget out i [] = [ofZ (-1); ofZ (-1)]).
  { intros Hno. apply (proj2 (qualifying_nil a threshold nQY nQX i)) in Hno.
    rewrite R. unfold totalZ. rewrite Hno. reflexivity. }
  split; [exact Hnil|].
  intros Ht. split; [|exact Hnil].
  intros Hs. apply (proj1 (qualifying_nil a threshold nQY nQX i)).
  destruct (qualifying a threshold nQY nQX i) as [|c l] eqn:Eq; [reflexivity|].
  exfalso.
  destruct (sums_positive a threshold nQY nQX i Ht) as (HT & [HY _] & _).
  { rewrite Eq. discriminate. }
  rewrite R in Hs.
  destruct (Z.eqb_spec (totalZ a threshold nQY nQX i) 0) as [E0|_]; [lia|].
  apply (f_equal (fun row => nth 0 row (ofZ 0))) in Hs. cbn [nth] in Hs.
  assert (Hlo : (ofZ 0 <= d_div (ofZ (sumYZ a threshold nQY nQX i))
                              (ofZ (totalZ a threshold nQY nQX i)))%Qc)
    by (apply div_ofZ_lower; lia).
  rewrite Hs in Hlo. apply (proj1 (ofZ_le 0 (-1))) in Hlo. lia.
Qed.

Lemma sentinel_iff_no_pixel_for_positive_threshold_witness :
  (ndim two_frames = 3 /\ c_style two_frames = true /\ 0 <= 1 < 2)
  /\ exists out : array2 Qc,
       compute_centers_of_mass (ofZ 7) two_frames 8 = Ok out
       /\ (1 <= 8 ->
           (vget out 1 [] = [ofZ (-1); ofZ (-1)] <->
            forall y x, 0 <= y < 2 -> 0 <= x < 3 ->
                        pixel_at two_frames 2 3 1 y x < 8)).
Proof.
  split; [repeat split; try reflexivity; lia|].
  destruct (sentinel_iff_no_pixel_for_positive_threshold (ofZ 7) PrimFloat.one
              two_frames 8 1 eq_refl eq_refl) as (_ & out & E & _ & H);
    [cbn; lia|].
  exists out. split; [exact E | exact H].
Defined.

(** C6, as stated, fails: in the 1x2 frame [0, -1] with threshold 0 the
    pixel at (0,0) is the only one at or above the threshold, and the call
    returns the sentinel and not (0, 0), in binary64 and in exact
    arithmetic. *)
Lemma single_zero_pixel_gives_sentinel :
  compute_centers_of_mass (D := PrimFloat.float) PrimFloat.one zero_pixel 0
  = Ok [[d_of_Z (-1); d_of_Z (-1)]]
  /\ compute_centers_of_mass (D := Qc) (ofZ 7) zero_pixel 0
     = Ok [[ofZ (-1); ofZ (-1)]]
  /\ 0 <= pixel_at zero_pixel 1 2 0 0 0
  /\ pixel_at zero_pixel 1 2 0 0 1 < 0
  /\ ofZ (-1) <> ofZ 0.
Proof.
  split; [vm_compute; reflexivity|].
  split; [rewrite compute_centers_of_mass_rows by reflexivity; reflexivity|].
  split; [vm_compute; discriminate|]. split; [reflexivity|].
  intros E. apply ofZ_inj in E. discriminate.
Qed.

(** A single negative pixel in row and column 0, in binary64: the row is
    [(-0.0, -0.0)], since [0.0 / p] is [-0.0] for a negative [p]. *)
Example negative_single_pixel :
  compute_centers_of_mass (D := PrimFloat.float) PrimFloat.one
    (stack 1 1 2 [-5; -9]) (-7)
  = Ok [[PrimFloat.neg_zero; PrimFloat.neg_zero]].
Proof. vm_compute. reflexivity. Qed.

(** C6, amended.  In every arithmetic in which the integers below 2^53 and
    their integer quotients are exact (binary64, and exact rationals): for
    every image of a 3-dimensional C-contiguous stack with exactly one
    pixel, of value [p] at [(y0, x0)], at or above the threshold, all others
    strictly below, with [p] not 0 and [p*y0] and [p*x0] of magnitude below
    2^53, the row of the image is [(y0, x0)]: both coordinates exactly when
    [p] is positive, and for a negative [p] every coordinate that is not 0
    (a coordinate 0 then comes out as [0.0 / p], which is -0.0). *)
Theorem single_pixel_centroid
  {D : Type} {dbl : Double D} {ES : ExactSums D} {EQ : ExactQuotient D}
  (u : D) (a : array_int16) (threshold i y0 x0 : Z) :
  ndim a = 3 -> c_style a = true ->
  0 <= i < nth 0 (shape a) 0 ->
  let nQY := nth 1 (shape a) 0 in
  let nQX := nth 2 (shape a) 0 in
  0 <= y0 < nQY -> 0 <= x0 < nQX ->
  let p := pixel_at a nQY nQX i y0 x0 in
  threshold <= p -> p <> 0 ->
  - exact_bound < p < exact_bound ->
  - exact_bound < p * y0 < exact_bound ->
  - exact_bound < p * x0 < exact_bound ->
  (forall y x, 0 <= y < nQY -> 0 <= x < nQX -> (y, x) <> (y0, x0) ->
               pixel_at a nQY nQX i y x < threshold) ->
  exists (out : array2 D) (vy vx : D),
    compute_centers_of_mass u a threshold = Ok out
    /\ vget out i [] = [vy; vx]
    /\ (0 < p \/ 0 < y0 -> vy = d_of_Z y0)
    /\ (0 < p \/ 0 < x0 -> vx = d_of_Z x0).
Proof.
  intros Hd Hc Hi nQY nQX Hy Hx p Hp Hnz Bp By Bx Hother.
  eexists _, _, _. split; [now apply compute_centers_of_mass_rows|].
  rewrite vget_map_range by assumption. fold nQY nQX.
  rewrite (single_pixel_row a threshold nQY nQX i y0 x0) by assumption.
  cbv zeta. fold p.
  rewrite !exact_add_zero by assumption.
  rewrite exact_eqb_zero by assumption.
  destruct (Z.eqb_spec p 0) as [E0|_]; [contradiction|].
  split; [reflexivity|].
  split; intros Hs; apply exact_div; try assumption; lia.
Qed.

Lemma single_pixel_centroid_witness :
  (ndim two_frames = 3 /\ c_style two_frames = true /\ 0 <= 1 < 2)
  /\ exists (out : array2 Qc) (vy vx : Qc),
       compute_centers_of_mass (ofZ 7) two_frames 1 = Ok out
       /\ vget out 1 [] = [vy; vx]
       /\ (0 < pixel_at two_frames 2 3 1 1 2 \/ 0 < 1 -> vy = ofZ 1)
       /\ (0 < pixel_at two_frames 2 3 1 1 2 \/ 0 < 2 -> vx = ofZ 2).
Proof.
  split; [repeat split; try reflexivity; lia|].
  apply (single_pixel_centroid (ofZ 7) two_frames 1 1 1 2);
    try reflexivity; try (cbn; lia); try (vm_compute; discriminate);
    try (vm_compute; split; reflexivity).
  intros y x Hy Hx Hne. cbn in Hy, Hx.
  assert (Hc : (y = 0 \/ y = 1) /\ (x = 0 \/ x = 1 \/ x = 2)) by lia.
  destruct Hc as [[-> | ->] [-> | [-> | ->]]];
    try reflexivity; contradiction.
Defined.

(** C10, as stated, fails in binary64: in a frame of one row of
    2^38 + 2^24 + 2 pixels whose last pixel is 32767 and whose other pixels
    are 0, with threshold 1, the product [32767 * x0] is above 2^53 and is
    rounded when it becomes a double; the x coordinate of the row is above
    [nQX - 1]. *)
Lemma rounded_centroid_outside_frame :
  (ndim (last_pixel_row 274894684161 32767) = 3
   /\ c_style (last_pixel_row 274894684161 32767) = true
   /\ nth 2 (shape (last_pixel_row 274894684161 32767)) 0 = 274894684162)
  /\ exists x : PrimFloat.float,
       compute_centers_of_mass (D := PrimFloat.float) PrimFloat.one
         (last_pixel_row 274894684161 32767) 1
       = Ok [[PrimFloat.zero; x]]
       /\ PrimFloat.ltb (float_of_Z (274894684162 - 1)) x = true.
Proof.
  split; [repeat split|].
  exists (PrimFloat.div (float_of_Z (32767 * 274894684161)) (float_of_Z 32767)).
  split; [|vm_compute; reflexivity].
  rewrite compute_centers_of_mass_rows by reflexivity.
  change (nth 0 (shape (last_pixel_row 274894684161 32767)) 0) with 1.
  change (nth 1 (shape (last_pixel_row 274894684161 32767)) 0) with 1.
  change (nth 2 (shape (last_pixel_row 274894684161 32767)) 0)
    with (274894684161 + 1).
  change (range 1) with [0]. cbn [map].
  rewrite (single_pixel_row _ 1 1 (274894684161 + 1) 0 0 274894684161).
  - cbv zeta. rewrite last_pixel_row_at by lia. rewrite Z.eqb_refl.
    vm_compute. reflexivity.
  - lia.
  - lia.
  - rewrite last_pixel_row_at by lia. rewrite Z.eqb_refl. lia.
  - intros y x Hy Hx Hne.
    assert (y = 0) by lia. subst y.
    rewrite last_pixel_row_at by lia.
    destruct (Z.eqb_spec x 274894684161) as [->|_]; [contradiction | lia].
Qed.

(** C10, amended.  In every arithmetic in which sums of integers below 2^53
    are exact and the rounding of a quotient does not cross an integer
    (binary64, and exact rationals): for every 3-dimensional C-contiguous
    stack of frames of at most 2^53 rows and columns and every threshold of
    at least 1, the row of an image whose three integer sums (of [p], [p*y]
    and [p*x] over the pixels at or above the threshold) are below 2^53 is
    either the sentinel [(-1, -1)] or a pair [(y, x)] with
    [0 <= y <= nQY - 1] and [0 <= x <= nQX - 1]. *)
Theorem centroid_within_frame
  {D : Type} {dbl : Double D} {ES : ExactSums D}
  (le : D -> D -> Prop) {RQ : RoundedQuotient D le}
  (u : D) (a : array_int16) (threshold i : Z) :
  ndim a = 3 -> c_style a = true ->
  1 <= threshold ->
  0 <= i < nth 0 (shape a) 0 ->
  let nQY := nth 1 (shape a) 0 in
  let nQX := nth 2 (shape a) 0 in
  nQY <= exact_bound -> nQX <= exact_bound ->
  totalZ a threshold nQY nQX i < exact_bound ->
  sumYZ a threshold nQY nQX i < exact_bound ->
  sumXZ a threshold nQY nQX i < exact_bound ->
  exists out : array2 D,
    compute_centers_of_mass u a threshold = Ok out
    /\ (vget out i [] = [d_of_Z (-1); d_of_Z (-1)]
        \/ exists y x : D,
             vget out i [] = [y; x]
             /\ le (d_of_Z 0) y /\ le y (d_of_Z (nQY - 1))
             /\ le (d_of_Z 0) x /\ le x (d_of_Z (nQX - 1))).
Proof.
  intros Hd Hc Ht Hi nQY nQX BY BX HT HY HX.
  eexists. split; [now apply compute_centers_of_mass_rows|].
  rewrite vget_map_range by assumption. fold nQY nQX.
  rewrite centroid_of_bounded by assumption.
  destruct (Z.eqb_spec (totalZ a threshold nQY nQX i) 0) as [E0|Hne];
    [now left|]. right.
  assert (Hq : qualifying a threshold nQY nQX i <> []).
  { intros Eq. apply Hne. unfold totalZ. now rewrite Eq. }
  destruct (sums_positive a threshold nQY nQX i Ht Hq) as (HT' & HY' & HX').
  assert (Hin : exists y x, In (y, x) (qualifying a threshold nQY nQX i)).
  { destruct (qualifying a threshold nQY nQX i) as [|[y x] l];
      [contradiction|]. exists y, x. now left. }
  destruct Hin as (y0 & x0 & Hin). apply qualifying_In in Hin.
  eexists _, _. split; [reflexivity|].
  destruct (quotient_bounds (sumYZ a threshold nQY nQX i)
              (totalZ a threshold nQY nQX i) (nQY - 1)) as [Y1 Y2];
    try lia.
  destruct (quotient_bounds (sumXZ a threshold nQY nQX i)
              (totalZ a threshold nQY nQX i) (nQX - 1)) as [X1 X2];
    try lia.
  repeat split; assumption.
Qed.

Lemma centroid_within_frame_witness :
  (ndim two_frames = 3 /\ c_style two_frames = true /\ 1 <= 1 /\ 0 <= 0 < 2
   /\ totalZ two_frames 1 2 3 0 < exact_bound)
  /\ exists out : array2 Qc,
       compute_centers_of_mass (ofZ 7) two_frames 1 = Ok out
       /\ (vget out 0 [] = [ofZ (-1); ofZ (-1)]
           \/ exists y x : Qc,
                vget out 0 [] = [y; x]
                /\ (ofZ 0 <= y)%Qc /\ (y <= ofZ (2 - 1))%Qc
                /\ (ofZ 0 <= x)%Qc /\ (x <= ofZ (3 - 1))%Qc).
Proof.
  split; [repeat split; try reflexivity; try lia|].
  apply (centroid_within_frame Qcle (ofZ 7) two_frames 1 0);
    try reflexivity; try (vm_compute; discriminate); cbn; lia.
Defined.

End CenterOfMassSpec.

(* ================================================================== *)
(** ** Facts about machine integers and the real functions *)
(* ================================================================== *)

Module RealFacts.
Import Cxx CrownIntegration.

Lemma to_int_small (z : Z) : is_int z -> to_int z = z.
Proof.
  unfold is_int, to_int. intros Hz.
  rewrite Z.mod_small by lia. lia.
Qed.

Lemma clamp_bounds (v n : Z) : 1 <= n -> 0 <= clamp v 0 (n - 1) <= n - 1.
Proof.
  intros Hn. unfold clamp.
  destruct (Z.ltb_spec v 0); [lia|].
  destruct (Z.ltb_spec (n - 1) v); lia.
Qed.

Lemma clamp_inside (v lo hi : Z) : lo <= v <= hi -> clamp v lo hi = v.
Proof.
  intros Hv. unfold clamp.
  destruct (Z.ltb_spec v lo); [lia|].
  destruct (Z.ltb_spec hi v); [lia | reflexivity].
Qed.

Local Open Scope R_scope.

Lemma atan2_bounds (y x : R) : - PI < atan2 y x <= PI.
Proof.
  pose proof PI_RGT_0 as Hpi. unfold atan2.
  destruct (Rlt_dec 0 x) as [Hx|Hx].
  - pose proof (atan_bound (y / x)). lra.
  - destruct (Rlt_dec x 0) as [Hx'|Hx'].
    + pose proof (atan_bound (y / x)) as Hb.
      destruct (Rle_dec 0 y) as [Hy|Hy].
      * assert (Hq : y / x <= 0).
        { unfold Rdiv. assert (/ x < 0) by now apply Rinv_lt_0_compat.
          nra. }
        destruct Hq as [Hq|Hq].
        -- pose proof (atan_increasing _ _ Hq) as Hi. rewrite atan_0 in Hi. lra.
        -- rewrite Hq, atan_0. lra.
      * assert (Hq : 0 < y / x).
        { unfold Rdiv. assert (/ x < 0) by now apply Rinv_lt_0_compat.
          nra. }
        pose proof (atan_increasing _ _ Hq) as Hi. rewrite atan_0 in Hi. lra.
    + destruct (Rlt_dec 0 y); [lra|]. destruct (Rlt_dec y 0); lra.
Qed.

Lemma atan2_0_pos (x : R) : 0 < x -> atan2 0 x = 0.
Proof.
  intros Hx. unfold atan2. destruct (Rlt_dec 0 x); [|contradiction].
  unfold Rdiv. now rewrite Rmult_0_l, atan_0.
Qed.

Lemma atan2_0_neg (x : R) : x < 0 -> atan2 0 x = PI.
Proof.
  intros Hx. unfold atan2.
  destruct (Rlt_dec 0 x); [lra|]. destruct (Rlt_dec x 0); [|contradiction].
  destruct (Rle_dec 0 0); [|lra].
  unfold Rdiv. rewrite Rmult_0_l, atan_0. lra.
Qed.


Lemma atan2_pos_0 (y : R) : 0 < y -> atan2 y 0 = PI / 2.
Proof.
  intros Hy. unfold atan2.
  destruct (Rlt_dec 0 0); [lra|]. destruct (Rlt_dec 0 0); [lra|].
  destruct (Rlt_dec 0 y); [reflexivity | contradiction].
Qed.

Lemma degrees_bounds (y x : R) : -180 < atan2 y x * 180 / PI <= 180.
Proof.
  pose proof PI_RGT_0 as Hpi. pose proof (atan2_bounds y x) as [Hlo Hhi].
  assert (Hinv : 0 < / PI) by now apply Rinv_0_lt_compat.
  replace (atan2 y x * 180 / PI) with (180 * (atan2 y x * / PI))
    by (unfold Rdiv; ring).
  assert (H1 : atan2 y x * / PI <= 1).
  { replace 1 with (PI * / PI) by now apply Rinv_r, PI_neq0.
    apply Rmult_le_compat_r; lra. }
  assert (H2 : -1 < atan2 y x * / PI).
  { replace (-1) with (- PI * / PI)
      by (rewrite <- Ropp_mult_distr_l, Rinv_r by apply PI_neq0; ring).
    apply Rmult_lt_compat_r; lra. }
  lra.
Qed.

Lemma angleDeg_bounds (dy dx : Z) : 0 <= angleDeg dy dx < 360.
Proof.
  unfold angleDeg.
  pose proof (degrees_bounds (IZR dy) (IZR dx)) as Hb.
  destruct (Rlt_dec (atan2 (IZR dy) (IZR dx) * 180 / PI) 0); lra.
Qed.

Lemma Int_part_bounds (r : R) (n : Z) :
  0 <= r < IZR n -> (0 <= Int_part r <= n - 1)%Z.
Proof.
  intros [Hlo Hhi]. destruct (base_Int_part r) as [H1 H2].
  split.
  - assert (H : IZR (-1) < IZR (Int_part r)) by lra.
    apply lt_IZR in H. lia.
  - assert (H : IZR (Int_part r) < IZR n) by lra.
    apply lt_IZR in H. lia.
Qed.

Lemma Int_part_IZR (k : Z) : Int_part (IZR k) = k.
Proof.
  symmetry. apply Int_part_spec. lra.
Qed.

Lemma trunc_nonneg (r : R) : 0 <= r -> trunc r = Int_part r.
Proof.
  intros Hr. unfold trunc. destruct (Rle_dec 0 r); [reflexivity | contradiction].
Qed.

(** A finite double other than 0.0 and -0.0 stands for a real number other
    than 0. *)
Lemma R_of_double_nonzero (q : PrimFloat.float) :
  PrimFloat.is_finite q = true -> PrimFloat.is_zero q = false ->
  R_of_double q <> 0.
Proof.
  unfold PrimFloat.is_finite, PrimFloat.is_zero, PrimFloat.is_nan,
    PrimFloat.is_infinity, R_of_double.
  rewrite !FloatAxioms.eqb_spec, FloatAxioms.abs_spec.
  assert (E0 : FloatOps.Prim2SF PrimFloat.zero = SpecFloat.S754_zero false)
    by reflexivity.
  assert (Ei : FloatOps.Prim2SF PrimFloat.infinity
               = SpecFloat.S754_infinity false) by reflexivity.
  rewrite E0, Ei.
  destruct (FloatOps.Prim2SF q) as [s|s| |s m e]; cbn; intros H1 H2.
  all: try discriminate.
  - destruct s; discriminate.
  - intros E. apply Rmult_integral in E. destruct E as [E|E].
    + destruct s; apply eq_IZR in E; discriminate.
    + assert (H : 0 < powerRZ 2 e) by (apply powerRZ_lt; lra). lra.
Qed.

End RealFacts.

(* ================================================================== *)
(** ** Binary64: zeros, infinities and NaN *)
(* ================================================================== *)

Module Binary64Facts.
Import Cxx CrownIntegration64.

(** A finite double is a zero or has a mantissa and an exponent. *)
Lemma finite_cases (q : PrimFloat.float) :
  PrimFloat.is_finite q = true ->
  (exists s, FloatOps.Prim2SF q = SpecFloat.S754_zero s)
  \/ (exists s m e, FloatOps.Prim2SF q = SpecFloat.S754_finite s m e).
Proof.
  unfold PrimFloat.is_finite, PrimFloat.is_nan, PrimFloat.is_infinity.
  rewrite !FloatAxioms.eqb_spec, FloatAxioms.abs_spec.
  change (FloatOps.Prim2SF PrimFloat.infinity)
    with (SpecFloat.S754_infinity false).
  destruct (FloatOps.Prim2SF q) as [s|s| |s m e]; cbn; intros H.
  - left. now exists s.
  - destruct s; discriminate.
  - discriminate.
  - right. now exists s, m, e.
Qed.

(** A double that is not finite is an infinity or a NaN. *)
Lemma not_finite_cases (q : PrimFloat.float) :
  PrimFloat.is_finite q = false ->
  (exists s, FloatOps.Prim2SF q = SpecFloat.S754_infinity s)
  \/ FloatOps.Prim2SF q = SpecFloat.S754_nan.
Proof.
  unfold PrimFloat.is_finite, PrimFloat.is_nan, PrimFloat.is_infinity.
  rewrite !FloatAxioms.eqb_spec, FloatAxioms.abs_spec.
  change (FloatOps.Prim2SF PrimFloat.infinity)
    with (SpecFloat.S754_infinity false).
  destruct (FloatOps.Prim2SF q) as [s|s| |s m e]; cbn; intros H.
  - discriminate.
  - left. now exists s.
  - now right.
  - exfalso. unfold SpecFloat.SFeqb, SpecFloat.SFcompare in H.
    rewrite Z.compare_refl in H.
    rewrite Pos.compare_cont_refl in H.
    destruct s; cbn in H; discriminate.
Qed.

(** [0.0 * q]: a zero for a finite [q], a NaN otherwise. *)
Lemma zero_times (q : PrimFloat.float) :
  (PrimFloat.is_finite q = true ->
   exists s, FloatOps.Prim2SF (PrimFloat.mul PrimFloat.zero q)
             = SpecFloat.S754_zero s)
  /\ (PrimFloat.is_finite q = false ->
      FloatOps.Prim2SF (PrimFloat.mul PrimFloat.zero q) = SpecFloat.S754_nan).
Proof.
  rewrite FloatAxioms.mul_spec.
  change (FloatOps.Prim2SF PrimFloat.zero) with (SpecFloat.S754_zero false).
  split; intros H.
  - destruct (finite_cases q H) as [[s ->]|(s & m & e & ->)];
      eexists; reflexivity.
  - destruct (not_finite_cases q H) as [[s ->]| ->]; reflexivity.
Qed.

(** Comparisons do not see the sign of a zero, and fail on a NaN. *)
Lemma leb_zero_r (a r : PrimFloat.float) (s : bool) :
  FloatOps.Prim2SF r = SpecFloat.S754_zero s ->
  PrimFloat.leb a r = PrimFloat.leb a PrimFloat.zero.
Proof.
  intros E. rewrite !FloatAxioms.leb_spec, E.
  change (FloatOps.Prim2SF PrimFloat.zero) with (SpecFloat.S754_zero false).
  destruct (FloatOps.Prim2SF a); reflexivity.
Qed.

Lemma leb_zero_l (r b : PrimFloat.float) (s : bool) :
  FloatOps.Prim2SF r = SpecFloat.S754_zero s ->
  PrimFloat.leb r b = PrimFloat.leb PrimFloat.zero b.
Proof.
  intros E. rewrite !FloatAxioms.leb_spec, E.
  change (FloatOps.Prim2SF PrimFloat.zero) with (SpecFloat.S754_zero false).
  destruct (FloatOps.Prim2SF b); reflexivity.
Qed.

Lemma leb_nan_r (a r : PrimFloat.float) :
  FloatOps.Prim2SF r = SpecFloat.S754_nan -> PrimFloat.leb a r = false.
Proof.
  intros E. rewrite FloatAxioms.leb_spec, E.
  destruct (FloatOps.Prim2SF a); reflexivity.
Qed.

(** The integer part of [0.0 / w] is 0, whatever [w]. *)
Lemma trunc64_zero_div (w : PrimFloat.float) :
  trunc64 (PrimFloat.div PrimFloat.zero w) = 0.
Proof.
  unfold trunc64. rewrite FloatAxioms.div_spec.
  change (FloatOps.Prim2SF PrimFloat.zero) with (SpecFloat.S754_zero false).
  destruct (FloatOps.Prim2SF w); reflexivity.
Qed.

End Binary64Facts.

(* ================================================================== *)
(** ** Two-dimensional arrays *)
(* ================================================================== *)

Module Array2Facts.
Import Cxx CxxFacts.

Lemma Forall_upd {A : Type} (P : A -> Prop) (l : list A) (k : nat) (x : A) :
  Forall P l -> P x -> Forall P (upd l k x).
Proof.
  intros Hl Hx. revert k.
  induction Hl as [|h t Hh Ht IH]; intros [|k]; simpl; constructor; auto.
Qed.

Lemma rect_alloc2 {A : Type} (n m : Z) (u : A) : rect (alloc2 n m u) n m.
Proof.
  unfold rect, alloc2. split; [apply repeat_length|].
  apply Forall_forall. intros row Hrow. apply repeat_spec in Hrow. subst.
  apply repeat_length.
Qed.

Lemma rect_row {A : Type} (a : array2 A) (n m i : Z) :
  rect a n m -> 0 <= i < n -> length (vget a i []) = Z.to_nat m.
Proof.
  intros [Hlen Hrows] Hi. unfold vget. destruct (Z.ltb_spec i 0); [lia|].
  rewrite Forall_forall in Hrows. apply Hrows, nth_In. lia.
Qed.

Lemma rect_set2 {A : Type} (a : array2 A) (n m i j : Z) (x : A) :
  rect a n m -> 0 <= i < n -> rect (set2 a i j x) n m.
Proof.
  intros Hr Hi. pose proof (rect_row a n m i Hr Hi) as Hrow.
  destruct Hr as [Hlen Hrows]. unfold set2. split.
  - now rewrite vset_length.
  - unfold vset at 1. destruct (i <? 0); [assumption|].
    apply Forall_upd; [assumption|]. now rewrite vset_length.
Qed.

Lemma get2_set2_same {A : Type} (a : array2 A) (n m i j : Z) (x d : A) :
  rect a n m -> 0 <= i < n -> 0 <= j < m ->
  get2 (set2 a i j x) i j d = x.
Proof.
  intros Hr Hi Hj. pose proof (rect_row a n m i Hr Hi) as Hrow.
  destruct Hr as [Hlen _]. unfold get2, set2.
  rewrite vget_vset_same by lia. apply vget_vset_same. lia.
Qed.

Lemma get2_set2_other {A : Type} (a : array2 A) (n m i j i' j' : Z) (x d : A) :
  rect a n m -> 0 <= i < n -> (i, j) <> (i', j') ->
  get2 (set2 a i j x) i' j' d = get2 a i' j' d.
Proof.
  intros [Hlen _] Hi Hne. unfold get2, set2.
  destruct (Z.eq_dec i i') as [<-|Hii].
  - rewrite vget_vset_same by lia. apply vget_vset_other.
    intros <-. now apply Hne.
  - now rewrite vget_vset_other.
Qed.

Lemma set2_set2 {A : Type} (a : array2 A) (n m i j : Z) (x y : A) :
  rect a n m -> 0 <= i < n ->
  set2 (set2 a i j x) i j y = set2 a i j y.
Proof.
  intros [Hlen _] Hi. unfold set2.
  now rewrite vget_vset_same, vset_vset, vset_vset by lia.
Qed.

Lemma get2_alloc2 {A : Type} (n m i j : Z) (u d : A) :
  0 <= i < n -> 0 <= j < m -> get2 (alloc2 n m u) i j d = u.
Proof.
  intros Hi Hj. unfold get2, alloc2. now rewrite !vget_repeat.
Qed.

(** Lists of the same length with the same cells are equal. *)
Lemma vget_ext {A : Type} (l1 l2 : list A) (n : Z) (d : A) :
  length l1 = Z.to_nat n -> length l2 = Z.to_nat n ->
  (forall i, 0 <= i < n -> vget l1 i d = vget l2 i d) -> l1 = l2.
Proof.
  intros H1 H2 H. apply (nth_ext l1 l2 d d); [congruence|].
  intros k Hk. specialize (H (Z.of_nat k)). unfold vget in H.
  destruct (Z.ltb_spec (Z.of_nat k) 0); [lia|].
  rewrite Nat2Z.id in H. apply H. lia.
Qed.

Lemma vset_vget_id {A : Type} (v : list A) (i : Z) (d : A) :
  0 <= i < Z.of_nat (length v) -> vset v i (vget v i d) = v.
Proof.
  intros Hi. apply (vget_ext _ _ (Z.of_nat (length v)) d).
  - rewrite vset_length. lia.
  - lia.
  - intros j Hj. destruct (Z.eq_dec i j) as [<-|Hij].
    + now rewrite vget_vset_same.
    + now rewrite vget_vset_other.
Qed.

Lemma map_const_range {A : Type} (x : A) (n : Z) :
  map (fun _ => x) (range n) = repeat x (Z.to_nat n).
Proof.
  unfold range. rewrite map_map.
  induction (seq 0 (Z.to_nat n)) as [|k l IH] eqn:E in n |- *.
  - apply (f_equal (@length nat)) in E. rewrite length_seq in E.
    cbn in E. now rewrite E.
  - clear IH. rewrite <- E. clear E.
    generalize 0%nat. induction (Z.to_nat n) as [|m IH]; intro st; simpl;
      [reflexivity | now rewrite IH].
Qed.

(** A loop whose iteration [k] overwrites cell [k] fills the vector. *)
Lemma for_loop_fill {A : Type} (n : Z) (body : Z -> list A -> list A)
  (f : Z -> A) (init : list A) (d : A) :
  length init = Z.to_nat n ->
  (forall k st, 0 <= k < n -> length st = Z.to_nat n ->
     (forall j, k <= j < n -> vget st j d = vget init j d) ->
     body k st = vset st k (f k)) ->
  for_loop n body init = map f (range n).
Proof.
  intros Hlen Hbody.
  destruct (Z.le_gt_cases n 0) as [Hn|Hn].
  - rewrite for_loop_nonpos, range_nonpos by assumption.
    destruct init; [reflexivity | cbn in Hlen; lia].
  - pose proof (for_loop_invariant
      (fun k st => length st = Z.to_nat n
                   /\ (forall j, 0 <= j < k -> vget st j d = f j)
                   /\ (forall j, k <= j < n -> vget st j d = vget init j d))
      n body init) as Inv.
    cbv beta in Inv. destruct Inv as (L & Hdone & _).
    + lia.
    + split; [assumption|]. split; [intros; lia | reflexivity].
    + intros k st Hk (L & Hdone & Hrest).
      rewrite (Hbody k st Hk L Hrest). split; [now rewrite vset_length|].
      split.
      * intros j Hj. destruct (Z.eq_dec k j) as [<-|Hkj].
        -- apply vget_vset_same. lia.
        -- rewrite vget_vset_other by assumption. apply Hdone. lia.
      * intros j Hj. rewrite vget_vset_other by lia. apply Hrest. lia.
    + apply (vget_ext _ _ n d); [assumption | |].
      * now rewrite length_map, range_length.
      * intros j Hj. rewrite vget_map_range by assumption. now apply Hdone.
Qed.

(** A loop whose iteration [k] overwrites cell [k] of row [i] fills the row
    and leaves the other rows as they are. *)
Lemma for_loop_fill_row {A : Type} (n i : Z)
  (body : Z -> array2 A -> array2 A) (f : Z -> A) (out : array2 A) (d : A) :
  0 <= i < Z.of_nat (length out) ->
  length (vget out i []) = Z.to_nat n ->
  (forall k row, 0 <= k < n -> length row = Z.to_nat n ->
     (forall j, k <= j < n -> vget row j d = vget (vget out i []) j d) ->
     body k (vset out i row) = vset out i (vset row k (f k))) ->
  for_loop n body out = vset out i (map f (range n)).
Proof.
  intros Hi Hlen Hbody.
  destruct (Z.le_gt_cases n 0) as [Hn|Hn].
  - rewrite for_loop_nonpos, range_nonpos by assumption. cbn [map].
    destruct (vget out i []) eqn:E; [|cbn in Hlen; lia].
    rewrite <- E. symmetry. now apply vset_vget_id.
  - assert (Inv : exists row,
              for_loop n body out = vset out i row
              /\ length row = Z.to_nat n
              /\ (forall j, 0 <= j < n -> vget row j d = f j)
              /\ (forall j, n <= j < n ->
                   vget row j d = vget (vget out i []) j d)).
    { apply (for_loop_invariant
        (fun k st => exists row, st = vset out i row
                     /\ length row = Z.to_nat n
                     /\ (forall j, 0 <= j < k -> vget row j d = f j)
                     /\ (forall j, k <= j < n ->
                          vget row j d = vget (vget out i []) j d))).
      - lia.
      - exists (vget out i []). split; [symmetry; now apply vset_vget_id|].
        split; [assumption|]. split; [intros; lia | reflexivity].
      - intros k st Hk (row & -> & L & Hdone & Hrest).
        exists (vset row k (f k)). split; [now apply Hbody|].
        split; [now rewrite vset_length|]. split.
        + intros j Hj. destruct (Z.eq_dec k j) as [<-|Hkj].
          * apply vget_vset_same. lia.
          * rewrite vget_vset_other by assumption. apply Hdone. lia.
        + intros j Hj. rewrite vget_vset_other by lia. apply Hrest. lia. }
    destruct Inv as (row & E & L & Hdone & _). rewrite E.
    f_equal. apply (vget_ext _ _ n d); [assumption | |].
    + now rewrite length_map, range_length.
    + intros j Hj. rewrite vget_map_range by assumption. now apply Hdone.
Qed.

(** Writing a cell of the row that was just stored. *)
Lemma set2_vset {A : Type} (a : array2 A) (i j : Z) (row : list A) (x : A) :
  0 <= i < Z.of_nat (length a) ->
  set2 (vset a i row) i j x = vset a i (vset row j x).
Proof.
  intros Hi. unfold set2. now rewrite vget_vset_same, vset_vset.
Qed.

End Array2Facts.

(* ================================================================== *)
(** ** crown_integration.cpp: what the geometry pass stores per pixel *)
(* ================================================================== *)

Module GeometryFacts.
Import Cxx CxxFacts Array2Facts CrownIntegration RealFacts.

Section Pass.
Variables (nQY nQX nPhiBins : Z) (QRange : R * R) (qCallibration : R).

(** One iteration writes the cell of its pixel and no other. *)
Lemma geometry_body_cell (g : geometry) (y x : Z) :
  geometry_rect g nQY nQX -> 0 <= y < nQY -> 0 <= x < nQX ->
  geometry_body nPhiBins QRange qCallibration (beamCenter nQY) (beamCenter nQX)
                y x g
  = {| pixelsPhi := set2 (pixelsPhi g) y x (cell_Phi nQY nQX y x);
       pixelsQ := set2 (pixelsQ g) y x (cell_Q nQY nQX qCallibration y x);
       validPixels := set2 (validPixels g) y x
                        (cell_valid nQY nQX QRange qCallibration y x);
       binIndicies :=
         if cell_valid nQY nQX QRange qCallibration y x
         then set2 (binIndicies g) y x (cell_bin nQY nQX nPhiBins y x)
         else binIndicies g |}.
Proof.
  intros (HP & HQ & HV & HB) Hy Hx.
  destruct g as [P Q V B]. cbn [pixelsPhi pixelsQ validPixels binIndicies] in *.
  unfold cell_valid, cell_bin, cell_Phi, cell_Q.
  unfold geometry_body, set_pixelsQ, set_pixelsPhi, set_validPixels,
    set_binIndicies.
  cbv zeta. cbn [pixelsPhi pixelsQ validPixels binIndicies].
  rewrite (get2_set2_same P nQY nQX) by assumption.
  destruct (Rltb _ 0); cbn [pixelsPhi pixelsQ validPixels binIndicies].
  - rewrite (set2_set2 P nQY nQX) by assumption.
    rewrite (get2_set2_same Q nQY nQX) by assumption.
    rewrite (get2_set2_same V nQY nQX) by assumption.
    destruct (_ && _); cbn [pixelsPhi pixelsQ validPixels binIndicies];
      [|reflexivity].
    rewrite (get2_set2_same P nQY nQX) by assumption.
    rewrite (get2_set2_same B nQY nQX) by assumption.
    rewrite (set2_set2 B nQY nQX) by assumption.
    reflexivity.
  - rewrite (get2_set2_same Q nQY nQX) by assumption.
    rewrite (get2_set2_same V nQY nQX) by assumption.
    destruct (_ && _); cbn [pixelsPhi pixelsQ validPixels binIndicies];
      [|reflexivity].
    rewrite (get2_set2_same P nQY nQX) by assumption.
    rewrite (get2_set2_same B nQY nQX) by assumption.
    rewrite (set2_set2 B nQY nQX) by assumption.
    reflexivity.
Qed.

Lemma geometry_body_rect (g : geometry) (y x : Z) :
  geometry_rect g nQY nQX -> 0 <= y < nQY -> 0 <= x < nQX ->
  geometry_rect
    (geometry_body nPhiBins QRange qCallibration (beamCenter nQY)
                   (beamCenter nQX) y x g) nQY nQX.
Proof.
  intros Hg Hy Hx. rewrite geometry_body_cell by assumption.
  destruct Hg as (HP & HQ & HV & HB). unfold geometry_rect.
  cbn [pixelsPhi pixelsQ validPixels binIndicies].
  split; [|split; [|split]]; try (apply rect_set2; assumption).
  destruct (cell_valid nQY nQX QRange qCallibration y x);
    [apply rect_set2; assumption | apply HB].
Qed.

(** Sweeping the loop body over in-frame pixels writes all their cells. *)
Lemma geometry_sweep (l : list (Z * Z)) (g : geometry) :
  geometry_rect g nQY nQX ->
  (forall c, In c l -> 0 <= fst c < nQY /\ 0 <= snd c < nQX) ->
  let g' := fold_left (fun st c =>
              geometry_body nPhiBins QRange qCallibration (beamCenter nQY)
                            (beamCenter nQX) (fst c) (snd c) st) l g in
  geometry_rect g' nQY nQX
  /\ cells_written g' nQY nQX nPhiBins QRange qCallibration l.
Proof.
  intros Hg. induction l as [|c l IH] using rev_ind; intros Hin; cbv zeta.
  - split; [exact Hg|]. intros y x [].
  - rewrite fold_left_app. cbn [fold_left].
    destruct IH as [Hr Hw].
    { intros c' Hc'. apply Hin, in_or_app. now left. }
    destruct (Hin c) as [Hy Hx]; [apply in_or_app; right; now left|].
    split; [now apply geometry_body_rect|].
    intros y x Hyx. rewrite geometry_body_cell by assumption.
    cbn [pixelsPhi pixelsQ validPixels binIndicies].
    destruct Hr as (HP & HQ & HV & HB).
    destruct (prod_eq_dec_Z (fst c, snd c) (y, x)) as [E|Hne].
    + inversion E; subst y x.
      rewrite !(get2_set2_same _ nQY nQX) by assumption.
      repeat split. intros ->. now rewrite (get2_set2_same _ nQY nQX).
    + assert (Hl : In (y, x) l).
      { apply in_app_or in Hyx. destruct Hyx as [|[E|[]]]; [assumption|].
        exfalso. apply Hne. now rewrite E. }
      destruct (Hw y x Hl) as (W1 & W2 & W3 & W4).
      rewrite !(get2_set2_other _ nQY nQX) by assumption.
      repeat split; try assumption.
      intros Hv. destruct (cell_valid nQY nQX QRange qCallibration (fst c) (snd c)).
      * rewrite (get2_set2_other _ nQY nQX) by assumption. now apply W4.
      * now apply W4.
Qed.

(** After the geometry pass every pixel of the frame holds its values. *)
Lemma geometry_pass_cells (u : fresh) (y x : Z) :
  0 <= y < nQY -> 0 <= x < nQX ->
  let g := geometry_pass u nQY nQX nPhiBins QRange qCallibration in
  get2 (pixelsPhi g) y x 0%R = cell_Phi nQY nQX y x
  /\ get2 (pixelsQ g) y x 0%R = cell_Q nQY nQX qCallibration y x
  /\ get2 (validPixels g) y x false
     = cell_valid nQY nQX QRange qCallibration y x
  /\ (cell_valid nQY nQX QRange qCallibration y x = true ->
      get2 (binIndicies g) y x 0 = cell_bin nQY nQX nPhiBins y x).
Proof.
  intros Hy Hx g. subst g. unfold geometry_pass.
  rewrite (for_loop_coords nQY nQX
    (fun iQY iQX st => geometry_body nPhiBins QRange qCallibration
                         (beamCenter nQY) (beamCenter nQX) iQY iQX st)).
  match goal with
  | |- context [fold_left _ _ ?g0] =>
      destruct (geometry_sweep (coords nQY nQX) g0) as [_ Hw]
  end.
  - split; [|split; [|split]]; apply rect_alloc2.
  - intros [y' x'] Hc. now apply coords_In in Hc.
  - apply Hw. now apply coords_In.
Qed.

End Pass.

End GeometryFacts.

(* ================================================================== *)
(** ** crown_integration.cpp: what the binary64 geometry pass stores *)
(* ================================================================== *)

Module Geometry64Facts.
Import Cxx CxxFacts Array2Facts CrownIntegration CrownIntegration64 RealFacts.

Section Pass.
Variable libm_atan2 : PrimFloat.float -> PrimFloat.float -> PrimFloat.float.
Variables (nQY nQX nPhiBins : Z) (QRange : PrimFloat.float * PrimFloat.float)
          (qCallibration : PrimFloat.float).

(** One iteration writes the cell of its pixel and no other. *)
Lemma geometry_body64_cell (g : geometry64) (y x : Z) :
  geometry_rect64 g nQY nQX -> 0 <= y < nQY -> 0 <= x < nQX ->
  geometry_body64 libm_atan2 nPhiBins QRange qCallibration
                  (beamCenter nQY) (beamCenter nQX) y x g
  = {| pixelsPhi64 := set2 (pixelsPhi64 g) y x
                           (cell_Phi64 libm_atan2 nQY nQX y x);
       pixelsQ64 := set2 (pixelsQ64 g) y x
                         (cell_Q64 nQY nQX qCallibration y x);
       validPixels64 := set2 (validPixels64 g) y x
                          (cell_valid64 nQY nQX QRange qCallibration y x);
       binIndicies64 :=
         if cell_valid64 nQY nQX QRange qCallibration y x
         then set2 (binIndicies64 g) y x
                   (bin_of_angle64 (cell_Phi64 libm_atan2 nQY nQX y x)
                                   nPhiBins)
         else binIndicies64 g |}.
Proof.
  intros (HP & HQ & HV & HB) Hy Hx.
  destruct g as [P Q V B].
  cbn [pixelsPhi64 pixelsQ64 validPixels64 binIndicies64] in *.
  unfold cell_valid64, bin_of_angle64, cell_Phi64, cell_Q64.
  unfold geometry_body64, set_pixelsQ64, set_pixelsPhi64, set_validPixels64,
    set_binIndicies64.
  cbv zeta. cbn [pixelsPhi64 pixelsQ64 validPixels64 binIndicies64].
  rewrite (get2_set2_same P nQY nQX) by assumption.
  destruct (PrimFloat.ltb _ PrimFloat.zero);
    cbn [pixelsPhi64 pixelsQ64 validPixels64 binIndicies64].
  - rewrite (set2_set2 P nQY nQX) by assumption.
    rewrite (get2_set2_same Q nQY nQX) by assumption.
    rewrite (get2_set2_same V nQY nQX) by assumption.
    destruct (_ && _);
      cbn [pixelsPhi64 pixelsQ64 validPixels64 binIndicies64];
      [|reflexivity].
    rewrite (get2_set2_same P nQY nQX) by assumption.
    rewrite (get2_set2_same B nQY nQX) by assumption.
    rewrite (set2_set2 B nQY nQX) by assumption.
    reflexivity.
  - rewrite (get2_set2_same Q nQY nQX) by assumption.
    rewrite (get2_set2_same V nQY nQX) by assumption.
    destruct (_ && _);
      cbn [pixelsPhi64 pixelsQ64 validPixels64 binIndicies64];
      [|reflexivity].
    rewrite (get2_set2_same P nQY nQX) by assumption.
    rewrite (get2_set2_same B nQY nQX) by assumption.
    rewrite (set2_set2 B nQY nQX) by assumption.
    reflexivity.
Qed.

Lemma geometry_body64_rect (g : geometry64) (y x : Z) :
  geometry_rect64 g nQY nQX -> 0 <= y < nQY -> 0 <= x < nQX ->
  geometry_rect64
    (geometry_body64 libm_atan2 nPhiBins QRange qCallibration
                     (beamCenter nQY) (beamCenter nQX) y x g) nQY nQX.
Proof.
  intros Hg Hy Hx. rewrite geometry_body64_cell by assumption.
  destruct Hg as (HP & HQ & HV & HB). unfold geometry_rect64.
  cbn [pixelsPhi64 pixelsQ64 validPixels64 binIndicies64].
  split; [|split; [|split]]; try (apply rect_set2; assumption).
  destruct (cell_valid64 nQY nQX QRange qCallibration y x);
    [apply rect_set2; assumption | apply HB].
Qed.

(** Sweeping the loop body over in-frame pixels writes all their cells. *)
Lemma geometry64_sweep (l : list (Z * Z)) (g : geometry64) :
  geometry_rect64 g nQY nQX ->
  (forall c, In c l -> 0 <= fst c < nQY /\ 0 <= snd c < nQX) ->
  let g' := fold_left (fun st c =>
              geometry_body64 libm_atan2 nPhiBins QRange qCallibration
                (beamCenter nQY) (beamCenter nQX) (fst c) (snd c) st) l g in
  geometry_rect64 g' nQY nQX
  /\ forall y x, In (y, x) l ->
       get2 (pixelsPhi64 g') y x PrimFloat.zero
       = cell_Phi64 libm_atan2 nQY nQX y x
       /\ get2 (pixelsQ64 g') y x PrimFloat.zero
          = cell_Q64 nQY nQX qCallibration y x
       /\ get2 (validPixels64 g') y x false
          = cell_valid64 nQY nQX QRange qCallibration y x
       /\ (cell_valid64 nQY nQX QRange qCallibration y x = true ->
           get2 (binIndicies64 g') y x 0
           = bin_of_angle64 (cell_Phi64 libm_atan2 nQY nQX y x) nPhiBins).
Proof.
  intros Hg. induction l as [|c l IH] using rev_ind; intros Hin; cbv zeta.
  - split; [exact Hg|]. intros y x [].
  - rewrite fold_left_app. cbn [fold_left].
    destruct IH as [Hr Hw].
    { intros c' Hc'. apply Hin, in_or_app. now left. }
    destruct (Hin c) as [Hy Hx]; [apply in_or_app; right; now left|].
    split; [now apply geometry_body64_rect|].
    intros y x Hyx. rewrite geometry_body64_cell by assumption.
    cbn [pixelsPhi64 pixelsQ64 validPixels64 binIndicies64].
    destruct Hr as (HP & HQ & HV & HB).
    destruct (prod_eq_dec_Z (fst c, snd c) (y, x)) as [E|Hne].
    + inversion E; subst y x.
      rewrite !(get2_set2_same _ nQY nQX) by assumption.
      repeat split. intros ->. now rewrite (get2_set2_same _ nQY nQX).
    + assert (Hl : In (y, x) l).
      { apply in_app_or in Hyx. destruct Hyx as [|[E|[]]]; [assumption|].
        exfalso. apply Hne. now rewrite E. }
      destruct (Hw y x Hl) as (W1 & W2 & W3 & W4).
      rewrite !(get2_set2_other _ nQY nQX) by assumption.
      repeat split; try assumption.
      intros Hv.
      destruct (cell_valid64 nQY nQX QRange qCallibration (fst c) (snd c)).
      * rewrite (get2_set2_other _ nQY nQX) by assumption. now apply W4.
      * now apply W4.
Qed.

(** After the geometry pass every pixel of the frame holds its values. *)
Lemma geometry_pass64_cells (u : fresh64) (y x : Z) :
  0 <= y < nQY -> 0 <= x < nQX ->
  let g := geometry_pass64 libm_atan2 u nQY nQX nPhiBins QRange
                           qCallibration in
  get2 (pixelsPhi64 g) y x PrimFloat.zero = cell_Phi64 libm_atan2 nQY nQX y x
  /\ get2 (pixelsQ64 g) y x PrimFloat.zero
     = cell_Q64 nQY nQX qCallibration y x
  /\ get2 (validPixels64 g) y x false
     = cell_valid64 nQY nQX QRange qCallibration y x
  /\ (cell_valid64 nQY nQX QRange qCallibration y x = true ->
      get2 (binIndicies64 g) y x 0
      = bin_of_angle64 (cell_Phi64 libm_atan2 nQY nQX y x) nPhiBins).
Proof.
  intros Hy Hx g. subst g. unfold geometry_pass64.
  rewrite (for_loop_coords nQY nQX
    (fun iQY iQX st => geometry_body64 libm_atan2 nPhiBins QRange
                         qCallibration (beamCenter nQY) (beamCenter nQX)
                         iQY iQX st)).
  match goal with
  | |- context [fold_left _ _ ?g0] =>
      destruct (geometry64_sweep (coords nQY nQX) g0) as [_ Hw]
  end.
  - split; [|split; [|split]]; apply rect_alloc2.
  - intros [y' x'] Hc. now apply coords_In in Hc.
  - apply Hw. now apply coords_In.
Qed.

End Pass.

End Geometry64Facts.

(* ================================================================== *)
(** ** crown_integration.cpp: the geometry of a pixel *)
(* ================================================================== *)

Module GeometryValues.
Import Cxx CxxFacts Array2Facts CrownIntegration RealFacts GeometryFacts.

(** For a detector of fewer than 65536 rows and columns, no [int] of the
    geometry pass wraps around. *)
Lemma beamCenter_small (n : Z) : 0 <= n < 65536 -> beamCenter n = Z.quot n 2.
Proof.
  intros Hn. unfold beamCenter. apply to_int_small. unfold is_int.
  rewrite Z.quot_div_nonneg by lia.
  pose proof (Z.div_pos n 2). pose proof (Z.div_le_upper_bound n 2 n). lia.
Qed.

Lemma offset_small (n k : Z) :
  0 <= k < n -> n < 65536 ->
  to_int (k - beamCenter n) = k - Z.quot n 2
  /\ - 32767 <= k - Z.quot n 2 <= 65535.
Proof.
  intros Hk Hn. rewrite beamCenter_small by lia.
  rewrite Z.quot_div_nonneg by lia.
  assert (0 <= n / 2 <= 32767).
  { split; [apply Z.div_pos; lia|].
    apply Z.lt_succ_r. apply Z.div_lt_upper_bound; lia. }
  split; [|lia]. apply to_int_small. unfold is_int. lia.
Qed.

Lemma cell_Phi_angleDeg (nQY nQX y x : Z) :
  cell_Phi nQY nQX y x
  = angleDeg (to_int (y - beamCenter nQY)) (to_int (x - beamCenter nQX)).
Proof.
  unfold cell_Phi, angleDeg, Rltb. cbv zeta.
  destruct (Rlt_dec _ 0); reflexivity.
Qed.

Lemma cell_Phi_bounds (nQY nQX y x : Z) :
  (0 <= cell_Phi nQY nQX y x < 360)%R.
Proof. rewrite cell_Phi_angleDeg. apply angleDeg_bounds. Qed.

Lemma cell_Phi_small (nQY nQX y x : Z) :
  0 <= y < nQY -> nQY < 65536 -> 0 <= x < nQX -> nQX < 65536 ->
  cell_Phi nQY nQX y x = angleDeg (y - Z.quot nQY 2) (x - Z.quot nQX 2).
Proof.
  intros Hy HnY Hx HnX. rewrite cell_Phi_angleDeg.
  destruct (offset_small nQY y Hy HnY) as [-> _].
  destruct (offset_small nQX x Hx HnX) as [-> _]. reflexivity.
Qed.

Lemma cell_Q_small (nQY nQX : Z) (q : R) (y x : Z) :
  0 <= y < nQY -> nQY < 65536 -> 0 <= x < nQX -> nQX < 65536 ->
  cell_Q nQY nQX q y x = radius (y - Z.quot nQY 2) (x - Z.quot nQX 2) q.
Proof.
  intros Hy HnY Hx HnX. unfold cell_Q, radius. cbv zeta.
  destruct (offset_small nQY y Hy HnY) as [-> By].
  destruct (offset_small nQX x Hx HnX) as [-> Bx].
  rewrite to_int_small; [reflexivity|]. unfold is_int.
  set (dy := y - Z.quot nQY 2) in *. set (dx := x - Z.quot nQX 2) in *.
  assert (0 <= dy * dy <= 65535 * 65535) by nia.
  assert (0 <= dx * dx <= 65535 * 65535) by nia.
  assert (dy * dy + dx * dx <= 2147483647); [|lia].
  assert (Hy' : - 32767 <= dy <= 32767).
  { unfold dy. rewrite Z.quot_div_nonneg by lia.
    pose proof (Z.mul_div_le nQY 2). pose proof (Z.mod_pos_bound nQY 2).
    pose proof (Z.div_mod nQY 2). lia. }
  assert (Hx' : - 32767 <= dx <= 32767).
  { unfold dx. rewrite Z.quot_div_nonneg by lia.
    pose proof (Z.mul_div_le nQX 2). pose proof (Z.mod_pos_bound nQX 2).
    pose proof (Z.div_mod nQX 2). lia. }
  nia.
Qed.

(** The bin of a valid pixel, for a positive number of bins. *)
Lemma cell_bin_floor (nQY nQX nPhiBins y x : Z) :
  0 < nPhiBins <= 2147483647 ->
  let q := (cell_Phi nQY nQX y x / (360 / IZR nPhiBins))%R in
  cell_bin nQY nQX nPhiBins y x = Int_part q
  /\ 0 <= Int_part q <= nPhiBins - 1.
Proof.
  intros Hn q. pose proof (cell_Phi_bounds nQY nQX y x) as Hb.
  assert (Hn' : (0 < IZR nPhiBins)%R) by (apply IZR_lt; lia).
  assert (Hq : (0 <= q < IZR nPhiBins)%R).
  { unfold q.
    replace (cell_Phi nQY nQX y x / (360 / IZR nPhiBins))%R
      with (cell_Phi nQY nQX y x * IZR nPhiBins / 360)%R
      by (field; lra).
    split.
    - apply Rmult_le_pos; [|lra]. apply Rmult_le_pos; lra.
    - apply Rmult_lt_reg_r with (r := 360%R); [lra|].
      replace (cell_Phi nQY nQX y x * IZR nPhiBins / 360 * 360)%R
        with (cell_Phi nQY nQX y x * IZR nPhiBins)%R by (field; lra).
      rewrite (Rmult_comm (IZR nPhiBins) 360).
      apply Rmult_lt_compat_r; lra. }
  pose proof (Int_part_bounds q nPhiBins Hq) as Hi.
  split; [|exact Hi].
  unfold cell_bin, int_of_double. fold q.
  rewrite trunc_nonneg by lra.
  rewrite !to_int_small by (unfold is_int; lia).
  apply clamp_inside. lia.
Qed.

End GeometryValues.

(* ================================================================== *)
(** ** crown_integration.cpp: the properties of the polar geometry *)
(* ================================================================== *)

Module GeometrySpec.
Import Cxx Numpy Examples CxxFacts Array2Facts CrownIntegration RealFacts
       GeometryFacts GeometryValues CrownIntegration64 Geometry64Facts.

Lemma valid_iff (u : fresh) (nQY nQX nPhiBins : Z) (QRange : R * R) (q : R)
  (y x : Z) :
  0 <= y < nQY -> 0 <= x < nQX ->
  get2 (validPixels (geometry_pass u nQY nQX nPhiBins QRange q)) y x false = true
  <-> (fst QRange <= cell_Q nQY nQX q y x <= snd QRange)%R.
Proof.
  intros Hy Hx.
  destruct (geometry_pass_cells nQY nQX nPhiBins QRange q u y x Hy Hx)
    as (_ & _ & -> & _).
  unfold cell_valid, Rgeb, Rleb.
  destruct (Rge_dec _ _), (Rle_dec _ _); cbn [andb]; split;
    try discriminate; try reflexivity; intros; lra.
Qed.

(** C7, as stated, fails: the bin is computed in binary64.  In a frame of
    3 rows and 1 column with 140 bins the pixel above the beam center is
    valid and its stored angle is exactly 270.0, the boundary
    [105 * (360 / 140)]; [360.0 / 140] is rounded up, the quotient is
    104.99999999999999, and the pixel goes to bin 104, not to bin
    [floor(270 / (360 / 140)) = 105]. *)
Lemma boundary_angle_goes_to_bin_below :
  get2 (validPixels64
          (geometry_pass64 axes_only some_fresh64 3 1 140
             (PrimFloat.zero, float_of_Z 10) PrimFloat.one)) 0 0 false = true
  /\ get2 (pixelsPhi64
             (geometry_pass64 axes_only some_fresh64 3 1 140
                (PrimFloat.zero, float_of_Z 10) PrimFloat.one))
          0 0 PrimFloat.zero = float_of_Z 270
  /\ get2 (binIndicies64
             (geometry_pass64 axes_only some_fresh64 3 1 140
                (PrimFloat.zero, float_of_Z 10) PrimFloat.one)) 0 0 0 = 104
  /\ 270 * 140 = 105 * 360.
Proof.
  split; [vm_compute; reflexivity|]. split; [vm_compute; reflexivity|].
  split; [vm_compute; reflexivity | reflexivity].
Qed.

(** C7, amended.  In binary64, for any [atan2] of the platform, a positive
    number of bins and every valid pixel of the frame: the stored bin index
    is [clamp(t, 0, nPhiBins - 1)], where [t] is the integer part of the
    binary64 quotient [angle / (360.0 / nPhiBins)] of the stored angle; it
    lies in [[0, nPhiBins - 1]]; it is [t] itself when [t] is in that range
    and [nPhiBins - 1] when the quotient reaches [nPhiBins] (with 19 bins
    the largest double below 360 has the quotient 19.0 and goes to bin 18);
    with 4 bins the angle 90.0 goes to bin 1. *)
Theorem bin_index_is_clamped_quotient
  (libm_atan2 : PrimFloat.float -> PrimFloat.float -> PrimFloat.float)
  (u : fresh64) (nQY nQX nPhiBins : Z)
  (QRange : PrimFloat.float * PrimFloat.float) (qCallibration : PrimFloat.float)
  (y x : Z) :
  0 < nPhiBins <= 2147483647 ->
  0 <= y < nQY -> 0 <= x < nQX ->
  let g := geometry_pass64 libm_atan2 u nQY nQX nPhiBins QRange
                           qCallibration in
  get2 (validPixels64 g) y x false = true ->
  let angle := get2 (pixelsPhi64 g) y x PrimFloat.zero in
  let width := PrimFloat.div (float_of_Z 360) (float_of_Z nPhiBins) in
  let t := int_of_double64 (PrimFloat.div angle width) in
  let bin := get2 (binIndicies64 g) y x 0 in
  bin = clamp t 0 (nPhiBins - 1)
  /\ 0 <= bin <= nPhiBins - 1
  /\ (0 <= t <= nPhiBins - 1 -> bin = t)
  /\ (nPhiBins <= t -> bin = nPhiBins - 1)
  /\ (nPhiBins = 19 -> angle = PrimFloat.next_down (float_of_Z 360) ->
      t = 19 /\ bin = 18)
  /\ (nPhiBins = 4 -> angle = float_of_Z 90 -> bin = 1).
Proof.
  intros Hn Hy Hx g Hv angle width t bin.
  destruct (geometry_pass64_cells libm_atan2 nQY nQX nPhiBins QRange
              qCallibration u y x Hy Hx) as (EPhi & _ & EV & EB).
  fold g in EPhi, EV, EB. rewrite Hv in EV. symmetry in EV.
  specialize (EB EV).
  assert (Hbin : bin = clamp t 0 (nPhiBins - 1)).
  { unfold bin, t, angle, width. rewrite EB, EPhi. unfold bin_of_angle64.
    now rewrite to_int_small by (unfold is_int; lia). }
  split; [exact Hbin|].
  split; [rewrite Hbin; apply clamp_bounds; lia|].
  split; [intros Ht; rewrite Hbin; now apply clamp_inside|].
  split.
  { intros Ht. rewrite Hbin. unfold clamp.
    destruct (Z.ltb_spec t 0); [lia|].
    destruct (Z.ltb_spec (nPhiBins - 1) t); [reflexivity | lia]. }
  split.
  - intros E19 Ea.
    assert (Et : t = 19) by (unfold t, width; rewrite E19, Ea; reflexivity).
    split; [exact Et|]. rewrite Hbin, Et, E19. reflexivity.
  - intros E4 E90. rewrite Hbin. unfold t, width. rewrite E4, E90.
    reflexivity.
Qed.

Lemma bin_index_is_clamped_quotient_witness :
  (0 < 4 <= 2147483647 /\ 0 <= 2 < 3 /\ 0 <= 0 < 1
   /\ get2 (validPixels64
              (geometry_pass64 axes_only some_fresh64 3 1 4
                 (PrimFloat.zero, float_of_Z 10) PrimFloat.one)) 2 0 false
      = true)
  /\ get2 (binIndicies64
             (geometry_pass64 axes_only some_fresh64 3 1 4
                (PrimFloat.zero, float_of_Z 10) PrimFloat.one)) 2 0 0 = 1.
Proof.
  split; [repeat split; try lia; vm_compute; reflexivity|].
  destruct (bin_index_is_clamped_quotient axes_only some_fresh64 3 1 4
              (PrimFloat.zero, float_of_Z 10) PrimFloat.one 2 0)
    as (_ & _ & _ & _ & _ & H); try lia.
  - vm_compute. reflexivity.
  - apply H; [reflexivity | vm_compute; reflexivity].
Defined.

(** C8.  For a detector of fewer than 65536 rows and columns and every
    pixel [(y, x)] of the frame: the beam center is [(nQY / 2, nQX / 2)] by
    truncating division; the stored angle is
    [atan2(y - cy, x - cx) * 180 / PI], plus 360 when that is negative; it
    lies in [[0, 360)]; the pixels of the row of the beam center left of it
    have angle 180 (nothing is added); the stored radius is
    [sqrt((y-cy)^2 + (x-cx)^2) * qCalibration]; and for a 4x4 frame the beam
    center is (2, 2) and the pixel (2, 3) has radius [1 * qCalibration] and
    angle 0. *)
Theorem angle_and_radius_of_pixel
  (u : fresh) (nQY nQX nPhiBins : Z) (QRange : R * R) (qCallibration : R)
  (y x : Z) :
  0 <= y < nQY -> nQY < 65536 -> 0 <= x < nQX -> nQX < 65536 ->
  let g := geometry_pass u nQY nQX nPhiBins QRange qCallibration in
  let cy := Z.quot nQY 2 in
  let cx := Z.quot nQX 2 in
  let a := (atan2 (IZR (y - cy)) (IZR (x - cx)) * 180 / PI)%R in
  let angle := get2 (pixelsPhi g) y x 0%R in
  let rad := get2 (pixelsQ g) y x 0%R in
  (beamCenter nQY = cy /\ beamCenter nQX = cx)
  /\ angle = (if Rlt_dec a 0 then a + 360 else a)%R
  /\ (0 <= angle < 360)%R
  /\ (y = cy -> x < cx -> angle = 180%R)
  /\ rad = (sqrt (IZR ((y - cy) * (y - cy) + (x - cx) * (x - cx)))
            * qCallibration)%R
  /\ (nQY = 4 -> nQX = 4 ->
      cy = 2 /\ cx = 2
      /\ (y = 2 -> x = 3 -> rad = (1 * qCallibration)%R /\ angle = 0%R)).
Proof.
  intros Hy HnY Hx HnX g cy cx a angle rad.
  destruct (geometry_pass_cells nQY nQX nPhiBins QRange qCallibration u y x Hy Hx)
    as (EPhi & EQ & _ & _).
  fold g in EPhi, EQ.
  rewrite cell_Phi_small in EPhi by assumption.
  rewrite cell_Q_small in EQ by assumption.
  fold cy cx in EPhi, EQ. fold angle in EPhi. fold rad in EQ.
  assert (Eangle : angle = (if Rlt_dec a 0 then a + 360 else a)%R)
    by (rewrite EPhi; reflexivity).
  pose proof PI_RGT_0 as Hpi.
  split; [|split; [|split; [|split; [|split]]]].
  - split; apply beamCenter_small; lia.
  - exact Eangle.
  - rewrite EPhi. apply angleDeg_bounds.
  - intros Ey Ex. rewrite Eangle. unfold a.
    rewrite Ey, Z.sub_diag, atan2_0_neg by (apply IZR_lt; lia).
    replace (PI * 180 / PI)%R with 180%R by (field; lra).
    destruct (Rlt_dec 180 0); [lra | reflexivity].
  - rewrite EQ. reflexivity.
  - intros E4y E4x.
    assert (Ecy : cy = 2) by (unfold cy; now rewrite E4y).
    assert (Ecx : cx = 2) by (unfold cx; now rewrite E4x).
    split; [exact Ecy|]. split; [exact Ecx|].
    intros Ey Ex. split.
    + rewrite EQ. unfold radius. rewrite Ecy, Ecx, Ey, Ex.
      change (IZR ((2 - 2) * (2 - 2) + (3 - 2) * (3 - 2))) with 1%R.
      now rewrite sqrt_1.
    + rewrite Eangle. unfold a. rewrite Ecy, Ecx, Ey, Ex.
      change (IZR (2 - 2)) with 0%R. change (IZR (3 - 2)) with 1%R.
      rewrite atan2_0_pos by lra.
      replace (0 * 180 / PI)%R with 0%R by (field; lra).
      destruct (Rlt_dec 0 0); [lra | reflexivity].
Qed.

Lemma angle_and_radius_of_pixel_witness :
  (0 <= 2 < 4 /\ 4 < 65536 /\ 0 <= 3 < 4)
  /\ get2 (pixelsQ (geometry_pass some_fresh 4 4 4 (0%R, 10%R) 3%R)) 2 3 0%R
     = (1 * 3)%R
  /\ get2 (pixelsPhi (geometry_pass some_fresh 4 4 4 (0%R, 10%R) 3%R)) 2 3 0%R
     = 0%R.
Proof.
  split; [lia|].
  destruct (angle_and_radius_of_pixel some_fresh 4 4 4 (0%R, 10%R) 3%R 2 3)
    as (_ & _ & _ & _ & _ & H); try lia.
  destruct (H eq_refl eq_refl) as (_ & _ & H'). now apply H'.
Defined.

(** C9, as stated, fails: with a calibration factor of 0 every radius is 0;
    in a 1x2 frame with QRange = [0, 0] the beam center is (0, 1), and the
    pixel (0, 0), which is not the beam center, is valid. *)
Lemma zero_calibration_makes_every_pixel_valid :
  get2 (validPixels (geometry_pass some_fresh 1 2 4 (0%R, 0%R) 0%R)) 0 0 false
  = true
  /\ beamCenter 1 = 0 /\ beamCenter 2 = 1.
Proof.
  split; [|split; reflexivity].
  apply valid_iff; try lia.
  rewrite cell_Q_small by lia. unfold radius. cbn [fst snd]. lra.
Qed.

(** The precondition of the amended C9: with a calibration factor that is
    not finite the radius of the beam center is [sqrt(0) * q], a NaN, and
    no comparison with a NaN holds; in binary64 the only pixel of a 1x1
    frame is then not valid for QRange = [0, 0]. *)
Example center_not_valid_without_finite_calibration :
  get2 (validPixels64
          (geometry_pass64 axes_only some_fresh64 1 1 4
             (PrimFloat.zero, PrimFloat.zero) PrimFloat.infinity)) 0 0 true
  = false
  /\ get2 (validPixels64
             (geometry_pass64 axes_only some_fresh64 1 1 4
                (PrimFloat.zero, PrimFloat.zero) PrimFloat.neg_infinity))
          0 0 true
     = false
  /\ get2 (validPixels64
             (geometry_pass64 axes_only some_fresh64 1 1 4
                (PrimFloat.zero, PrimFloat.zero) PrimFloat.nan)) 0 0 true
     = false.
Proof. repeat split; vm_compute; reflexivity. Qed.

(** C9, amended.  For a detector of fewer than 65536 rows and columns, a
    finite calibration factor other than 0.0 and -0.0, and QRange = [0, 0],
    a pixel of the frame is valid if and only if it is the beam-center
    pixel; every other pixel is in the list of no bin, for any image
    stack.  (The radius is the real number [sqrt(dy^2 + dx^2) * q]: away
    from the beam center it is not 0, and no such product is rounded to
    0.) *)
Theorem only_beam_center_valid
  (u : fresh) (nQY nQX nPhiBins : Z) (qCallibration : PrimFloat.float)
  (y x : Z) :
  0 <= y < nQY -> nQY < 65536 -> 0 <= x < nQX -> nQX < 65536 ->
  PrimFloat.is_finite qCallibration = true ->
  PrimFloat.is_zero qCallibration = false ->
  let g := geometry_pass u nQY nQX nPhiBins (0%R, 0%R)
                         (R_of_double qCallibration) in
  (get2 (validPixels g) y x false = true
   <-> y = Z.quot nQY 2 /\ x = Z.quot nQX 2)
  /\ (forall (a : array_int16) (i b : Z),
        In (y, x) (bin_pixels g a nQY nQX i b) ->
        y = Z.quot nQY 2 /\ x = Z.quot nQX 2).
Proof.
  intros Hy HnY Hx HnX Hfin Hnz g.
  pose proof (R_of_double_nonzero qCallibration Hfin Hnz) as Hq.
  assert (Hv : get2 (validPixels g) y x false = true
               <-> y = Z.quot nQY 2 /\ x = Z.quot nQX 2).
  { unfold g. rewrite valid_iff by assumption.
    rewrite cell_Q_small by assumption. unfold radius. cbn [fst snd].
    set (dy := y - Z.quot nQY 2). set (dx := x - Z.quot nQX 2).
    assert (Hs : 0 <= dy * dy + dx * dx) by nia.
    split.
    - intros [Hlo Hhi].
      assert (E : (sqrt (IZR (dy * dy + dx * dx))
                   * R_of_double qCallibration = 0)%R) by lra.
      apply Rmult_integral in E. destruct E as [E|E]; [|contradiction].
      apply sqrt_eq_0 in E; [|apply IZR_le; lia].
      apply eq_IZR in E.
      assert (dy = 0 /\ dx = 0) by nia. unfold dy, dx in *. lia.
    - intros [Ey Ex].
      assert (E : dy * dy + dx * dx = 0) by (unfold dy, dx; nia).
      rewrite E, sqrt_0. lra. }
  split; [exact Hv|].
  intros a i b Hin. apply Hv. unfold bin_pixels in Hin.
  apply filter_In in Hin. destruct Hin as [_ Hin].
  unfold goes_to, contributes in Hin. cbn [fst snd] in Hin.
  apply andb_prop in Hin. destruct Hin as [Hin _].
  apply andb_prop in Hin. now destruct Hin.
Qed.

Lemma only_beam_center_valid_witness :
  (0 <= 2 < 4 /\ 4 < 65536 /\ PrimFloat.is_finite PrimFloat.one = true
   /\ PrimFloat.is_zero PrimFloat.one = false)
  /\ (get2 (validPixels (geometry_pass some_fresh 4 4 4 (0%R, 0%R)
                                       (R_of_double PrimFloat.one)))
           2 2 false = true
      <-> 2 = Z.quot 4 2 /\ 2 = Z.quot 4 2).
Proof.
  split; [repeat split; try lia; reflexivity|].
  apply (only_beam_center_valid some_fresh 4 4 4 PrimFloat.one 2 2);
    try lia; reflexivity.
Defined.

End GeometrySpec.

(* ================================================================== *)
(** ** crown_integration.cpp: the image stack pass *)
(* ================================================================== *)

Module StackFacts.
Import Cxx Numpy CxxFacts Array2Facts CrownIntegration RealFacts.

Lemma coords_length (nQY nQX : Z) :
  length (coords nQY nQX) = (Z.to_nat nQY * Z.to_nat nQX)%nat.
Proof.
  unfold coords. rewrite <- (range_length nQY).
  induction (range nQY) as [|y l IH]; simpl; [reflexivity|].
  now rewrite length_app, length_map, range_length, IH.
Qed.

Section AnyDouble.
Context {D : Type} {dbl : Double D}.
Variables (g : geometry) (a : array_int16) (nPhiBins i : Z).

Lemma dsum_snoc (l : list D) (x : D) : dsum (l ++ [x]) = d_add (dsum l) x.
Proof. unfold dsum. now rewrite fold_left_app. Qed.

(** One sweep of the pixel loops over a list of pixels whose bins are in
    range: every bin holds the sum and the count of its pixels. *)
Lemma accumulate_sweep (l : list (Z * Z)) :
  0 <= nPhiBins ->
  (forall c, In c l -> get2 (validPixels g) (fst c) (snd c) false = true ->
             0 <= get2 (binIndicies g) (fst c) (snd c) 0 < nPhiBins) ->
  Z.of_nat (length l) <= 2147483647 ->
  fold_left (fun acc c => accumulate_body g a i (fst c) (snd c) acc) l
            {| phiBinsSum := repeat (d_of_Z 0) (Z.to_nat nPhiBins);
               pixelCount := repeat 0 (Z.to_nat nPhiBins) |}
  = {| phiBinsSum :=
         map (fun b => dsum (map (fun c => d_of_Z (unchecked3 a i (fst c) (snd c)))
                                 (filter (goes_to g a i b) l)))
             (range nPhiBins);
       pixelCount :=
         map (fun b => Z.of_nat (length (filter (goes_to g a i b) l)))
             (range nPhiBins) |}.
Proof.
  intros Hn. induction l as [|c l IH] using rev_ind; intros Hbin Hlen.
  - cbn [fold_left filter map length Z.of_nat]. unfold dsum. cbn [fold_left].
    now rewrite !map_const_range.
  - rewrite fold_left_app. cbn [fold_left]. rewrite IH; clear IH.
    2:{ intros c' Hc'. apply Hbin, in_or_app. now left. }
    2:{ rewrite length_app in Hlen. lia. }
    unfold accumulate_body. cbn [phiBinsSum pixelCount].
    destruct (get2 (validPixels g) (fst c) (snd c) false) eqn:Ev; cbn [negb].
    2:{ assert (Hnot : forall b, goes_to g a i b c = false)
          by (intros b; unfold goes_to, contributes; now rewrite Ev).
        f_equal; apply map_ext; intros b; rewrite filter_app; cbn [filter];
          rewrite Hnot; now rewrite app_nil_r. }
    destruct (unchecked3 a i (fst c) (snd c) <? 0) eqn:Es.
    { assert (Hnot : forall b, goes_to g a i b c = false)
        by (intros b; unfold goes_to, contributes; now rewrite Ev, Es).
      f_equal; apply map_ext; intros b; rewrite filter_app; cbn [filter];
        rewrite Hnot; now rewrite app_nil_r. }
    assert (Hb : 0 <= get2 (binIndicies g) (fst c) (snd c) 0 < nPhiBins).
    { apply Hbin; [apply in_or_app; right; now left | exact Ev]. }
    set (b0 := get2 (binIndicies g) (fst c) (snd c) 0) in *.
    assert (Hthis : forall b, goes_to g a i b c = (b0 =? b)).
    { intros b. unfold goes_to, contributes. fold b0. now rewrite Ev, Es. }
    f_equal.
    + apply (vget_ext _ _ nPhiBins (d_of_Z 0)).
      * now rewrite vset_length, length_map, range_length.
      * now rewrite length_map, range_length.
      * intros b Hbr. rewrite (vget_map_range _ nPhiBins b) by assumption.
        rewrite filter_app. cbn [filter]. rewrite Hthis.
        destruct (Z.eqb_spec b0 b) as [<-|Hne].
        -- rewrite vget_vset_same
             by (rewrite length_map, range_length; lia).
           rewrite vget_map_range by assumption.
           rewrite map_app. cbn [map]. now rewrite dsum_snoc.
        -- rewrite vget_vset_other by assumption.
           rewrite vget_map_range by assumption. now rewrite app_nil_r.
    + apply (vget_ext _ _ nPhiBins 0).
      * now rewrite vset_length, length_map, range_length.
      * now rewrite length_map, range_length.
      * intros b Hbr. rewrite (vget_map_range _ nPhiBins b) by assumption.
        rewrite filter_app. cbn [filter]. rewrite Hthis.
        destruct (Z.eqb_spec b0 b) as [<-|Hne].
        -- rewrite vget_vset_same
             by (rewrite length_map, range_length; lia).
           rewrite vget_map_range by assumption.
           rewrite length_app. cbn [length].
           pose proof (filter_length_le (goes_to g a i b0) l).
           rewrite length_app in Hlen. cbn [length] in Hlen.
           rewrite to_int_small by (unfold is_int; lia). lia.
        -- rewrite vget_vset_other by assumption.
           rewrite vget_map_range by assumption. now rewrite app_nil_r.
Qed.

End AnyDouble.

Section Stack.
Context {D : Type} {dbl : Double D}.
Variables (u : fresh) (a : array_int16) (nQY nQX nPhiBins : Z)
          (QRange : R * R) (qCallibration : R).
Hypothesis bins_positive : 0 < nPhiBins <= 2147483647.
Hypothesis frame_fits : 0 <= nQY /\ 0 <= nQX /\ nQY * nQX <= 2147483647.

Let g := geometry_pass u nQY nQX nPhiBins QRange qCallibration.

(** The clamp keeps the bin of every valid pixel inside the vectors. *)
Lemma valid_bin_in_range (y x : Z) :
  0 <= y < nQY -> 0 <= x < nQX ->
  get2 (validPixels g) y x false = true ->
  0 <= get2 (binIndicies g) y x 0 < nPhiBins.
Proof.
  intros Hy Hx Hv.
  destruct (GeometryFacts.geometry_pass_cells nQY nQX nPhiBins QRange
              qCallibration u y x Hy Hx) as (_ & _ & EV & EB).
  fold g in EV, EB. rewrite Hv in EV. rewrite (EB (eq_sym EV)).
  unfold cell_bin.
  rewrite (to_int_small (nPhiBins - 1)) by (unfold is_int; lia).
  pose proof (clamp_bounds
    (int_of_double (cell_Phi nQY nQX y x / (360 / IZR nPhiBins)))
    nPhiBins). lia.
Qed.

Lemma accumulate_spec (i : Z) :
  accumulate g a nQY nQX nPhiBins i
  = {| phiBinsSum := map (bin_sum g a nQY nQX i) (range nPhiBins);
       pixelCount := map (bin_count g a nQY nQX i) (range nPhiBins) |}.
Proof.
  unfold accumulate.
  rewrite (for_loop_coords nQY nQX
             (fun iQY iQX acc => accumulate_body g a i iQY iQX acc)).
  rewrite accumulate_sweep.
  - reflexivity.
  - lia.
  - intros [y x] Hc Hv. apply coords_In in Hc. cbn [fst snd] in *.
    now apply valid_bin_in_range.
  - rewrite coords_length. nia.
Qed.

(** One iteration of the loop over the images turns a row of zeros into
    the row of the specification. *)
Lemma crown_image_body (i : Z) (out : array2 D) :
  0 <= i < Z.of_nat (length out) ->
  vget out i [] = repeat (d_of_Z 0) (Z.to_nat nPhiBins) ->
  image_body g a nQY nQX nPhiBins i out
  = vset out i (map (profile_of g a nQY nQX i) (range nPhiBins)).
Proof.
  intros Hi Hrow. unfold image_body. rewrite accumulate_spec.
  apply (for_loop_fill_row nPhiBins i _ _ out (d_of_Z 0)).
  - assumption.
  - now rewrite Hrow, repeat_length.
  - intros k row Hk Hlen Hrest. unfold average_body.
    cbn [phiBinsSum pixelCount].
    rewrite !vget_map_range by assumption. unfold profile_of.
    destruct (0 <? bin_count g a nQY nQX i k).
    + rewrite !set2_vset by assumption. now rewrite vset_vset.
    + assert (E : vget row k (d_of_Z 0) = d_of_Z 0).
      { rewrite Hrest by lia. rewrite Hrow. now apply vget_repeat. }
      f_equal. symmetry.
      transitivity (vset row k (vget row k (d_of_Z 0)));
        [now rewrite E | apply vset_vget_id; lia].
Qed.

(** Lines 101 to 105 leave an array of zeros. *)
Lemma zero_fill_spec (nImages : Z) (x : D) :
  zero_fill nImages nPhiBins (alloc2 nImages nPhiBins x)
  = repeat (repeat (d_of_Z 0) (Z.to_nat nPhiBins)) (Z.to_nat nImages).
Proof.
  unfold zero_fill. rewrite <- map_const_range.
  apply (for_loop_fill nImages _ _ _ []).
  - unfold alloc2. apply repeat_length.
  - intros k st Hk Hlen Hrest. rewrite <- map_const_range.
    apply (for_loop_fill_row nPhiBins k _ _ st x).
    + lia.
    + rewrite Hrest by lia. unfold alloc2.
      now rewrite vget_repeat, repeat_length.
    + intros j row Hj _ _. apply set2_vset. lia.
Qed.

Lemma crown_images_loop (nImages : Z) (x : D) :
  for_loop nImages (image_body g a nQY nQX nPhiBins)
           (zero_fill nImages nPhiBins (alloc2 nImages nPhiBins x))
  = map (fun i => map (profile_of g a nQY nQX i) (range nPhiBins))
        (range nImages).
Proof.
  rewrite zero_fill_spec.
  apply (for_loop_fill nImages _ _ _ []).
  - apply repeat_length.
  - intros k st Hk Hlen Hrest. apply crown_image_body; [lia|].
    rewrite Hrest by lia. now apply vget_repeat.
Qed.

End Stack.

End StackFacts.

(* ================================================================== *)
(** ** crown_integration.cpp: the properties of the integrator *)
(* ================================================================== *)

Module CrownSpec.
Import Cxx Numpy Examples CxxFacts Array2Facts CrownIntegration RealFacts
       GeometryFacts GeometryValues StackFacts.

Section AnyDouble.
Context {D : Type} {dbl : Double D}.

(** The whole call on a 3-dimensional stack. *)
Lemma compute_crown_integral_rows (u : fresh) (x : D) (a : array_int16)
  (nPhiBins : Z) (QRange : R * R) (qCallibration : R) :
  ndim a = 3 ->
  0 < nPhiBins <= 2147483647 ->
  0 <= nth 1 (shape a) 0 /\ 0 <= nth 2 (shape a) 0
  /\ nth 1 (shape a) 0 * nth 2 (shape a) 0 <= 2147483647 ->
  compute_crown_integral u x a nPhiBins QRange qCallibration
  = Ok (map (fun i =>
              map (profile_of
                     (geometry_pass u (nth 1 (shape a) 0) (nth 2 (shape a) 0)
                                    nPhiBins QRange qCallibration)
                     a (nth 1 (shape a) 0) (nth 2 (shape a) 0) i)
                  (range nPhiBins))
            (range (nth 0 (shape a) 0))).
Proof.
  intros Hd Hn Hf. unfold compute_crown_integral.
  rewrite Hd. cbn [Z.eqb Pos.eqb negb].
  destruct (Z.leb_spec nPhiBins 0); [lia|]. cbn [andb].
  destruct (Z.ltb_spec nPhiBins 0); [lia|].
  now rewrite crown_images_loop.
Qed.

Lemma bin_pixels_In (g : geometry) (a : array_int16) (nQY nQX i b y x : Z) :
  In (y, x) (bin_pixels g a nQY nQX i b)
  <-> (0 <= y < nQY /\ 0 <= x < nQX)
      /\ get2 (validPixels g) y x false = true
      /\ 0 <= unchecked3 a i y x
      /\ get2 (binIndicies g) y x 0 = b.
Proof.
  unfold bin_pixels, goes_to, contributes.
  rewrite filter_In, coords_In. cbn [fst snd].
  rewrite !andb_true_iff, negb_true_iff, Z.ltb_ge, Z.eqb_eq. tauto.
Qed.

Lemma contributing_In (g : geometry) (a : array_int16) (nQY nQX i y x : Z) :
  In (y, x) (contributing g a nQY nQX i)
  <-> (0 <= y < nQY /\ 0 <= x < nQX)
      /\ get2 (validPixels g) y x false = true
      /\ 0 <= unchecked3 a i y x.
Proof.
  unfold contributing, contributes.
  rewrite filter_In, coords_In. cbn [fst snd].
  rewrite !andb_true_iff, negb_true_iff, Z.ltb_ge. tauto.
Qed.

End AnyDouble.

(** C1.  For a 3-dimensional stack, a positive number of bins and a frame
    of at most 2^31 - 1 pixels, for any double arithmetic: the call returns
    one row of [nPhiBins] values per image.  For image [i] the two
    accumulator vectors start from zero and are filled from image [i]
    alone: after the sweep, bin [b] of [phiBinsSum] is the left-to-right sum
    from 0.0 of the samples of the pixels that are valid, not negative and
    of bin index [b] (in row-major order), and bin [b] of [pixelCount] is
    their number; the output is [sum / count] for a bin with [count > 0] and
    0.0 for a bin with [count == 0]; and the counts of all bins add up to the
    number of pixels that are valid and whose sample is not negative. *)
Theorem crown_integral_per_image
  {D : Type} {dbl : Double D} (u : fresh) (x0 : D) (a : array_int16)
  (nPhiBins : Z) (QRange : R * R) (qCallibration : R) :
  ndim a = 3 ->
  0 < nPhiBins <= 2147483647 ->
  let nImages := nth 0 (shape a) 0 in
  let nQY := nth 1 (shape a) 0 in
  let nQX := nth 2 (shape a) 0 in
  0 <= nQY /\ 0 <= nQX /\ nQY * nQX <= 2147483647 ->
  let g := geometry_pass u nQY nQX nPhiBins QRange qCallibration in
  exists out : array2 D,
    compute_crown_integral u x0 a nPhiBins QRange qCallibration = Ok out
    /\ length out = Z.to_nat nImages
    /\ forall i, 0 <= i < nImages ->
       let acc := accumulate g a nQY nQX nPhiBins i in
       length (vget out i []) = Z.to_nat nPhiBins
       /\ (forall b, 0 <= b < nPhiBins ->
           let pixels := bin_pixels g a nQY nQX i b in
           let count := vget (pixelCount acc) b 0 in
           let sum := vget (phiBinsSum acc) b (d_of_Z 0) in
           NoDup pixels
           /\ (forall y x, In (y, x) pixels <->
                 (0 <= y < nQY /\ 0 <= x < nQX)
                 /\ get2 (validPixels g) y x false = true
                 /\ 0 <= unchecked3 a i y x
                 /\ get2 (binIndicies g) y x 0 = b)
           /\ sum = dsum (map (fun c => d_of_Z (unchecked3 a i (fst c) (snd c)))
                              pixels)
           /\ count = Z.of_nat (length pixels)
           /\ vget (vget out i []) b (d_of_Z 0)
              = if 0 <? count then d_div sum (d_of_Z count) else d_of_Z 0)
       /\ (forall y x, In (y, x) (contributing g a nQY nQX i) <->
             (0 <= y < nQY /\ 0 <= x < nQX)
             /\ get2 (validPixels g) y x false = true
             /\ 0 <= unchecked3 a i y x)
       /\ Zsum (pixelCount acc) = Z.of_nat (length (contributing g a nQY nQX i)).
Proof.
  intros Hd Hn nImages nQY nQX Hf g.
  eexists. split; [now apply compute_crown_integral_rows|].
  split; [now rewrite length_map, range_length|].
  intros i Hi acc. rewrite vget_map_range by assumption.
  assert (Eacc : acc = {| phiBinsSum := map (bin_sum g a nQY nQX i) (range nPhiBins);
                          pixelCount := map (bin_count g a nQY nQX i) (range nPhiBins) |})
    by (apply accumulate_spec; assumption).
  rewrite Eacc. cbn [phiBinsSum pixelCount].
  split; [now rewrite length_map, range_length|].
  split; [|split].
  - intros b Hb. cbv zeta.
    rewrite !vget_map_range by assumption.
    split; [apply NoDup_filter, coords_NoDup|].
    split; [intros y x; apply bin_pixels_In|].
    repeat split.
  - intros y x. apply contributing_In.
  - apply (binned_count (contributes g a i)
             (fun c => get2 (binIndicies g) (fst c) (snd c) 0)).
    intros [y x] Hc Hsel. apply coords_In in Hc. unfold contributes in Hsel.
    cbn [fst snd] in *. apply andb_prop in Hsel.
    apply (valid_bin_in_range u nQY nQX nPhiBins QRange qCallibration Hn);
      tauto.
Qed.

Lemma crown_integral_per_image_witness :
  (ndim strided_stack = 3 /\ 0 < 4 <= 2147483647
   /\ 0 <= 1 /\ 0 <= 2 /\ 1 * 2 <= 2147483647)
  /\ exists out : array2 PrimFloat.float,
       compute_crown_integral some_fresh PrimFloat.one
                              strided_stack 4 (0%R, 1%R) 1%R = Ok out
       /\ length out = 1%nat.
Proof.
  split; [repeat split; try reflexivity; lia|].
  destruct (crown_integral_per_image some_fresh PrimFloat.one
              strided_stack 4 (0%R, 1%R) 1%R) as (out & E & L & _);
    try reflexivity; try (cbn; lia).
  exists out. split; [exact E | exact L].
Defined.






(** Every bin of an image without a valid pixel is 0.0. *)
Lemma profile_without_valid_pixel {D : Type} {dbl : Double D}
  (g : geometry) (a : array_int16) (nQY nQX i b : Z) :
  (forall y x, 0 <= y < nQY -> 0 <= x < nQX ->
               get2 (validPixels g) y x false = false) ->
  profile_of g a nQY nQX i b = d_of_Z 0.
Proof.
  intros Hnone. unfold profile_of, bin_count.
  assert (E : bin_pixels g a nQY nQX i b = []).
  { destruct (bin_pixels g a nQY nQX i b) as [|[y x] l] eqn:Ep;
      [reflexivity|].
    assert (Hin : In (y, x) (bin_pixels g a nQY nQX i b))
      by (rewrite Ep; now left).
    apply bin_pixels_In in Hin. destruct Hin as ([Hy Hx] & Hv & _).
    rewrite Hnone in Hv by assumption. discriminate. }
  rewrite E. reflexivity.
Qed.

(** C5, amended.  [compute_crown_integral] validates neither [nPhiBins] nor
    the radial range and never raises a ConfigurationError.  For a
    3-dimensional stack, a positive number of bins and [qMin > qMax], no
    pixel of the frame is valid and the call returns the complete profile,
    [nImages] rows of [nPhiBins] zeros. *)
Theorem crown_does_not_validate_configuration
  {D : Type} {dbl : Double D} (u : fresh) (x0 : D) (a : array_int16)
  (nPhiBins : Z) (QRange : R * R) (qCallibration : R) :
  compute_crown_integral u x0 a nPhiBins QRange qCallibration
  <> Throw ConfigurationError
  /\ (ndim a = 3 ->
      0 < nPhiBins <= 2147483647 ->
      let nImages := nth 0 (shape a) 0 in
      let nQY := nth 1 (shape a) 0 in
      let nQX := nth 2 (shape a) 0 in
      0 <= nQY /\ 0 <= nQX /\ nQY * nQX <= 2147483647 ->
      (snd QRange < fst QRange)%R ->
      (forall y x, 0 <= y < nQY -> 0 <= x < nQX ->
         get2 (validPixels
                 (geometry_pass u nQY nQX nPhiBins QRange qCallibration))
              y x false = false)
      /\ compute_crown_integral u x0 a nPhiBins QRange qCallibration
         = Ok (repeat (repeat (d_of_Z 0) (Z.to_nat nPhiBins))
                      (Z.to_nat nImages))).
Proof.
  split.
  - unfold compute_crown_integral.
    destruct (negb (ndim a =? 3)); [discriminate|]. cbv zeta.
    destruct (_ && _); [discriminate|].
    destruct (nPhiBins <? 0); discriminate.
  - intros Hd Hn nImages nQY nQX Hf Hinv.
    assert (Hnone : forall y x, 0 <= y < nQY -> 0 <= x < nQX ->
              get2 (validPixels
                      (geometry_pass u nQY nQX nPhiBins QRange qCallibration))
                   y x false = false).
    { intros y x Hy Hx.
      destruct (get2 _ y x false) eqn:Ev; [|reflexivity].
      apply GeometrySpec.valid_iff in Ev; try assumption. lra. }
    split; [exact Hnone|].
    rewrite compute_crown_integral_rows by assumption. f_equal.
    fold nImages nQY nQX.
    rewrite <- map_const_range. apply map_ext. intros i.
    rewrite <- map_const_range. apply map_ext. intros b.
    now apply profile_without_valid_pixel.
Qed.

Lemma crown_does_not_validate_configuration_witness :
  (ndim one_pixel = 3 /\ 0 < 4 <= 2147483647 /\ (1 < 2)%R)
  /\ compute_crown_integral (D := PrimFloat.float) some_fresh PrimFloat.one
       one_pixel 4 (2%R, 1%R) 1%R
     = Ok (repeat (repeat (d_of_Z 0) (Z.to_nat 4)) (Z.to_nat 1)).
Proof.
  split; [repeat split; try reflexivity; try lia; lra|].
  destruct (crown_does_not_validate_configuration some_fresh PrimFloat.one
              one_pixel 4 (2%R, 1%R) 1%R) as [_ H].
  apply H; try reflexivity; try (cbn; lia). cbn [fst snd]. lra.
Defined.

(** C5, as stated, fails: with the inverted range [2, 1] the call on a
    1x1x1 stack returns a row of four zeros, in binary64. *)
Lemma inverted_range_returns_zeros :
  (1 < 2)%R
  /\ compute_crown_integral (D := PrimFloat.float) some_fresh
       PrimFloat.one one_pixel 4 (2%R, 1%R) 1%R
     = Ok [[PrimFloat.zero; PrimFloat.zero; PrimFloat.zero; PrimFloat.zero]].
Proof.
  split; [lra|].
  rewrite compute_crown_integral_rows; try reflexivity; try (cbn; lia).
  f_equal.
  change (range (nth 0 (shape one_pixel) 0)) with [0].
  change (range 4) with [0; 1; 2; 3]. cbn [map].
  rewrite !profile_without_valid_pixel; [reflexivity | | | |];
    intros y x Hy Hx;
    (destruct (get2 _ y x false) eqn:Ev; [|reflexivity]);
    apply GeometrySpec.valid_iff in Ev; try assumption;
    cbn [fst snd] in Ev; lra.
Qed.

End CrownSpec.

(* ================================================================== *)
(** ** center_of_mass.cpp: further properties *)
(* ================================================================== *)

Module CenterOfMassMore.
Import Cxx Numpy Examples CxxFacts Array2Facts CenterOfMass CenterOfMassFacts
       ExactFacts CenterOfMassExact BoundedFacts.

Section AnyDouble.
Context {D : Type} {dbl : Double D}.

(** The row of an image depends on its pixels only through the ones at or
    above the threshold. *)
Lemma centroid_of_same_pixels (a a' : array_int16) (threshold nQY nQX i i' : Z) :
  (forall y x, 0 <= y < nQY -> 0 <= x < nQX ->
     pixel_at a nQY nQX i y x = pixel_at a' nQY nQX i' y x
     \/ (pixel_at a nQY nQX i y x < threshold
         /\ pixel_at a' nQY nQX i' y x < threshold)) ->
  centroid_of (D := D) a threshold nQY nQX i
  = centroid_of a' threshold nQY nQX i'.
Proof.
  intros H.
  assert (Eq : qualifying a threshold nQY nQX i
               = qualifying a' threshold nQY nQX i').
  { unfold qualifying. apply filter_ext_in. intros [y x] Hc.
    apply coords_In in Hc. destruct Hc as [Hy Hx]. cbn [fst snd].
    destruct (H y x Hy Hx) as [->|[H1 H2]]; [reflexivity|].
    destruct (Z.ltb_spec (pixel_at a nQY nQX i y x) threshold); [|lia].
    destruct (Z.ltb_spec (pixel_at a' nQY nQX i' y x) threshold); [|lia].
    reflexivity. }
  assert (Ep : forall c, In c (qualifying a' threshold nQY nQX i') ->
             pixel_at a nQY nQX i (fst c) (snd c)
             = pixel_at a' nQY nQX i' (fst c) (snd c)).
  { intros [y x] Hc. apply qualifying_In in Hc. destruct Hc as [[Hy Hx] Hp].
    cbn [fst snd]. destruct (H y x Hy Hx) as [E|[_ H2]]; [exact E | lia]. }
  unfold centroid_of, total_of, sumY_of, sumX_of. rewrite Eq.
  rewrite (map_ext_in
             (fun c => d_of_Z (pixel_at a nQY nQX i (fst c) (snd c)))
             (fun c => d_of_Z (pixel_at a' nQY nQX i' (fst c) (snd c))))
    by (intros c Hc; now rewrite Ep).
  rewrite (map_ext_in
             (fun c => d_of_Z (pixel_at a nQY nQX i (fst c) (snd c) * fst c))
             (fun c => d_of_Z (pixel_at a' nQY nQX i' (fst c) (snd c) * fst c)))
    by (intros c Hc; now rewrite Ep).
  rewrite (map_ext_in
             (fun c => d_of_Z (pixel_at a nQY nQX i (fst c) (snd c) * snd c))
             (fun c => d_of_Z (pixel_at a' nQY nQX i' (fst c) (snd c) * snd c)))
    by (intros c Hc; now rewrite Ep).
  reflexivity.
Qed.

Lemma centroid_of_length (a : array_int16) (threshold nQY nQX i : Z) :
  length (centroid_of (D := D) a threshold nQY nQX i) = 2%nat.
Proof.
  unfold centroid_of. destruct (d_eqb _ _); reflexivity.
Qed.

(** X2.  The result is written in full: it has one row of exactly two
    values per image, and it does not depend on what the freshly allocated
    result array held. *)
Theorem centers_of_mass_fully_written (u u' : D) (a : array_int16)
  (threshold : Z) :
  compute_centers_of_mass u a threshold = compute_centers_of_mass u' a threshold
  /\ (forall out, compute_centers_of_mass u a threshold = Ok out ->
        length out = Z.to_nat (nth 0 (shape a) 0)
        /\ Forall (fun row => length row = 2%nat) out).
Proof.
  destruct (Z.eqb_spec (ndim a) 3) as [Hd|Hd].
  - destruct (c_style a) eqn:Hc.
    + rewrite !compute_centers_of_mass_rows by assumption.
      split; [reflexivity|]. intros out E. injection E as <-.
      split; [now rewrite length_map, range_length|].
      apply Forall_forall. intros row Hrow. apply in_map_iff in Hrow.
      destruct Hrow as (i & <- & _). apply centroid_of_length.
    + unfold compute_centers_of_mass. rewrite Hd, Hc. cbn [Z.eqb Pos.eqb negb].
      split; [reflexivity | discriminate].
  - unfold compute_centers_of_mass.
    destruct (Z.eqb_spec (ndim a) 3); [contradiction|]. cbn [negb].
    split; [reflexivity | discriminate].
Qed.

(** X3.  Images are independent and masked values do not matter: when two
    3-dimensional C-contiguous stacks of the same frame size agree on the
    image [i] of the one and the image [i'] of the other, except at pixels
    that are below the threshold in both, the two rows are equal, whatever
    the other images hold. *)
Theorem centroid_depends_on_qualifying_pixels
  (u u' : D) (a a' : array_int16) (threshold i i' : Z) :
  ndim a = 3 -> c_style a = true -> ndim a' = 3 -> c_style a' = true ->
  let nQY := nth 1 (shape a) 0 in
  let nQX := nth 2 (shape a) 0 in
  nth 1 (shape a') 0 = nQY -> nth 2 (shape a') 0 = nQX ->
  0 <= i < nth 0 (shape a) 0 -> 0 <= i' < nth 0 (shape a') 0 ->
  (forall y x, 0 <= y < nQY -> 0 <= x < nQX ->
     pixel_at a nQY nQX i y x = pixel_at a' nQY nQX i' y x
     \/ (pixel_at a nQY nQX i y x < threshold
         /\ pixel_at a' nQY nQX i' y x < threshold)) ->
  exists out out' : array2 D,
    compute_centers_of_mass u a threshold = Ok out
    /\ compute_centers_of_mass u' a' threshold = Ok out'
    /\ vget out i [] = vget out' i' [].
Proof.
  intros Hd Hc Hd' Hc' nQY nQX EY EX Hi Hi' Hsame.
  eexists _, _. split; [now apply compute_centers_of_mass_rows|].
  split; [now apply compute_centers_of_mass_rows|].
  rewrite !vget_map_range by assumption. rewrite EY, EX.
  now apply centroid_of_same_pixels.
Qed.

End AnyDouble.

Lemma centroid_depends_on_qualifying_pixels_witness :
  (ndim two_frames = 3 /\ c_style two_frames = true /\ 0 <= 1 < 2)
  /\ exists out out' : array2 PrimFloat.float,
       compute_centers_of_mass PrimFloat.one two_frames 1 = Ok out
       /\ compute_centers_of_mass PrimFloat.zero
            (stack 1 2 3 [-3; -2; -1; 0; 0; 7]) 1 = Ok out'
       /\ vget out 1 [] = vget out' 0 [].
Proof.
  split; [repeat split; try reflexivity; lia|].
  apply (centroid_depends_on_qualifying_pixels PrimFloat.one PrimFloat.zero
           two_frames (stack 1 2 3 [-3; -2; -1; 0; 0; 7]) 1 1 0);
    try reflexivity; try (cbn; lia).
  intros y x Hy Hx. cbn in Hy, Hx.
  assert (Hc : (y = 0 \/ y = 1) /\ (x = 0 \/ x = 1 \/ x = 2)) by lia.
  destruct Hc as [[-> | ->] [-> | [-> | ->]]]; vm_compute;
    first [left; reflexivity | right; split; reflexivity].
Defined.

(** *** Stacks laid end to end *)

Lemma range_add (n m : Z) :
  0 <= n -> 0 <= m -> range (n + m) = range n ++ map (fun k => n + k) (range m).
Proof.
  intros Hn Hm. unfold range.
  replace (Z.to_nat (n + m)) with (Z.to_nat n + Z.to_nat m)%nat by lia.
  rewrite seq_app, map_app. f_equal. cbn [Nat.add].
  rewrite map_map. rewrite <- (Nat.add_0_r (Z.to_nat n)) at 1.
  generalize 0%nat.
  induction (Z.to_nat m) as [|k IH]; intro st; [reflexivity|].
  cbn [seq map]. f_equal; [lia|].
  rewrite <- IH. f_equal. f_equal. lia.
Qed.

Lemma pixel_at_front (d1 d2 : list Z) (n1 n nQY nQX i y x : Z) :
  length d1 = Z.to_nat (n1 * nQY * nQX) ->
  0 <= i < n1 -> 0 <= y < nQY -> 0 <= x < nQX ->
  pixel_at (stack n nQY nQX (d1 ++ d2)) nQY nQX i y x
  = pixel_at (stack n1 nQY nQX d1) nQY nQX i y x.
Proof.
  intros Hlen Hi Hy Hx. unfold pixel_at, load, vget, stack. cbn [ptr].
  assert (Hr : 0 <= y * nQX + x < nQY * nQX) by nia.
  assert (Hf : 0 <= i * (nQY * nQX)
               /\ (i + 1) * (nQY * nQX) <= n1 * (nQY * nQX)).
  { split; [apply Z.mul_nonneg_nonneg; lia|].
    apply Z.mul_le_mono_nonneg_r; lia. }
  assert (0 <= i * nQY * nQX + y * nQX + x < n1 * nQY * nQX) by lia.
  destruct (Z.ltb_spec (i * nQY * nQX + y * nQX + x) 0); [lia|].
  apply app_nth1. lia.
Qed.

Lemma pixel_at_back (d1 d2 : list Z) (n1 n n2 nQY nQX k y x : Z) :
  length d1 = Z.to_nat (n1 * nQY * nQX) ->
  0 <= n1 -> 0 <= k -> 0 <= y < nQY -> 0 <= x < nQX ->
  pixel_at (stack n nQY nQX (d1 ++ d2)) nQY nQX (n1 + k) y x
  = pixel_at (stack n2 nQY nQX d2) nQY nQX k y x.
Proof.
  intros Hlen Hn1 Hk Hy Hx. unfold pixel_at, load, vget, stack. cbn [ptr].
  assert (Hr : 0 <= y * nQX + x) by nia.
  assert (Hk' : 0 <= k * (nQY * nQX))
    by (apply Z.mul_nonneg_nonneg; nia).
  assert (Hn' : 0 <= n1 * (nQY * nQX))
    by (apply Z.mul_nonneg_nonneg; nia).
  assert (E : (n1 + k) * nQY * nQX + y * nQX + x
              = n1 * nQY * nQX + (k * nQY * nQX + y * nQX + x)) by lia.
  rewrite E.
  destruct (Z.ltb_spec (n1 * nQY * nQX + (k * nQY * nQX + y * nQX + x)) 0);
    [lia|].
  destruct (Z.ltb_spec (k * nQY * nQX + y * nQX + x) 0); [lia|].
  rewrite app_nth2 by lia. f_equal. lia.
Qed.

(** X4.  Stacks compose: when the buffer of a stack of [n1] frames is
    followed by the buffer of a stack of [n2] frames of the same size, the
    result of the stack of [n1 + n2] frames is the result of the first
    followed by the result of the second, for any double arithmetic. *)
Theorem centers_of_mass_of_concatenation
  {D : Type} {dbl : Double D} (u : D) (threshold n1 n2 nQY nQX : Z)
  (d1 d2 : list Z) :
  0 <= n1 -> 0 <= n2 -> 0 <= nQY -> 0 <= nQX ->
  length d1 = Z.to_nat (n1 * nQY * nQX) ->
  exists o1 o2 : array2 D,
    compute_centers_of_mass u (stack n1 nQY nQX d1) threshold = Ok o1
    /\ compute_centers_of_mass u (stack n2 nQY nQX d2) threshold = Ok o2
    /\ compute_centers_of_mass u (stack (n1 + n2) nQY nQX (d1 ++ d2)) threshold
       = Ok (o1 ++ o2).
Proof.
  intros Hn1 Hn2 HY HX Hlen.
  eexists _, _. split; [now apply compute_centers_of_mass_rows|].
  split; [now apply compute_centers_of_mass_rows|].
  rewrite compute_centers_of_mass_rows by reflexivity.
  change (nth 0 (shape (stack (n1 + n2) nQY nQX (d1 ++ d2))) 0) with (n1 + n2).
  change (nth 0 (shape (stack n1 nQY nQX d1)) 0) with n1.
  change (nth 0 (shape (stack n2 nQY nQX d2)) 0) with n2.
  change (nth 1 (shape (stack (n1 + n2) nQY nQX (d1 ++ d2))) 0) with nQY.
  change (nth 1 (shape (stack n1 nQY nQX d1)) 0) with nQY.
  change (nth 1 (shape (stack n2 nQY nQX d2)) 0) with nQY.
  change (nth 2 (shape (stack (n1 + n2) nQY nQX (d1 ++ d2))) 0) with nQX.
  change (nth 2 (shape (stack n1 nQY nQX d1)) 0) with nQX.
  change (nth 2 (shape (stack n2 nQY nQX d2)) 0) with nQX.
  f_equal.
  rewrite range_add, map_app, map_map by assumption. f_equal.
  - apply map_ext_in. intros i Hi. apply range_In in Hi.
    apply centroid_of_same_pixels. intros y x Hy Hx. left.
    now apply pixel_at_front.
  - apply map_ext_in. intros k Hk. apply range_In in Hk.
    apply centroid_of_same_pixels. intros y x Hy Hx. left.
    apply pixel_at_back; try assumption; lia.
Qed.

Lemma centers_of_mass_of_concatenation_witness :
  (0 <= 1 /\ 0 <= 2 /\ 0 <= 3
   /\ length [1; 2; 3; 4; 5; 6] = Z.to_nat (1 * 2 * 3))
  /\ exists o1 o2 : array2 PrimFloat.float,
       compute_centers_of_mass PrimFloat.one
         (stack 1 2 3 [1; 2; 3; 4; 5; 6]) 1 = Ok o1
       /\ compute_centers_of_mass PrimFloat.one
            (stack 1 2 3 [0; 0; 0; 0; 0; 7]) 1 = Ok o2
       /\ compute_centers_of_mass PrimFloat.one
            (stack (1 + 1) 2 3 ([1; 2; 3; 4; 5; 6] ++ [0; 0; 0; 0; 0; 7])) 1
          = Ok (o1 ++ o2).
Proof.
  split; [repeat split; try lia; reflexivity|].
  apply (centers_of_mass_of_concatenation PrimFloat.one 1 1 1 2 3);
    try lia; reflexivity.
Defined.

(** *** Inputs without pixels and images without intensity *)

Lemma coords_empty (nQY nQX : Z) : nQY <= 0 \/ nQX <= 0 -> coords nQY nQX = [].
Proof.
  intros [H|H]; unfold coords.
  - rewrite (range_nonpos nQY) by assumption. reflexivity.
  - rewrite (range_nonpos nQX) by assumption.
    induction (range nQY) as [|y l IH]; [reflexivity | exact IH].
Qed.

(** In binary64 a sum of zeros from 0.0 is 0.0. *)
Lemma dsum_zeros {A : Type} (g : A -> Z) (l : list A) :
  (forall c, In c l -> g c = 0) ->
  dsum (D := PrimFloat.float) (map (fun c => d_of_Z (g c)) l) = d_of_Z 0.
Proof.
  intros H. unfold dsum.
  induction l as [|c l IH]; [reflexivity|].
  cbn [map fold_left]. rewrite (H c) by now left.
  change (d_add (D := PrimFloat.float) (d_of_Z 0) (d_of_Z 0))
    with (d_of_Z (D := PrimFloat.float) 0).
  apply IH. intros; apply H; now right.
Qed.

(** X5.  Empty inputs, in binary64: a 3-dimensional C-contiguous stack
    without images gives the empty result, and a stack whose frames have no
    row or no column gives the sentinel [(-1, -1)] for every image. *)
Theorem centers_of_mass_of_empty_input
  (u : PrimFloat.float) (a : array_int16) (threshold : Z) :
  ndim a = 3 -> c_style a = true ->
  (nth 0 (shape a) 0 <= 0 -> compute_centers_of_mass u a threshold = Ok [])
  /\ (nth 1 (shape a) 0 <= 0 \/ nth 2 (shape a) 0 <= 0 ->
      compute_centers_of_mass u a threshold
      = Ok (repeat [d_of_Z (-1); d_of_Z (-1)] (Z.to_nat (nth 0 (shape a) 0)))).
Proof.
  intros Hd Hc. rewrite compute_centers_of_mass_rows by assumption. split.
  - intros Hn. now rewrite range_nonpos.
  - intros He. f_equal. rewrite <- map_const_range. apply map_ext. intros i.
    apply centroid_of_nothing; [reflexivity|].
    unfold qualifying. now rewrite coords_empty.
Qed.

Lemma centers_of_mass_of_empty_input_witness :
  (ndim (stack 2 0 3 []) = 3 /\ c_style (stack 2 0 3 []) = true)
  /\ compute_centers_of_mass PrimFloat.one (stack 2 0 3 []) 1
     = Ok (repeat [d_of_Z (-1); d_of_Z (-1)] (Z.to_nat 2)).
Proof.
  split; [split; reflexivity|].
  apply (centers_of_mass_of_empty_input PrimFloat.one (stack 2 0 3 []) 1
           eq_refl eq_refl).
  left. cbn. lia.
Defined.

(** X6.  The guard against dividing by zero, in binary64: an image in which
    every pixel at or above the threshold is 0 (for instance an image of
    zeros, for any threshold) gets the sentinel [(-1, -1)]. *)
Theorem zero_intensity_gives_sentinel
  (u : PrimFloat.float) (a : array_int16) (threshold i : Z) :
  ndim a = 3 -> c_style a = true ->
  0 <= i < nth 0 (shape a) 0 ->
  let nQY := nth 1 (shape a) 0 in
  let nQX := nth 2 (shape a) 0 in
  (forall y x, 0 <= y < nQY -> 0 <= x < nQX ->
     threshold <= pixel_at a nQY nQX i y x -> pixel_at a nQY nQX i y x = 0) ->
  exists out : array2 PrimFloat.float,
    compute_centers_of_mass u a threshold = Ok out
    /\ vget out i [] = [d_of_Z (-1); d_of_Z (-1)].
Proof.
  intros Hd Hc Hi nQY nQX Hz.
  eexists. split; [now apply compute_centers_of_mass_rows|].
  rewrite vget_map_range by assumption. fold nQY nQX.
  unfold centroid_of, total_of.
  rewrite (dsum_zeros (fun c => pixel_at a nQY nQX i (fst c) (snd c))).
  - reflexivity.
  - intros [y x] Hq. apply qualifying_In in Hq. destruct Hq as [[Hy Hx] Hp].
    cbn [fst snd]. now apply Hz.
Qed.

Lemma zero_intensity_gives_sentinel_witness :
  (ndim (stack 1 4 4 (repeat 0 16)) = 3
   /\ c_style (stack 1 4 4 (repeat 0 16)) = true /\ 0 <= 0 < 1)
  /\ exists out : array2 PrimFloat.float,
       compute_centers_of_mass PrimFloat.one (stack 1 4 4 (repeat 0 16)) (-3)
       = Ok out
       /\ vget out 0 [] = [d_of_Z (-1); d_of_Z (-1)].
Proof.
  split; [repeat split; try reflexivity; lia|].
  apply (zero_intensity_gives_sentinel PrimFloat.one
           (stack 1 4 4 (repeat 0 16)) (-3) 0); try reflexivity; try (cbn; lia).
  intros y x Hy Hx _. cbn in Hy, Hx.
  assert (Hc : (y = 0 \/ y = 1 \/ y = 2 \/ y = 3)
               /\ (x = 0 \/ x = 1 \/ x = 2 \/ x = 3)) by lia.
  destruct Hc as [[-> | [-> | [-> | ->]]] [-> | [-> | [-> | ->]]]];
    reflexivity.
Defined.

(** *** The uniform image *)

Lemma Zsum_app (l1 l2 : list Z) : Zsum (l1 ++ l2) = Zsum l1 + Zsum l2.
Proof.
  induction l1 as [|h t IH]; simpl; [reflexivity|]. rewrite IH. lia.
Qed.

Lemma Zsum_const {A : Type} (k : Z) (l : list A) :
  Zsum (map (fun _ => k) l) = Z.of_nat (length l) * k.
Proof.
  induction l as [|c l IH]; [reflexivity|].
  cbn [map Zsum fold_right length]. fold (Zsum (map (fun _ : A => k) l)).
  rewrite IH. lia.
Qed.

Lemma Zsum_range (n : Z) : 0 <= n -> 2 * Zsum (range n) = n * (n - 1).
Proof.
  intros Hn. rewrite <- (Z2Nat.id n Hn).
  induction (Z.to_nat n) as [|k IH]; [reflexivity|].
  replace (Z.of_nat (S k)) with (Z.of_nat k + 1) by lia.
  rewrite range_succ, Zsum_app by lia. cbn [Zsum fold_right]. lia.
Qed.

Lemma Zsum_coords (f : Z * Z -> Z) (nQY nQX : Z) :
  Zsum (map f (coords nQY nQX))
  = Zsum (map (fun y => Zsum (map (fun x => f (y, x)) (range nQX)))
              (range nQY)).
Proof.
  unfold coords. induction (range nQY) as [|y l IH]; [reflexivity|].
  cbn [flat_map map Zsum fold_right].
  rewrite map_app, Zsum_app, map_map, IH. reflexivity.
Qed.

Lemma Zsum_coords_rows (nQY nQX : Z) :
  0 <= nQY -> 0 <= nQX ->
  2 * Zsum (map fst (coords nQY nQX)) = nQX * (nQY * (nQY - 1)).
Proof.
  intros HY HX. rewrite Zsum_coords. cbn [fst].
  rewrite (map_ext _ (fun y => nQX * y))
    by (intros y; rewrite Zsum_const, range_length, Z2Nat.id by lia;
        reflexivity).
  rewrite (Zsum_scale nQX (fun y => y)), map_id.
  pose proof (Zsum_range nQY HY). lia.
Qed.

Lemma Zsum_coords_columns (nQY nQX : Z) :
  0 <= nQY -> 0 <= nQX ->
  2 * Zsum (map snd (coords nQY nQX)) = nQY * (nQX * (nQX - 1)).
Proof.
  intros HY HX. rewrite Zsum_coords. cbn [snd].
  rewrite (map_ext _ (fun _ => Zsum (range nQX)))
    by (intros y; now rewrite map_id).
  rewrite Zsum_const, range_length, Z2Nat.id by lia.
  pose proof (Zsum_range nQX HX). lia.
Qed.

(** Two exact quotients of integers are equal when the cross products are. *)
Lemma div_ofZ_cross (a b c d : Z) :
  b <> 0 -> d <> 0 -> a * d = c * b ->
  d_div (ofZ a) (ofZ b) = d_div (ofZ c) (ofZ d).
Proof.
  intros Hb Hd E.
  assert (Hb' : ofZ b <> 0%Qc)
    by (rewrite <- ofZ_zero; intro H; now apply ofZ_inj in H).
  assert (Hd' : ofZ d <> 0%Qc)
    by (rewrite <- ofZ_zero; intro H; now apply ofZ_inj in H).
  change (ofZ a / ofZ b = ofZ c / ofZ d)%Qc.
  apply (f_equal ofZ) in E. rewrite <- !ofZ_mul in E.
  rewrite <- (Qcmult_1_r (ofZ a / ofZ b)), <- (Qcmult_inv_r (ofZ d)) by assumption.
  rewrite <- (Qcmult_1_r (ofZ c / ofZ d)), <- (Qcmult_inv_r (ofZ b)) by assumption.
  unfold Qcdiv.
  replace (ofZ a * / ofZ b * (ofZ d * / ofZ d))%Qc
    with ((ofZ a * ofZ d) * (/ ofZ b * / ofZ d))%Qc by ring.
  replace (ofZ c * / ofZ d * (ofZ b * / ofZ b))%Qc
    with ((ofZ c * ofZ b) * (/ ofZ b * / ofZ d))%Qc by ring.
  now rewrite E.
Qed.

#[export] Instance QuotientOfRatio_Qc : QuotientOfRatio Qc.
Proof.
  split. intros a b c d _ Hb _ Hd E. apply div_ofZ_cross; lia.
Qed.

(** X7.  The centroid of a uniform image is the middle of the frame, in
    every arithmetic in which sums of integers below 2^53 are exact and a
    quotient depends only on the ratio (binary64, and exact rationals):
    when every pixel of image [i] has the same positive value [p], at or
    above the threshold, and [p * nQY * nQX * (nQY + nQX)] is below 2^53,
    the row of the image is [((nQY - 1) / 2, (nQX - 1) / 2)]. *)
Theorem uniform_image_centroid
  {D : Type} {dbl : Double D} {ES : ExactSums D} {QR : QuotientOfRatio D}
  (u : D) (a : array_int16) (threshold i p : Z) :
  ndim a = 3 -> c_style a = true ->
  0 <= i < nth 0 (shape a) 0 ->
  let nQY := nth 1 (shape a) 0 in
  let nQX := nth 2 (shape a) 0 in
  1 <= nQY -> 1 <= nQX ->
  threshold <= p -> 0 < p ->
  p * (nQY * nQX) * (nQY + nQX) < exact_bound ->
  (forall y x, 0 <= y < nQY -> 0 <= x < nQX -> pixel_at a nQY nQX i y x = p) ->
  exists out : array2 D,
    compute_centers_of_mass u a threshold = Ok out
    /\ vget out i [] = [d_div (d_of_Z (nQY - 1)) (d_of_Z 2);
                        d_div (d_of_Z (nQX - 1)) (d_of_Z 2)].
Proof.
  intros Hd Hc Hi nQY nQX HY HX Hp Hpos Hb Hu.
  eexists. split; [now apply compute_centers_of_mass_rows|].
  rewrite vget_map_range by assumption. fold nQY nQX.
  assert (Eq : qualifying a threshold nQY nQX i = coords nQY nQX).
  { unfold qualifying. rewrite <- (filter_ext_in (fun _ => true)).
    - induction (coords nQY nQX) as [|c l IH]; [reflexivity|].
      cbn [filter]. now rewrite IH.
    - intros [y x] Hin. apply coords_In in Hin. destruct Hin as [Hy Hx].
      cbn [fst snd]. rewrite (Hu y x Hy Hx).
      destruct (Z.ltb_spec p threshold); [lia | reflexivity]. }
  assert (Ep : forall c, In c (coords nQY nQX) ->
             pixel_at a nQY nQX i (fst c) (snd c) = p).
  { intros [y x] Hin. apply coords_In in Hin. now apply Hu. }
  assert (ET : totalZ a threshold nQY nQX i = nQY * nQX * p).
  { unfold totalZ. rewrite Eq.
    rewrite (map_ext_in _ (fun _ => p)) by exact Ep.
    rewrite Zsum_const, StackFacts.coords_length. nia. }
  assert (EY : 2 * sumYZ a threshold nQY nQX i = p * (nQX * (nQY * (nQY - 1)))).
  { unfold sumYZ. rewrite Eq.
    rewrite (map_ext_in _ (fun c => p * fst c))
      by (intros c Hin; now rewrite Ep).
    rewrite (Zsum_scale p fst).
    pose proof (Zsum_coords_rows nQY nQX). lia. }
  assert (EX : 2 * sumXZ a threshold nQY nQX i = p * (nQY * (nQX * (nQX - 1)))).
  { unfold sumXZ. rewrite Eq.
    rewrite (map_ext_in _ (fun c => p * snd c))
      by (intros c Hin; now rewrite Ep).
    rewrite (Zsum_scale p snd).
    pose proof (Zsum_coords_columns nQY nQX). lia. }
  assert (Hn : 1 <= nQY * nQX) by nia.
  assert (Hpn : 1 <= p * (nQY * nQX)) by nia.
  assert (HT : 1 <= totalZ a threshold nQY nQX i
               /\ totalZ a threshold nQY nQX i < exact_bound)
    by (rewrite ET; nia).
  assert (HSY : 0 <= sumYZ a threshold nQY nQX i
                /\ sumYZ a threshold nQY nQX i < exact_bound) by nia.
  assert (HSX : 0 <= sumXZ a threshold nQY nQX i
                /\ sumXZ a threshold nQY nQX i < exact_bound) by nia.
  assert (HBY : nQY - 1 < exact_bound /\ nQX - 1 < exact_bound) by nia.
  rewrite centroid_of_nonneg; try tauto.
  2:{ intros y x Hy Hx _. rewrite (Hu y x Hy Hx). lia. }
  destruct (Z.eqb_spec (totalZ a threshold nQY nQX i) 0); [lia|].
  f_equal; [|f_equal]; apply quotient_of_ratio;
    try (unfold exact_bound; lia); rewrite ?ET; nia.
Qed.

Lemma uniform_image_centroid_witness :
  (ndim (stack 1 2 3 [4; 4; 4; 4; 4; 4]) = 3 /\ 0 <= 0 < 1 /\ 1 <= 4 /\ 0 < 4
   /\ 4 * (2 * 3) * (2 + 3) < exact_bound)
  /\ exists out : array2 Qc,
       compute_centers_of_mass (ofZ 7) (stack 1 2 3 [4; 4; 4; 4; 4; 4]) 1
       = Ok out
       /\ vget out 0 [] = [d_div (ofZ (2 - 1)) (ofZ 2);
                           d_div (ofZ (3 - 1)) (ofZ 2)].
Proof.
  split; [repeat split; try reflexivity; lia|].
  apply (uniform_image_centroid (ofZ 7) (stack 1 2 3 [4; 4; 4; 4; 4; 4]) 1 0 4);
    try reflexivity; try (cbn; lia).
  intros y x Hy Hx. cbn in Hy, Hx.
  assert (Hc : (y = 0 \/ y = 1) /\ (x = 0 \/ x = 1 \/ x = 2)) by lia.
  destruct Hc as [[-> | ->] [-> | [-> | ->]]]; reflexivity.
Defined.

End CenterOfMassMore.

(* ================================================================== *)
(** ** crown_integration.cpp: further properties of the geometry *)
(* ================================================================== *)

Module GeometryMore.
Import Cxx Numpy Examples CxxFacts Array2Facts CrownIntegration RealFacts
       GeometryFacts GeometryValues.

Local Open Scope R_scope.

Lemma atan2_neg_0 (y : R) : y < 0 -> atan2 y 0 = - (PI / 2).
Proof.
  intros Hy. unfold atan2.
  destruct (Rlt_dec 0 0); [lra|]. destruct (Rlt_dec 0 0); [lra|].
  destruct (Rlt_dec 0 y); [lra|].
  destruct (Rlt_dec y 0); [reflexivity | contradiction].
Qed.

(** The angles of the four directions of the detector axes. *)
Lemma angleDeg_axes (d : Z) :
  (0 < d)%Z ->
  angleDeg 0 d = 0 /\ angleDeg d 0 = 90
  /\ angleDeg 0 (- d) = 180 /\ angleDeg (- d) 0 = 270.
Proof.
  intros Hd. pose proof PI_RGT_0 as Hpi.
  assert (Hp : 0 < IZR d) by (apply IZR_lt; lia).
  assert (Hn : IZR (- d) < 0) by (apply IZR_lt; lia).
  unfold angleDeg. repeat split.
  - rewrite atan2_0_pos by assumption.
    replace (0 * 180 / PI) with 0 by (field; lra).
    destruct (Rlt_dec 0 0); [lra | reflexivity].
  - rewrite atan2_pos_0 by assumption.
    replace (PI / 2 * 180 / PI) with 90 by (field; lra).
    destruct (Rlt_dec 90 0); [lra | reflexivity].
  - rewrite atan2_0_neg by assumption.
    replace (PI * 180 / PI) with 180 by (field; lra).
    destruct (Rlt_dec 180 0); [lra | reflexivity].
  - rewrite atan2_neg_0 by assumption.
    replace (- (PI / 2) * 180 / PI) with (-90) by (field; lra).
    destruct (Rlt_dec (-90) 0); lra.
Qed.

(** The stored bin is the floor of the stored angle over the bin width. *)
Lemma stored_bin (u : fresh) (nQY nQX nPhiBins : Z) (QRange : R * R) (q : R)
  (y x : Z) :
  (0 < nPhiBins <= 2147483647)%Z ->
  (0 <= y < nQY)%Z -> (0 <= x < nQX)%Z ->
  let g := geometry_pass u nQY nQX nPhiBins QRange q in
  get2 (validPixels g) y x false = true ->
  get2 (binIndicies g) y x 0%Z
  = Int_part (get2 (pixelsPhi g) y x 0 / (360 / IZR nPhiBins)).
Proof.
  intros Hn Hy Hx g Hv.
  destruct (geometry_pass_cells nQY nQX nPhiBins QRange q u y x Hy Hx)
    as (EPhi & _ & EV & EB).
  fold g in EPhi, EV, EB. rewrite Hv in EV. rewrite (EB (eq_sym EV)), EPhi.
  now destruct (cell_bin_floor nQY nQX nPhiBins y x Hn) as [-> _].
Qed.

(** X8.  The four directions, for a detector of fewer than 65536 rows and
    columns: a pixel of the row of the beam center has angle 0 to the right
    of it and 180 to the left; a pixel of the column of the beam center has
    angle 90 below it (larger row index) and 270 above it, where the source
    adds 360 to the negative angle.  With four bins these pixels, when
    valid, go to the bins 0, 2, 1 and 3. *)
Theorem angles_of_the_axes
  (u : fresh) (nQY nQX nPhiBins : Z) (QRange : R * R) (qCallibration : R)
  (y x : Z) :
  (0 <= y < nQY)%Z -> (nQY < 65536)%Z -> (0 <= x < nQX)%Z -> (nQX < 65536)%Z ->
  let g := geometry_pass u nQY nQX nPhiBins QRange qCallibration in
  let cy := Z.quot nQY 2 in
  let cx := Z.quot nQX 2 in
  let angle := get2 (pixelsPhi g) y x 0 in
  let bin := get2 (binIndicies g) y x 0%Z in
  let valid4 := nPhiBins = 4%Z /\ get2 (validPixels g) y x false = true in
  (y = cy -> (cx < x)%Z -> angle = 0 /\ (valid4 -> bin = 0%Z))
  /\ (y = cy -> (x < cx)%Z -> angle = 180 /\ (valid4 -> bin = 2%Z))
  /\ (x = cx -> (cy < y)%Z -> angle = 90 /\ (valid4 -> bin = 1%Z))
  /\ (x = cx -> (y < cy)%Z -> angle = 270 /\ (valid4 -> bin = 3%Z)).
Proof.
  intros Hy HnY Hx HnX g cy cx angle bin valid4.
  destruct (geometry_pass_cells nQY nQX nPhiBins QRange qCallibration u y x Hy Hx)
    as (EPhi & _ & _ & _).
  fold g in EPhi. rewrite cell_Phi_small in EPhi by assumption.
  fold cy cx angle in EPhi.
  assert (Hbin : forall k : Z, angle = IZR k * 90 -> valid4 -> bin = k).
  { intros k Ek [E4 Hv]. unfold bin, g.
    rewrite stored_bin; try assumption; [|rewrite E4; lia].
    fold g angle. rewrite Ek, E4.
    replace (IZR k * 90 / (360 / 4)) with (IZR k) by field.
    apply Int_part_IZR. }
  split; [|split; [|split]]; intros E1 E2.
  - assert (E : angle = 0).
    { rewrite EPhi, E1, Z.sub_diag.
      now destruct (angleDeg_axes (x - cx)) as (E & _); [lia|]. }
    split; [exact E|]. apply (Hbin 0%Z). rewrite E. ring.
  - assert (E : angle = 180).
    { rewrite EPhi, E1, Z.sub_diag.
      replace (x - cx)%Z with (- (cx - x))%Z by lia.
      now destruct (angleDeg_axes (cx - x)) as (_ & _ & E & _); [lia|]. }
    split; [exact E|]. apply (Hbin 2%Z). rewrite E. ring.
  - assert (E : angle = 90).
    { rewrite EPhi, E1, Z.sub_diag.
      now destruct (angleDeg_axes (y - cy)) as (_ & E & _); [lia|]. }
    split; [exact E|]. apply (Hbin 1%Z). rewrite E. ring.
  - assert (E : angle = 270).
    { rewrite EPhi, E1, Z.sub_diag.
      replace (y - cy)%Z with (- (cy - y))%Z by lia.
      now destruct (angleDeg_axes (cy - y)) as (_ & _ & _ & E); [lia|]. }
    split; [exact E|]. apply (Hbin 3%Z). rewrite E. ring.
Qed.

Lemma angles_of_the_axes_witness :
  ((0 <= 0 < 4)%Z /\ (4 < 65536)%Z /\ (0 <= 2 < 4)%Z)
  /\ get2 (pixelsPhi (geometry_pass some_fresh 4 4 4 (0, 10) 1)) 0 2 0 = 270.
Proof.
  split; [lia|].
  destruct (angles_of_the_axes some_fresh 4 4 4 (0, 10) 1 0 2)
    as (_ & _ & _ & H); try lia.
  destruct H as [E _]; [reflexivity | reflexivity | exact E].
Defined.

(** X10.  Nested radial ranges: the radius and the angle of a pixel do not
    depend on the radial range, a pixel that is valid for a range is valid
    for every range that contains it, and its bin index is the same for
    both. *)
Theorem valid_in_wider_range
  (u u' : fresh) (nQY nQX nPhiBins : Z) (QRange QRange' : R * R)
  (qCallibration : R) (y x : Z) :
  (0 <= y < nQY)%Z -> (0 <= x < nQX)%Z ->
  fst QRange' <= fst QRange -> snd QRange <= snd QRange' ->
  let g := geometry_pass u nQY nQX nPhiBins QRange qCallibration in
  let g' := geometry_pass u' nQY nQX nPhiBins QRange' qCallibration in
  get2 (pixelsQ g') y x 0 = get2 (pixelsQ g) y x 0
  /\ get2 (pixelsPhi g') y x 0 = get2 (pixelsPhi g) y x 0
  /\ (get2 (validPixels g) y x false = true ->
      get2 (validPixels g') y x false = true
      /\ get2 (binIndicies g') y x 0%Z = get2 (binIndicies g) y x 0%Z).
Proof.
  intros Hy Hx Hlo Hhi g g'.
  destruct (geometry_pass_cells nQY nQX nPhiBins QRange qCallibration u y x
              Hy Hx) as (EPhi & EQ & EV & EB).
  destruct (geometry_pass_cells nQY nQX nPhiBins QRange' qCallibration u' y x
              Hy Hx) as (EPhi' & EQ' & EV' & EB').
  fold g in EPhi, EQ, EV, EB. fold g' in EPhi', EQ', EV', EB'.
  split; [now rewrite EQ, EQ'|]. split; [now rewrite EPhi, EPhi'|].
  intros Hv.
  assert (Hv' : get2 (validPixels g') y x false = true).
  { unfold g'. apply GeometrySpec.valid_iff; try assumption.
    unfold g in Hv. apply GeometrySpec.valid_iff in Hv; try assumption. lra. }
  split; [exact Hv'|].
  rewrite Hv in EV. rewrite Hv' in EV'.
  now rewrite (EB (eq_sym EV)), (EB' (eq_sym EV')).
Qed.

Lemma valid_in_wider_range_witness :
  ((0 <= 2 < 4)%Z /\ 0 <= 0 /\ 0 <= 10)
  /\ get2 (pixelsQ (geometry_pass some_fresh 4 4 4 (0, 10) 3)) 2 2 0
     = get2 (pixelsQ (geometry_pass some_fresh 4 4 4 (0, 0) 3)) 2 2 0.
Proof.
  split; [repeat split; try lia; lra|].
  apply (valid_in_wider_range some_fresh some_fresh 4 4 4 (0, 0) (0, 10) 3
           2 2); try lia; cbn [fst snd]; lra.
Defined.

End GeometryMore.

(* ================================================================== *)
(** ** crown_integration.cpp: the beam center in binary64 *)
(* ================================================================== *)

Module Geometry64More.
Import Cxx Numpy Examples CxxFacts Array2Facts CrownIntegration RealFacts
       GeometryValues CrownIntegration64 Geometry64Facts Binary64Facts.

(** X9.  The beam-center pixel in binary64, for a detector of at least one
    and fewer than 65536 rows and columns and any [atan2] of the platform:
    its angle is 0.0.  For a finite calibration factor its radius is a zero
    (0.0 or -0.0), it is valid exactly when [qMin <= 0 <= qMax], and then,
    for a positive number of bins, it goes to bin 0.  For a calibration
    factor that is not finite its radius is a NaN and it is not valid,
    whatever the radial range. *)
Theorem beam_center_pixel
  (libm_atan2 : PrimFloat.float -> PrimFloat.float -> PrimFloat.float)
  (u : fresh64) (nQY nQX nPhiBins : Z)
  (QRange : PrimFloat.float * PrimFloat.float) (qCallibration : PrimFloat.float) :
  1 <= nQY < 65536 -> 1 <= nQX < 65536 ->
  let g := geometry_pass64 libm_atan2 u nQY nQX nPhiBins QRange
                           qCallibration in
  let cy := Z.quot nQY 2 in
  let cx := Z.quot nQX 2 in
  let rad := get2 (pixelsQ64 g) cy cx PrimFloat.one in
  let valid := get2 (validPixels64 g) cy cx false in
  (0 <= cy < nQY /\ 0 <= cx < nQX)
  /\ get2 (pixelsPhi64 g) cy cx PrimFloat.one = PrimFloat.zero
  /\ (PrimFloat.is_finite qCallibration = true ->
      PrimFloat.is_zero rad = true
      /\ valid = PrimFloat.leb (fst QRange) PrimFloat.zero
                 && PrimFloat.leb PrimFloat.zero (snd QRange)
      /\ (0 < nPhiBins <= 2147483647 -> valid = true ->
          get2 (binIndicies64 g) cy cx 7 = 0))
  /\ (PrimFloat.is_finite qCallibration = false ->
      PrimFloat.is_nan rad = true /\ valid = false).
Proof.
  intros HY HX g cy cx rad valid.
  assert (Hcy : 0 <= cy < nQY).
  { unfold cy. rewrite Z.quot_div_nonneg by lia.
    split; [apply Z.div_pos; lia | apply Z.div_lt; lia]. }
  assert (Hcx : 0 <= cx < nQX).
  { unfold cx. rewrite Z.quot_div_nonneg by lia.
    split; [apply Z.div_pos; lia | apply Z.div_lt; lia]. }
  assert (Hrect : geometry_rect64 g nQY nQX).
  { unfold g, geometry_pass64.
    rewrite (for_loop_coords nQY nQX
      (fun iQY iQX st => geometry_body64 libm_atan2 nPhiBins QRange
                           qCallibration (beamCenter nQY) (beamCenter nQX)
                           iQY iQX st)).
    apply (geometry64_sweep libm_atan2 nQY nQX nPhiBins QRange qCallibration
             (coords nQY nQX)).
    - split; [|split; [|split]]; apply rect_alloc2.
    - intros [y' x'] Hc. now apply coords_In in Hc. }
  destruct (geometry_pass64_cells libm_atan2 nQY nQX nPhiBins QRange
              qCallibration u cy cx Hcy Hcx) as (EPhi & EQ & EV & EB).
  fold g in EPhi, EQ, EV, EB.
  assert (EQc : cell_Q64 nQY nQX qCallibration cy cx
                = PrimFloat.mul PrimFloat.zero qCallibration).
  { unfold cell_Q64. cbv zeta. rewrite !beamCenter_small by lia.
    fold cy cx. rewrite !Z.sub_diag. reflexivity. }
  assert (EPc : cell_Phi64 libm_atan2 nQY nQX cy cx = PrimFloat.zero).
  { unfold cell_Phi64. cbv zeta. rewrite !beamCenter_small by lia.
    fold cy cx. rewrite !Z.sub_diag. reflexivity. }
  assert (Edef : forall (A : Type) (a : array2 A) (d d' : A),
             rect a nQY nQX -> get2 a cy cx d = get2 a cy cx d').
  { intros A a d d' [Hlen Hrows]. unfold get2, vget.
    destruct (Z.ltb_spec cy 0); [lia|]. destruct (Z.ltb_spec cx 0); [lia|].
    apply nth_indep.
    assert (Hin : In (nth (Z.to_nat cy) a []) a) by (apply nth_In; lia).
    rewrite Forall_forall in Hrows. rewrite (Hrows _ Hin). lia. }
  destruct Hrect as (RP & RQ & RV & RB).
  assert (Erad : rad = PrimFloat.mul PrimFloat.zero qCallibration).
  { unfold rad. rewrite (Edef _ _ _ PrimFloat.zero RQ). now rewrite EQ. }
  assert (Ebin : cell_valid64 nQY nQX QRange qCallibration cy cx = true ->
                 0 < nPhiBins <= 2147483647 ->
                 get2 (binIndicies64 g) cy cx 7 = 0).
  { intros Hv Hn. rewrite (Edef _ _ _ 0 RB), (EB Hv), EPc.
    unfold bin_of_angle64, int_of_double64.
    rewrite trunc64_zero_div. change (to_int 0) with 0.
    rewrite to_int_small by (unfold is_int; lia).
    apply clamp_inside. lia. }
  split; [now split|].
  split; [rewrite (Edef _ _ _ PrimFloat.zero RP); now rewrite EPhi|].
  unfold valid. rewrite EV. unfold cell_valid64. rewrite EQc, <- Erad.
  split; intros Hfin.
  - destruct (proj1 (zero_times qCallibration) Hfin) as [s Es].
    rewrite <- Erad in Es.
    assert (Ev : PrimFloat.leb (fst QRange) rad && PrimFloat.leb rad (snd QRange)
                 = PrimFloat.leb (fst QRange) PrimFloat.zero
                   && PrimFloat.leb PrimFloat.zero (snd QRange)).
    { now rewrite (leb_zero_r _ rad s Es), (leb_zero_l rad _ s Es). }
    split; [|split; [exact Ev|]].
    + unfold PrimFloat.is_zero. rewrite FloatAxioms.eqb_spec, Es. reflexivity.
    + intros Hn Hv. apply Ebin; [|exact Hn].
      unfold cell_valid64. rewrite EQc, <- Erad. exact Hv.
  - pose proof (proj2 (zero_times qCallibration) Hfin) as En.
    rewrite <- Erad in En. split.
    + unfold PrimFloat.is_nan. rewrite FloatAxioms.eqb_spec, En. reflexivity.
    + now rewrite (leb_nan_r _ rad En).
Qed.

Lemma beam_center_pixel_witness :
  (1 <= 3 < 65536 /\ 1 <= 1 < 65536)
  /\ get2 (pixelsPhi64
             (geometry_pass64 axes_only some_fresh64 3 1 4
                (PrimFloat.zero, float_of_Z 10) PrimFloat.infinity))
          (Z.quot 3 2) (Z.quot 1 2) PrimFloat.one
     = PrimFloat.zero.
Proof.
  split; [lia|].
  destruct (beam_center_pixel axes_only some_fresh64 3 1 4
              (PrimFloat.zero, float_of_Z 10) PrimFloat.infinity)
    as (_ & EP & _); try lia.
  exact EP.
Defined.

End Geometry64More.

(* ================================================================== *)
(** ** crown_integration.cpp: further properties of the integrator *)
(* ================================================================== *)

Module CrownMore.
Import Cxx Numpy Examples CxxFacts Array2Facts CrownIntegration RealFacts
       GeometryFacts GeometryValues StackFacts ExactFacts.

Section AnyDouble.
Context {D : Type} {dbl : Double D}.

(** The value of a bin depends on the geometry and on the samples only
    through the valid pixels, their bins, and the samples that are not
    negative. *)
Lemma profile_of_same (g g' : geometry) (a a' : array_int16)
  (nQY nQX i i' b : Z) :
  (forall y x, 0 <= y < nQY -> 0 <= x < nQX ->
     get2 (validPixels g) y x false = get2 (validPixels g') y x false
     /\ (get2 (validPixels g) y x false = true ->
         get2 (binIndicies g) y x 0 = get2 (binIndicies g') y x 0
         /\ (unchecked3 a i y x = unchecked3 a' i' y x
             \/ (unchecked3 a i y x < 0 /\ unchecked3 a' i' y x < 0)))) ->
  profile_of (D := D) g a nQY nQX i b = profile_of g' a' nQY nQX i' b.
Proof.
  intros H.
  assert (Eg : forall y x, 0 <= y < nQY -> 0 <= x < nQX ->
            goes_to g a i b (y, x) = goes_to g' a' i' b (y, x)
            /\ (goes_to g a i b (y, x) = true ->
                unchecked3 a i y x = unchecked3 a' i' y x)).
  { intros y x Hy Hx. destruct (H y x Hy Hx) as [Ev Hv].
    unfold goes_to, contributes. cbn [fst snd]. rewrite <- Ev.
    destruct (get2 (validPixels g) y x false); cbn [andb];
      [|split; [reflexivity | discriminate]].
    destruct (Hv eq_refl) as [Eb [Es|[Hs Hs']]].
    - rewrite Eb, Es. split; [reflexivity | intros _; reflexivity].
    - destruct (Z.ltb_spec (unchecked3 a i y x) 0); [|lia].
      destruct (Z.ltb_spec (unchecked3 a' i' y x) 0); [|lia].
      cbn [negb andb]. split; [reflexivity | discriminate]. }
  assert (Ep : bin_pixels g a nQY nQX i b = bin_pixels g' a' nQY nQX i' b).
  { unfold bin_pixels. apply filter_ext_in. intros [y x] Hc.
    apply coords_In in Hc. now apply Eg. }
  assert (Es : bin_sum (D := D) g a nQY nQX i b = bin_sum g' a' nQY nQX i' b).
  { unfold bin_sum. rewrite <- Ep. f_equal. apply map_ext_in.
    intros [y x] Hc. cbn [fst snd]. f_equal.
    unfold bin_pixels in Hc. apply filter_In in Hc. destruct Hc as [Hc Hgo].
    apply coords_In in Hc. now apply Eg. }
  unfold profile_of, bin_count. now rewrite Ep, Es.
Qed.

(** X12.  The profile does not depend on uninitialised memory: the four
    geometry arrays and the output array are allocated without being
    initialised, and the result is the same whatever they held; the bin
    index of a pixel that is not valid is never written and never read. *)
Theorem crown_integral_fully_written
  (u u' : fresh) (x0 x0' : D) (a : array_int16) (nPhiBins : Z)
  (QRange : R * R) (qCallibration : R) :
  ndim a = 3 -> 0 < nPhiBins <= 2147483647 ->
  0 <= nth 1 (shape a) 0 /\ 0 <= nth 2 (shape a) 0
  /\ nth 1 (shape a) 0 * nth 2 (shape a) 0 <= 2147483647 ->
  compute_crown_integral u x0 a nPhiBins QRange qCallibration
  = compute_crown_integral u' x0' a nPhiBins QRange qCallibration.
Proof.
  intros Hd Hn Hf.
  rewrite !CrownSpec.compute_crown_integral_rows by assumption.
  f_equal. apply map_ext. intros i. apply map_ext. intros b.
  apply profile_of_same. intros y x Hy Hx.
  destruct (geometry_pass_cells _ _ nPhiBins QRange qCallibration u y x Hy Hx)
    as (_ & _ & EV & EB).
  destruct (geometry_pass_cells _ _ nPhiBins QRange qCallibration u' y x Hy Hx)
    as (_ & _ & EV' & EB').
  split; [now rewrite EV, EV'|].
  intros Hv. rewrite EV in Hv.
  split; [now rewrite EB, EB' by assumption | now left].
Qed.

(** X13.  Images are independent and masked samples do not matter: when
    two 3-dimensional stacks of the same frame size agree on the image [i]
    of the one and the image [i'] of the other at every valid pixel, except
    where both samples are negative, the two rows are equal, whatever the
    samples at the other pixels and the other images hold. *)
Theorem crown_row_depends_on_contributing_samples
  (u : fresh) (x0 x0' : D) (a a' : array_int16) (nPhiBins : Z)
  (QRange : R * R) (qCallibration : R) (i i' : Z) :
  ndim a = 3 -> ndim a' = 3 -> 0 < nPhiBins <= 2147483647 ->
  let nQY := nth 1 (shape a) 0 in
  let nQX := nth 2 (shape a) 0 in
  nth 1 (shape a') 0 = nQY -> nth 2 (shape a') 0 = nQX ->
  0 <= nQY /\ 0 <= nQX /\ nQY * nQX <= 2147483647 ->
  0 <= i < nth 0 (shape a) 0 -> 0 <= i' < nth 0 (shape a') 0 ->
  (forall y x, 0 <= y < nQY -> 0 <= x < nQX ->
     get2 (validPixels
             (geometry_pass u nQY nQX nPhiBins QRange qCallibration))
          y x false = true ->
     unchecked3 a i y x = unchecked3 a' i' y x
     \/ (unchecked3 a i y x < 0 /\ unchecked3 a' i' y x < 0)) ->
  exists out out' : array2 D,
    compute_crown_integral u x0 a nPhiBins QRange qCallibration = Ok out
    /\ compute_crown_integral u x0' a' nPhiBins QRange qCallibration = Ok out'
    /\ vget out i [] = vget out' i' [].
Proof.
  intros Hd Hd' Hn nQY nQX EY EX Hf Hi Hi' Hsame.
  eexists _, _.
  split; [now apply CrownSpec.compute_crown_integral_rows|].
  split; [apply CrownSpec.compute_crown_integral_rows; try assumption;
          now rewrite EY, EX|].
  rewrite !vget_map_range by assumption. rewrite EY, EX. fold nQY nQX.
  apply map_ext. intros b. apply profile_of_same. intros y x Hy Hx.
  split; [reflexivity|]. intros Hv. split; [reflexivity|]. now apply Hsame.
Qed.

(** X15.  Stacks compose: when the buffer of a C-contiguous stack of [n1]
    frames is followed by the buffer of a stack of [n2] frames of the same
    size, the profile of the stack of [n1 + n2] frames is the profile of the
    first followed by the profile of the second. *)
Theorem crown_integral_of_concatenation
  (u : fresh) (x0 : D) (nPhiBins : Z) (QRange : R * R) (qCallibration : R)
  (n1 n2 nQY nQX : Z) (d1 d2 : list Z) :
  0 < nPhiBins <= 2147483647 ->
  0 <= n1 -> 0 <= n2 ->
  0 <= nQY /\ 0 <= nQX /\ nQY * nQX <= 2147483647 ->
  length d1 = Z.to_nat (n1 * nQY * nQX) ->
  exists o1 o2 : array2 D,
    compute_crown_integral u x0 (stack n1 nQY nQX d1) nPhiBins QRange
                           qCallibration = Ok o1
    /\ compute_crown_integral u x0 (stack n2 nQY nQX d2) nPhiBins QRange
                              qCallibration = Ok o2
    /\ compute_crown_integral u x0 (stack (n1 + n2) nQY nQX (d1 ++ d2))
                              nPhiBins QRange qCallibration
       = Ok (o1 ++ o2).
Proof.
  intros Hn Hn1 Hn2 Hf Hlen.
  eexists _, _.
  split; [apply CrownSpec.compute_crown_integral_rows;
          [reflexivity | assumption | exact Hf]|].
  split; [apply CrownSpec.compute_crown_integral_rows;
          [reflexivity | assumption | exact Hf]|].
  rewrite CrownSpec.compute_crown_integral_rows;
    [|reflexivity | assumption | exact Hf].
  change (nth 0 (shape (stack (n1 + n2) nQY nQX (d1 ++ d2))) 0) with (n1 + n2).
  change (nth 0 (shape (stack n1 nQY nQX d1)) 0) with n1.
  change (nth 0 (shape (stack n2 nQY nQX d2)) 0) with n2.
  change (nth 1 (shape (stack (n1 + n2) nQY nQX (d1 ++ d2))) 0) with nQY.
  change (nth 1 (shape (stack n1 nQY nQX d1)) 0) with nQY.
  change (nth 1 (shape (stack n2 nQY nQX d2)) 0) with nQY.
  change (nth 2 (shape (stack (n1 + n2) nQY nQX (d1 ++ d2))) 0) with nQX.
  change (nth 2 (shape (stack n1 nQY nQX d1)) 0) with nQX.
  change (nth 2 (shape (stack n2 nQY nQX d2)) 0) with nQX.
  f_equal.
  rewrite CenterOfMassMore.range_add, map_app, map_map by assumption. f_equal.
  - apply map_ext_in. intros i Hi. apply range_In in Hi.
    apply map_ext. intros b. apply profile_of_same. intros y x Hy Hx.
    split; [reflexivity|]. intros _. split; [reflexivity|]. left.
    rewrite <- !(CenterOfMassFacts.pixel_at_unchecked3 _ nQY nQX)
      by reflexivity.
    now apply CenterOfMassMore.pixel_at_front.
  - apply map_ext_in. intros k Hk. apply range_In in Hk.
    apply map_ext. intros b. apply profile_of_same. intros y x Hy Hx.
    split; [reflexivity|]. intros _. split; [reflexivity|]. left.
    rewrite <- !(CenterOfMassFacts.pixel_at_unchecked3 _ nQY nQX)
      by reflexivity.
    apply CenterOfMassMore.pixel_at_back; try assumption; lia.
Qed.

(** X16.  An image without a contributing pixel gives a row of zeros, not a
    division by zero: when every pixel of the frame is either not valid or
    has a negative sample in image [i] (in particular when the frame has no
    pixel), every bin of the row of image [i] is 0.0. *)
Theorem image_without_contributing_pixel
  (u : fresh) (x0 : D) (a : array_int16) (nPhiBins : Z) (QRange : R * R)
  (qCallibration : R) (i : Z) :
  ndim a = 3 -> 0 < nPhiBins <= 2147483647 ->
  let nQY := nth 1 (shape a) 0 in
  let nQX := nth 2 (shape a) 0 in
  0 <= nQY /\ 0 <= nQX /\ nQY * nQX <= 2147483647 ->
  0 <= i < nth 0 (shape a) 0 ->
  (forall y x, 0 <= y < nQY -> 0 <= x < nQX ->
     get2 (validPixels
             (geometry_pass u nQY nQX nPhiBins QRange qCallibration))
          y x false = false
     \/ unchecked3 a i y x < 0) ->
  exists out : array2 D,
    compute_crown_integral u x0 a nPhiBins QRange qCallibration = Ok out
    /\ vget out i [] = repeat (d_of_Z 0) (Z.to_nat nPhiBins).
Proof.
  intros Hd Hn nQY nQX Hf Hi Hnone.
  eexists. split; [now apply CrownSpec.compute_crown_integral_rows|].
  rewrite vget_map_range by assumption. fold nQY nQX.
  rewrite <- map_const_range. apply map_ext. intros b.
  unfold profile_of, bin_count.
  set (g := geometry_pass u nQY nQX nPhiBins QRange qCallibration) in *.
  assert (E : bin_pixels g a nQY nQX i b = []).
  { destruct (bin_pixels g a nQY nQX i b) as [|[y x] l] eqn:Ep;
      [reflexivity|].
    assert (Hin : In (y, x) (bin_pixels g a nQY nQX i b))
      by (rewrite Ep; now left).
    apply CrownSpec.bin_pixels_In in Hin.
    destruct Hin as ([Hy Hx] & Hv & Hs & _).
    destruct (Hnone y x Hy Hx) as [Hv'|Hs']; [congruence | lia]. }
  rewrite E. reflexivity.
Qed.

(** X17.  With a single bin the profile of an image is the mean of its
    contributing pixels: the left-to-right sum of the samples of the pixels
    that are valid and not negative, over their number, and 0.0 when there
    is none. *)
Theorem single_bin_is_the_mean
  (u : fresh) (x0 : D) (a : array_int16) (QRange : R * R)
  (qCallibration : R) (i : Z) :
  ndim a = 3 ->
  let nQY := nth 1 (shape a) 0 in
  let nQX := nth 2 (shape a) 0 in
  0 <= nQY /\ 0 <= nQX /\ nQY * nQX <= 2147483647 ->
  0 <= i < nth 0 (shape a) 0 ->
  let g := geometry_pass u nQY nQX 1 QRange qCallibration in
  let pixels := contributing g a nQY nQX i in
  let count := Z.of_nat (length pixels) in
  exists out : array2 D,
    compute_crown_integral u x0 a 1 QRange qCallibration = Ok out
    /\ vget out i []
       = [if 0 <? count
          then d_div (dsum (map (fun c => d_of_Z (unchecked3 a i (fst c) (snd c)))
                                pixels))
                     (d_of_Z count)
          else d_of_Z 0].
Proof.
  intros Hd nQY nQX Hf Hi g pixels count.
  assert (Hn : 0 < 1 <= 2147483647) by lia.
  eexists. split; [now apply CrownSpec.compute_crown_integral_rows|].
  rewrite vget_map_range by assumption. fold nQY nQX. fold g.
  change (range 1) with [0]. cbn [map]. f_equal.
  assert (E : bin_pixels g a nQY nQX i 0 = pixels).
  { unfold bin_pixels, pixels, contributing. apply filter_ext_in.
    intros [y x] Hc. apply coords_In in Hc. destruct Hc as [Hy Hx].
    unfold goes_to. destruct (contributes g a i (y, x)) eqn:Ec; cbn [andb];
      [|reflexivity].
    unfold contributes in Ec. cbn [fst snd] in *.
    apply andb_prop in Ec. destruct Ec as [Hv _].
    pose proof (valid_bin_in_range u nQY nQX 1 QRange qCallibration Hn
                  y x Hy Hx Hv) as Hb.
    fold g in Hb. apply Z.eqb_eq. lia. }
  unfold profile_of, bin_count, bin_sum. rewrite E. reflexivity.
Qed.

End AnyDouble.

Lemma crown_integral_fully_written_witness :
  (ndim strided_stack = 3 /\ 0 < 4 <= 2147483647)
  /\ compute_crown_integral some_fresh PrimFloat.one strided_stack 4
                            (0%R, 1%R) 1%R
     = compute_crown_integral
         {| fresh_double := 0%R; fresh_bool := false; fresh_int := -1 |}
         PrimFloat.zero strided_stack 4 (0%R, 1%R) 1%R.
Proof.
  split; [split; [reflexivity | lia]|].
  apply crown_integral_fully_written; [reflexivity | lia | cbn; lia].
Defined.

Lemma crown_row_depends_on_contributing_samples_witness :
  (ndim (stack 2 1 2 [7; 7; 5; -1]) = 3 /\ 0 < 4 <= 2147483647 /\ 0 <= 1 < 2)
  /\ exists out out' : array2 PrimFloat.float,
       compute_crown_integral some_fresh PrimFloat.one
         (stack 2 1 2 [7; 7; 5; -1]) 4 (0%R, 1%R) 1%R = Ok out
       /\ compute_crown_integral some_fresh PrimFloat.zero
            (stack 1 1 2 [5; -3]) 4 (0%R, 1%R) 1%R = Ok out'
       /\ vget out 1 [] = vget out' 0 [].
Proof.
  split; [repeat split; try reflexivity; lia|].
  apply (crown_row_depends_on_contributing_samples some_fresh PrimFloat.one
           PrimFloat.zero (stack 2 1 2 [7; 7; 5; -1]) (stack 1 1 2 [5; -3])
           4 (0%R, 1%R) 1%R 1 0);
    try reflexivity; try (cbn; lia).
  intros y x Hy Hx _. cbn in Hy, Hx.
  assert (Hc : y = 0 /\ (x = 0 \/ x = 1)) by lia.
  destruct Hc as [-> [-> | ->]]; vm_compute;
    first [left; reflexivity | right; split; reflexivity].
Defined.

Lemma crown_integral_of_concatenation_witness :
  (0 < 4 <= 2147483647 /\ 0 <= 1 /\ 0 <= 2
   /\ length [1; 2] = Z.to_nat (1 * 1 * 2))
  /\ exists o1 o2 : array2 PrimFloat.float,
       compute_crown_integral some_fresh PrimFloat.one
         (stack 1 1 2 [1; 2]) 4 (0%R, 1%R) 1%R = Ok o1
       /\ compute_crown_integral some_fresh PrimFloat.one
            (stack 1 1 2 [3; 4]) 4 (0%R, 1%R) 1%R = Ok o2
       /\ compute_crown_integral some_fresh PrimFloat.one
            (stack (1 + 1) 1 2 ([1; 2] ++ [3; 4])) 4 (0%R, 1%R) 1%R
          = Ok (o1 ++ o2).
Proof.
  split; [repeat split; try lia; reflexivity|].
  apply crown_integral_of_concatenation; try lia; reflexivity.
Defined.

Lemma image_without_contributing_pixel_witness :
  (ndim (stack 1 1 2 [-1; -2]) = 3 /\ 0 < 4 <= 2147483647 /\ 0 <= 0 < 1)
  /\ exists out : array2 PrimFloat.float,
       compute_crown_integral some_fresh PrimFloat.one
         (stack 1 1 2 [-1; -2]) 4 (0%R, 1%R) 1%R = Ok out
       /\ vget out 0 [] = repeat (d_of_Z 0) (Z.to_nat 4).
Proof.
  split; [repeat split; try reflexivity; lia|].
  apply (image_without_contributing_pixel some_fresh PrimFloat.one
           (stack 1 1 2 [-1; -2]) 4 (0%R, 1%R) 1%R 0);
    try reflexivity; try (cbn; lia).
  intros y x Hy Hx. cbn in Hy, Hx. right.
  assert (Hc : y = 0 /\ (x = 0 \/ x = 1)) by lia.
  destruct Hc as [-> [-> | ->]]; reflexivity.
Defined.

Lemma single_bin_is_the_mean_witness :
  (ndim (stack 1 1 2 [3; 5]) = 3 /\ 0 <= 0 < 1)
  /\ exists out : array2 PrimFloat.float,
       compute_crown_integral some_fresh PrimFloat.one
         (stack 1 1 2 [3; 5]) 1 (0%R, 1%R) 1%R = Ok out
       /\ length (vget out 0 []) = 1%nat.
Proof.
  split; [split; [reflexivity | lia]|].
  destruct (single_bin_is_the_mean some_fresh PrimFloat.one
              (stack 1 1 2 [3; 5]) (0%R, 1%R) 1%R 0) as (out & E & Hrow);
    try reflexivity; try (cbn; lia).
  exists out. split; [exact E|]. now rewrite Hrow.
Defined.

End CrownMore.

(* ================================================================== *)
(** ** crown_integration.cpp in exact arithmetic *)
(* ================================================================== *)

Module CrownExact.
Import Cxx Numpy Examples CxxFacts Array2Facts CrownIntegration RealFacts
       GeometryFacts GeometryValues StackFacts ExactFacts.

Lemma Zsum_lower {A : Type} (f : A -> Z) (lo : Z) (l : list A) :
  (forall c, In c l -> lo <= f c) ->
  lo * Z.of_nat (length l) <= Zsum (map f l).
Proof.
  intros H. rewrite Z.mul_comm, <- (CenterOfMassMore.Zsum_const lo l).
  now apply Zsum_le.
Qed.

Lemma Zsum_upper {A : Type} (f : A -> Z) (hi : Z) (l : list A) :
  (forall c, In c l -> f c <= hi) ->
  Zsum (map f l) <= hi * Z.of_nat (length l).
Proof.
  intros H. rewrite Z.mul_comm, <- (CenterOfMassMore.Zsum_const hi l).
  now apply Zsum_le.
Qed.

(** X18.  In exact arithmetic every value of the profile is an average of
    samples: it is never negative; a bin that received no pixel holds 0; and
    when the contributing samples of image [i] lie in [[lo, hi]], so does
    every bin of its row that received a pixel.  In particular an image
    whose contributing pixels all hold the value [p] gives [p] in every bin
    that received a pixel. *)
Theorem crown_profile_bounds
  (u : fresh) (x0 : Qc) (a : array_int16) (nPhiBins : Z) (QRange : R * R)
  (qCallibration : R) (i lo hi : Z) :
  ndim a = 3 -> 0 < nPhiBins <= 2147483647 ->
  let nQY := nth 1 (shape a) 0 in
  let nQX := nth 2 (shape a) 0 in
  0 <= nQY /\ 0 <= nQX /\ nQY * nQX <= 2147483647 ->
  0 <= i < nth 0 (shape a) 0 ->
  let g := geometry_pass u nQY nQX nPhiBins QRange qCallibration in
  (forall y x, 0 <= y < nQY -> 0 <= x < nQX ->
     get2 (validPixels g) y x false = true -> 0 <= unchecked3 a i y x ->
     lo <= unchecked3 a i y x <= hi) ->
  exists out : array2 Qc,
    compute_crown_integral u x0 a nPhiBins QRange qCallibration = Ok out
    /\ forall b, 0 <= b < nPhiBins ->
       let v := vget (vget out i []) b (ofZ 0) in
       (ofZ 0 <= v)%Qc
       /\ (bin_count g a nQY nQX i b = 0 -> v = ofZ 0)
       /\ (0 < bin_count g a nQY nQX i b ->
           (ofZ lo <= v)%Qc /\ (v <= ofZ hi)%Qc
           /\ (lo = hi -> v = ofZ lo)).
Proof.
  intros Hd Hn nQY nQX Hf Hi g Hrange.
  eexists. split; [now apply CrownSpec.compute_crown_integral_rows|].
  intros b Hb. cbv zeta. rewrite !vget_map_range by assumption.
  fold nQY nQX. fold g. unfold profile_of.
  set (pixels := bin_pixels g a nQY nQX i b).
  set (sample := fun c : Z * Z => unchecked3 a i (fst c) (snd c)).
  assert (Ec : bin_count g a nQY nQX i b = Z.of_nat (length pixels))
    by reflexivity.
  assert (Es : bin_sum (D := Qc) g a nQY nQX i b
               = ofZ (Zsum (map sample pixels)))
    by (unfold bin_sum; apply (dsum_ofZ sample)).
  assert (Hin : forall c, In c pixels ->
            0 <= sample c /\ lo <= sample c <= hi).
  { intros [y x] Hc. apply CrownSpec.bin_pixels_In in Hc.
    destruct Hc as ([Hy Hx] & Hv & Hs & _). unfold sample. cbn [fst snd].
    split; [assumption | now apply Hrange]. }
  pose proof (Zsum_lower sample 0 pixels (fun c Hc => proj1 (Hin c Hc))) as H0.
  pose proof (Zsum_lower sample lo pixels
                (fun c Hc => proj1 (proj2 (Hin c Hc)))) as Hlo.
  pose proof (Zsum_upper sample hi pixels
                (fun c Hc => proj2 (proj2 (Hin c Hc)))) as Hhi.
  rewrite Es, Ec.
  destruct (Z.ltb_spec 0 (Z.of_nat (length pixels))) as [Hpos|Hzero].
  - split; [now apply div_ofZ_lower|].
    split; [intros E; lia|]. intros _.
    split; [now apply div_ofZ_lower|].
    split; [now apply div_ofZ_upper|].
    intros <-. apply Qcle_antisym;
      [now apply div_ofZ_upper | now apply div_ofZ_lower].
  - split; [apply Qcle_refl|]. split; [reflexivity | intros H; lia].
Qed.

Lemma crown_profile_bounds_witness :
  (ndim (stack 1 1 2 [3; 5]) = 3 /\ 0 < 4 <= 2147483647 /\ 0 <= 0 < 1)
  /\ exists out : array2 Qc,
       compute_crown_integral some_fresh (ofZ 7) (stack 1 1 2 [3; 5]) 4
                              (0%R, 1%R) 1%R = Ok out
       /\ (ofZ 0 <= vget (vget out 0 []) 2 (ofZ 0))%Qc.
Proof.
  split; [repeat split; try reflexivity; lia|].
  destruct (crown_profile_bounds some_fresh (ofZ 7) (stack 1 1 2 [3; 5]) 4
              (0%R, 1%R) 1%R 0 3 5) as (out & E & Hb);
    try reflexivity; try (cbn; lia).
  - intros y x Hy Hx _ _. cbn in Hy, Hx.
    assert (Hc : y = 0 /\ (x = 0 \/ x = 1)) by lia.
    destruct Hc as [-> [-> | ->]]; vm_compute; split; discriminate.
  - exists out. split; [exact E|].
    destruct (Hb 2) as [H0 _]; [lia | exact H0].
Defined.

End CrownExact.

(* ================================================================== *)
(** ** center_of_mass.cpp: the scale of the intensities *)
(* ================================================================== *)

Module CenterOfMassScale.
Import Cxx Numpy Examples CxxFacts CenterOfMass CenterOfMassFacts ExactFacts
       CenterOfMassExact BoundedFacts CenterOfMassMore.

(** The integer sums of an image whose pixels are [k] times the pixels of
    another, under [k] times the threshold. *)
Lemma sums_scale (a a' : array_int16) (threshold nQY nQX i i' k : Z) :
  0 < k ->
  (forall y x, 0 <= y < nQY -> 0 <= x < nQX ->
     pixel_at a' nQY nQX i' y x = k * pixel_at a nQY nQX i y x) ->
  totalZ a' (k * threshold) nQY nQX i' = k * totalZ a threshold nQY nQX i
  /\ sumYZ a' (k * threshold) nQY nQX i' = k * sumYZ a threshold nQY nQX i
  /\ sumXZ a' (k * threshold) nQY nQX i' = k * sumXZ a threshold nQY nQX i.
Proof.
  intros Hk Hs.
  assert (Eq : qualifying a' (k * threshold) nQY nQX i'
               = qualifying a threshold nQY nQX i).
  { unfold qualifying. apply filter_ext_in. intros [y x] Hc.
    apply coords_In in Hc. destruct Hc as [Hy Hx]. cbn [fst snd].
    rewrite (Hs y x Hy Hx).
    destruct (Z.ltb_spec (k * pixel_at a nQY nQX i y x) (k * threshold));
      destruct (Z.ltb_spec (pixel_at a nQY nQX i y x) threshold);
      try reflexivity; nia. }
  assert (Ep : forall c, In c (qualifying a threshold nQY nQX i) ->
             pixel_at a' nQY nQX i' (fst c) (snd c)
             = k * pixel_at a nQY nQX i (fst c) (snd c)).
  { intros [y x] Hc. apply qualifying_In in Hc. destruct Hc as [[Hy Hx] _].
    now apply Hs. }
  unfold totalZ, sumYZ, sumXZ. rewrite Eq. split; [|split].
  - rewrite <- Zsum_scale. f_equal. apply map_ext_in. exact Ep.
  - rewrite <- Zsum_scale. f_equal. apply map_ext_in. intros c Hc.
    rewrite (Ep c Hc). ring.
  - rewrite <- Zsum_scale. f_equal. apply map_ext_in. intros c Hc.
    rewrite (Ep c Hc). ring.
Qed.

(** X19.  The centroid does not depend on the scale of the intensities, in
    every arithmetic in which sums of integers below 2^53 are exact and a
    quotient depends only on the ratio (binary64, and exact rationals):
    when every pixel of image [i'] of one stack is [k] times the pixel of
    image [i] of another, for a positive [k], with a threshold of at least
    1 and the three integer sums of the scaled image below 2^53, the row of
    the first under the threshold [k * threshold] is the row of the second
    under [threshold], sentinel included. *)
Theorem centroid_intensity_scale
  {D : Type} {dbl : Double D} {ES : ExactSums D} {QR : QuotientOfRatio D}
  (u u' : D) (a a' : array_int16) (threshold i i' k : Z) :
  ndim a = 3 -> c_style a = true -> ndim a' = 3 -> c_style a' = true ->
  let nQY := nth 1 (shape a) 0 in
  let nQX := nth 2 (shape a) 0 in
  nth 1 (shape a') 0 = nQY -> nth 2 (shape a') 0 = nQX ->
  0 <= i < nth 0 (shape a) 0 -> 0 <= i' < nth 0 (shape a') 0 ->
  1 <= threshold -> 0 < k ->
  k * totalZ a threshold nQY nQX i < exact_bound ->
  k * sumYZ a threshold nQY nQX i < exact_bound ->
  k * sumXZ a threshold nQY nQX i < exact_bound ->
  (forall y x, 0 <= y < nQY -> 0 <= x < nQX ->
     pixel_at a' nQY nQX i' y x = k * pixel_at a nQY nQX i y x) ->
  exists out out' : array2 D,
    compute_centers_of_mass u a threshold = Ok out
    /\ compute_centers_of_mass u' a' (k * threshold) = Ok out'
    /\ vget out' i' [] = vget out i [].
Proof.
  intros Hd Hc Hd' Hc' nQY nQX EY EX Hi Hi' Ht Hk BT BY BX Hs.
  eexists _, _. split; [now apply compute_centers_of_mass_rows|].
  split; [now apply compute_centers_of_mass_rows|].
  rewrite !vget_map_range by assumption. rewrite EY, EX. fold nQY nQX.
  destruct (sums_scale a a' threshold nQY nQX i i' k Hk Hs)
    as (ET & ESY & ESX).
  assert (Hpos : 0 <= totalZ a threshold nQY nQX i
                 /\ 0 <= sumYZ a threshold nQY nQX i
                 /\ 0 <= sumXZ a threshold nQY nQX i).
  { destruct (qualifying a threshold nQY nQX i) as [|c l] eqn:Eq.
    - unfold totalZ, sumYZ, sumXZ. rewrite Eq. cbn. lia.
    - destruct (sums_positive a threshold nQY nQX i Ht) as (H1 & H2 & H3);
        [rewrite Eq; discriminate | lia]. }
  rewrite (centroid_of_bounded a' (k * threshold)) by (rewrite ?ET, ?ESY, ?ESX; nia).
  rewrite (centroid_of_bounded a threshold) by nia.
  rewrite ET, ESY, ESX.
  destruct (Z.eqb_spec (totalZ a threshold nQY nQX i) 0) as [E0|E0].
  - rewrite E0, Z.mul_0_r. reflexivity.
  - destruct (Z.eqb_spec (k * totalZ a threshold nQY nQX i) 0) as [E1|E1];
      [nia|].
    f_equal; [|f_equal]; apply quotient_of_ratio; try nia.
Qed.

Lemma centroid_intensity_scale_witness :
  (ndim two_frames = 3 /\ c_style two_frames = true /\ 0 <= 0 < 2 /\ 0 < 3
   /\ 1 <= 2)
  /\ exists out out' : array2 Qc,
       compute_centers_of_mass (ofZ 7) two_frames 2 = Ok out
       /\ compute_centers_of_mass (ofZ 7)
            (stack 1 2 3 [3; 6; 9; 12; 15; 18]) (3 * 2) = Ok out'
       /\ vget out' 0 [] = vget out 0 [].
Proof.
  split; [repeat split; try reflexivity; lia|].
  apply (centroid_intensity_scale (ofZ 7) (ofZ 7) two_frames
           (stack 1 2 3 [3; 6; 9; 12; 15; 18]) 2 0 0 3);
    try reflexivity; try (cbn; lia).
  intros y x Hy Hx. cbn in Hy, Hx.
  assert (Hc : (y = 0 \/ y = 1) /\ (x = 0 \/ x = 1 \/ x = 2)) by lia.
  destruct Hc as [[-> | ->] [-> | [-> | ->]]]; reflexivity.
Defined.

End CenterOfMassScale.
